(** * paperoni: the merge engine of [paperoni/tools.py] and [paperoni/db/database.py]

    A shallow embedding of
    - the identity tag ([tag_uuid], [get_uuid_tag], [is_canonical_uuid]),
    - the union-find structure [EquivalenceGroups],
    - the [Database] object: its context manager, [acquire] / [_acquire],
      [import_all], [_accumulate_history_files] and [replay],
    together with the properties the specification states about them. *)

From stdpp Require Import gmap strings list fin_maps sorting.
From Stdlib Require Import ZArith Lia.

Local Open Scope string_scope.
Local Open Scope list_scope.
Local Open Scope Z_scope.

(** ** Python values shared by all the modules *)

(** Exceptions the modelled code can raise. *)
Inductive exn :=
| ValueError | IndexError | KeyError | AssertionError | TypeError
| AttributeError | RecursionError | ParseError | OSError.

(** The outcome of a call: a value, or a raised exception. *)
Inductive result (A : Type) :=
| Ok (a : A)
| Raise (e : exn).
Arguments Ok {A} a.
Arguments Raise {A} e.

Definition result_bind {A B} (r : result A) (k : A -> result B) : result B :=
  match r with
  | Ok a => k a
  | Raise e => Raise e
  end.

(** A [bytes] object: a list of integers, each in [range(256)]. *)
Definition bytes := list Z.

Definition is_byte (b : Z) : Prop := 0 <= b < 256.
Definition is_byteb (b : Z) : bool := (0 <=? b) && (b <? 256).
Definition valid_bytes (u : bytes) : Prop := Forall is_byte u.

(** [bytes(nums)]: raises [ValueError] unless every item is in [range(256)]. *)
Definition bytes_of_list (nums : list Z) : result bytes :=
  if forallb is_byteb nums then Ok nums else Raise ValueError.

(** Python truthiness of a [bytes] object: empty is falsy. *)
Definition truthy (u : bytes) : bool :=
  match u with
  | [] => false
  | _ :: _ => true
  end.

(** ** tools.py: the identity tag *)

Module Tag.

Definition _uuid_tags : list string := ["transient"; "canonical"].

(** [list.index]: position of the first equal item, [ValueError] if absent. *)
Fixpoint index (l : list string) (s : string) : result nat :=
  match l with
  | [] => Raise ValueError
  | x :: l' => if String.eqb x s then Ok 0%nat
               else result_bind (index l' s) (fun i => Ok (S i))
  end.

(** [l[i]] for a list: [IndexError] when out of range. *)
Definition getitem {A} (l : list A) (i : nat) : result A :=
  match l !! i with
  | Some x => Ok x
  | None => Raise IndexError
  end.

(** [nums[0] = v] on a list: [IndexError] when the list is empty. *)
Definition setitem0 (nums : list Z) (v : Z) : result (list Z) :=
  match nums with
  | [] => Raise IndexError
  | _ :: rest => Ok (v :: rest)
  end.

Definition tag_uuid (uuid : bytes) (status : string) : result bytes :=
  result_bind (index _uuid_tags status) (fun bit =>
  let nums := uuid in
  result_bind (getitem nums 0) (fun n0 =>
  result_bind
    (if negb (Nat.eqb bit 0)
     then setitem0 nums (Z.lor n0 128)
     else setitem0 nums (Z.land n0 127))
    (fun nums' => bytes_of_list nums'))).

Definition get_uuid_tag (uuid : bytes) : result string :=
  result_bind (getitem uuid 0) (fun u0 =>
  getitem _uuid_tags (Z.to_nat (Z.shiftr (Z.land u0 128) 7))).

Definition is_canonical_uuid (uuid : bytes) : result bool :=
  result_bind (getitem uuid 0) (fun u0 =>
  Ok (negb (Z.eqb (Z.land u0 128) 0))).

End Tag.

(** ** Properties of the identity tag *)

Section TagProperties.
Import Tag.

Lemma is_byteb_spec b : is_byteb b = true <-> is_byte b.
Proof. unfold is_byteb, is_byte. rewrite andb_true_iff. lia. Qed.

Lemma bytes_of_list_valid (u : list Z) : valid_bytes u -> bytes_of_list u = Ok u.
Proof.
  intros Hu. unfold bytes_of_list.
  assert (forallb is_byteb u = true) as ->; [|done].
  apply forallb_forall. intros b Hb. apply is_byteb_spec.
  unfold valid_bytes in Hu. rewrite Forall_forall in Hu.
  apply Hu. by apply list_elem_of_In.
Qed.

Lemma lor_128_byte b : is_byte b -> is_byte (Z.lor b 128).
Proof.
  unfold is_byte. intros Hb. split.
  - apply Z.lor_nonneg. lia.
  - change 256 with (2 ^ 8). apply Z.log2_lt_cancel.
    destruct (Z.eq_dec b 0) as [->|Hne]; [simpl; lia|].
    rewrite Z.log2_lor by lia.
    change (Z.log2 128) with 7. change (Z.log2 (2 ^ 8)) with 8.
    assert (Z.log2 b < 8) by (apply Z.log2_lt_pow2; lia). lia.
Qed.

Lemma land_127_byte b : is_byte b -> is_byte (Z.land b 127).
Proof.
  unfold is_byte. intros Hb. split.
  - apply Z.land_nonneg. lia.
  - change 127 with (Z.ones 7). rewrite Z.land_ones by lia.
    pose proof (Z.mod_pos_bound b (2 ^ 7)). lia.
Qed.

Lemma lor_128_tag b : Z.shiftr (Z.land (Z.lor b 128) 128) 7 = 1.
Proof.
  rewrite Z.land_lor_distr_l. change (Z.land 128 128) with 128.
  apply Z.bits_inj'. intros n Hn.
  rewrite Z.shiftr_spec, Z.lor_spec, Z.land_spec by lia.
  destruct (Z.eq_dec n 0) as [->|Hne].
  - simpl. by rewrite orb_true_r.
  - change 128 with (2 ^ 7). rewrite Z.pow2_bits_eqb by lia.
    replace (7 =? n + 7) with false by (symmetry; apply Z.eqb_neq; lia).
    rewrite andb_false_r. simpl.
    change 1 with (2 ^ 0). rewrite Z.pow2_bits_eqb by lia.
    symmetry. apply Z.eqb_neq. lia.
Qed.

Lemma land_127_tag b : Z.shiftr (Z.land (Z.land b 127) 128) 7 = 0.
Proof.
  rewrite <- Z.land_assoc. change (Z.land 127 128) with 0.
  by rewrite Z.land_0_r.
Qed.

Lemma lor_128_low7 b : Z.land (Z.lor b 128) 127 = Z.land b 127.
Proof.
  rewrite Z.land_lor_distr_l. change (Z.land 128 127) with 0.
  by rewrite Z.lor_0_r.
Qed.

Lemma land_127_low7 b : Z.land (Z.land b 127) 127 = Z.land b 127.
Proof. rewrite <- Z.land_assoc. by change (Z.land 127 127) with 127. Qed.

(** C7. For every address [u] with at least one byte and every status [s] in
    [_uuid_tags] (transient, canonical), [tag_uuid u s] returns an address
    [t] whose tag reads back as [s]; [t] has the length of [u], the same
    bytes after the first one, and a first byte that agrees with the first
    byte of [u] on its lower seven bits. *)
Theorem tag_uuid_roundtrip (u : bytes) (s : string) :
  valid_bytes u -> u <> [] -> s ∈ _uuid_tags ->
  exists t,
    tag_uuid u s = Ok t /\
    get_uuid_tag t = Ok s /\
    valid_bytes t /\
    length t = length u /\
    tail t = tail u /\
    (forall b c, head u = Some b -> head t = Some c ->
       Z.land c 127 = Z.land b 127 /\
       forall i, 0 <= i -> i <> 7 -> Z.testbit c i = Z.testbit b i).
Proof.
  intros Hu Hne Hs.
  destruct u as [|b rest]; [done|]. clear Hne.
  apply Forall_cons in Hu as [Hb Hrest].
  assert (s = "transient" \/ s = "canonical") as Hcase.
  { unfold _uuid_tags in Hs.
    apply elem_of_cons in Hs as [->|Hs]; [by left|].
    apply elem_of_cons in Hs as [->|Hs]; [by right|].
    by apply elem_of_nil in Hs. }
  destruct Hcase as [-> | ->].
  - exists (Z.land b 127 :: rest).
    unfold tag_uuid, get_uuid_tag. simpl.
    rewrite bytes_of_list_valid
      by (apply Forall_cons; split; [by apply land_127_byte|done]).
    simpl. rewrite land_127_tag. simpl.
    split; [done|]. split; [done|].
    split; [apply Forall_cons; split; [by apply land_127_byte|done]|].
    split; [done|]. split; [done|].
    intros b' c' [= <-] [= <-]. split; [apply land_127_low7|].
    intros i Hi Hi7. rewrite Z.land_spec.
    destruct (Z.testbit b i) eqn:Hbi; [|done]. simpl.
    destruct (Z_lt_dec i 7).
    + change 127 with (Z.ones 7). apply Z.ones_spec_low. lia.
    + exfalso. unfold is_byte in Hb.
      assert (b < 2 ^ i).
      { apply Z.lt_le_trans with (2 ^ 8); [lia|].
        apply Z.pow_le_mono_r; lia. }
      assert (Z.testbit b i = false); [|congruence].
      destruct (Z.eq_dec b 0) as [->|]; [apply Z.bits_0|].
      apply Z.bits_above_log2; [lia|].
      apply Z.log2_lt_pow2; lia.
  - exists (Z.lor b 128 :: rest).
    unfold tag_uuid, get_uuid_tag. simpl.
    rewrite bytes_of_list_valid
      by (apply Forall_cons; split; [by apply lor_128_byte|done]).
    simpl. rewrite lor_128_tag. simpl.
    split; [done|]. split; [done|].
    split; [apply Forall_cons; split; [by apply lor_128_byte|done]|].
    split; [done|]. split; [done|].
    intros b' c' [= <-] [= <-]. split; [apply lor_128_low7|].
    intros i Hi Hi7.
    rewrite Z.lor_spec. change 128 with (2 ^ 7).
    rewrite Z.pow2_bits_eqb by lia.
    replace (7 =? i) with false by (symmetry; apply Z.eqb_neq; lia).
    by rewrite orb_false_r.
Qed.

Lemma tag_uuid_roundtrip_witness :
  exists t, tag_uuid [18; 52; 255] "canonical" = Ok t /\
            get_uuid_tag t = Ok "canonical".
Proof.
  destruct (tag_uuid_roundtrip [18; 52; 255] "canonical") as (t & H1 & H2 & _).
  - repeat constructor; unfold is_byte; lia.
  - discriminate.
  - unfold _uuid_tags. apply elem_of_cons. right. apply elem_of_cons. by left.
  - exists t. split; assumption.
Defined.

End TagProperties.

(** ** Python dictionaries

    A [dict] keeps its keys in insertion order; assigning to an existing key
    keeps its position, assigning to a new key appends it. *)

Module Dict.
Section Dict.
Context {K V : Type} `{EqDecision K}.

Definition dict := list (K * V).

Fixpoint get (d : dict) (k : K) : option V :=
  match d with
  | [] => None
  | (k', v) :: d' => if decide (k = k') then Some v else get d' k
  end.

Fixpoint set (d : dict) (k : K) (v : V) : dict :=
  match d with
  | [] => [(k, v)]
  | (k', v') :: d' =>
      if decide (k = k') then (k, v) :: d' else (k', v') :: set d' k v
  end.

Definition keys (d : dict) : list K := d.*1.

Lemma get_set (d : dict) k v k' :
  get (set d k v) k' = if decide (k' = k) then Some v else get d k'.
Proof.
  induction d as [|[k0 v0] d IH]; simpl.
  - by destruct (decide (k' = k)).
  - destruct (decide (k = k0)) as [->|Hne]; simpl.
    + by destruct (decide (k' = k0)).
    + destruct (decide (k' = k0)) as [->|Hne'].
      * by rewrite decide_False by congruence.
      * apply IH.
Qed.

Lemma get_set_eq (d : dict) k v : get (set d k v) k = Some v.
Proof. rewrite get_set. by rewrite decide_True. Qed.

Lemma get_set_ne (d : dict) k v k' : k' <> k -> get (set d k v) k' = get d k'.
Proof. intros. rewrite get_set. by rewrite decide_False. Qed.

Lemma get_Some_keys (d : dict) k v : get d k = Some v -> k ∈ keys d.
Proof.
  induction d as [|[k0 v0] d IH]; simpl; [done|].
  destruct (decide (k = k0)) as [->|Hne]; intros Hg.
  - apply elem_of_cons. by left.
  - apply elem_of_cons. right. by apply IH.
Qed.

Lemma keys_get_Some (d : dict) k : k ∈ keys d -> is_Some (get d k).
Proof.
  induction d as [|[k0 v0] d IH]; simpl.
  - intros H. by apply elem_of_nil in H.
  - intros H. destruct (decide (k = k0)) as [->|Hne]; [by eexists|].
    apply elem_of_cons in H as [?|H]; [done|]. by apply IH.
Qed.

Lemma get_None_keys (d : dict) k : get d k = None <-> k ∉ keys d.
Proof.
  split.
  - intros Hg Hk. apply keys_get_Some in Hk as [v Hv]. congruence.
  - intros Hk. destruct (get d k) eqn:Hg; [|done].
    exfalso. apply Hk. by eapply get_Some_keys.
Qed.

(** Assigning to a key that is present keeps the key list as it is. *)
Lemma keys_set_in (d : dict) k v : k ∈ keys d -> keys (set d k v) = keys d.
Proof.
  induction d as [|[k0 v0] d IH]; simpl.
  - intros H. by apply elem_of_nil in H.
  - intros H. destruct (decide (k = k0)) as [->|Hne]; simpl; [done|].
    apply elem_of_cons in H as [?|H]; [done|].
    unfold keys in *. simpl. f_equal. by apply IH.
Qed.

(** Assigning to a new key appends it. *)
Lemma keys_set_notin (d : dict) k v : k ∉ keys d -> keys (set d k v) = keys d ++ [k].
Proof.
  induction d as [|[k0 v0] d IH]; simpl; [done|].
  intros H. apply not_elem_of_cons in H as [Hne H].
  rewrite decide_False by done. unfold keys in *. simpl. f_equal. by apply IH.
Qed.

Lemma elem_of_keys_set (d : dict) k v x : x ∈ keys (set d k v) <-> x = k \/ x ∈ keys d.
Proof.
  destruct (decide (k ∈ keys d)) as [Hin|Hnin].
  - rewrite keys_set_in by done. split; [by right|]. by intros [->|?].
  - rewrite keys_set_notin by done. rewrite elem_of_app, list_elem_of_singleton.
    tauto.
Qed.

Lemma NoDup_keys_set (d : dict) k v : NoDup (keys d) -> NoDup (keys (set d k v)).
Proof.
  intros Hnd. destruct (decide (k ∈ keys d)) as [Hin|Hnin].
  - by rewrite keys_set_in.
  - rewrite keys_set_notin by done. apply NoDup_app. split; [done|].
    split; [|apply NoDup_singleton].
    intros x Hx Hx'. apply list_elem_of_singleton in Hx'. by subst.
Qed.

Lemma set_same (d : dict) k v : get d k = Some v -> set d k v = d.
Proof.
  induction d as [|[k0 v0] d IH]; simpl; [done|].
  destruct (decide (k = k0)) as [->|Hne].
  - by intros [= ->].
  - intros Hg. by rewrite IH.
Qed.

Lemma elem_of_get (d : dict) k v : NoDup (keys d) -> (k, v) ∈ d <-> get d k = Some v.
Proof.
  induction d as [|[k0 v0] d IH]; simpl.
  - intros _. split; [intros H; by apply elem_of_nil in H|done].
  - intros Hnd. apply NoDup_cons in Hnd as [Hk0 Hnd].
    rewrite elem_of_cons. destruct (decide (k = k0)) as [->|Hne].
    + split.
      * intros [[= ->]|Hin]; [done|]. exfalso. apply Hk0.
        apply list_elem_of_fmap. by exists (k0, v).
      * intros [= ->]. by left.
    + rewrite <- IH by done. split; [|by right].
      intros [[= ? ?]|Hin]; [done|done].
Qed.

End Dict.
Global Arguments dict : clear implicits.
End Dict.

Abbreviation dict := Dict.dict.

(** ** tools.py: [EquivalenceGroups] *)

Module EquivalenceGroups.

(** Addresses are [bytes] objects (the ids handed to [equiv_all]). *)
Abbreviation address := bytes.

(** What [equiv_all] records for an id: the label [under] and the class
    [cls] that builds the merge directive ([None] when not given). *)
Definition label := option string.
Definition kind := string.

(** The object [cls(ids=ids)] built when iterating. *)
Record directive := Directive {
  directive_kind : kind;
  directive_ids : gset address
}.

Record t := EG {
  representatives : dict address address;
  names : dict address label;
  classes : dict address (option kind)
}.

(** [EquivalenceGroups()] *)
Definition init : t := EG [] [] [].

(** [follow], with the depth of the recursion bounded by [fuel]: running out
    of it is Python's [RecursionError]. *)
Fixpoint follow_fuel (fuel : nat) (reps : dict address address) (a : address)
  : result (address * dict address address) :=
  match fuel with
  | O => Raise RecursionError
  | S n =>
      match Dict.get reps a with
      | Some b =>
          if truthy b then
            if decide (a = b) then Ok (a, reps)
            else
              match follow_fuel n reps b with
              | Ok (res, reps') => Ok (res, Dict.set reps' a res)
              | Raise e => Raise e
              end
          else Ok (a, reps)
      | None => Ok (a, reps)
      end
  end.

(** A chain of distinct keys has at most [length reps] links, so this bound
    is reached only on a cyclic table, where Python never returns either
    (see [follow_fuel_enough] and [follow_fuel_more]). *)
Definition follow (reps : dict address address) (a : address)
  : result (address * dict address address) :=
  follow_fuel (S (length reps)) reps a.

Definition equiv_reps (reps : dict address address) (a b : address)
  : result (dict address address) :=
  match follow reps a with
  | Raise e => Raise e
  | Ok (ar, reps1) =>
      match follow reps1 b with
      | Raise e => Raise e
      | Ok (br, reps2) =>
          let reps3 := Dict.set reps2 a ar in
          let reps4 := Dict.set reps3 b ar in
          let reps5 := Dict.set reps4 br ar in
          Ok reps5
      end
  end.

Definition equiv (eg : t) (a b : address) : result t :=
  match equiv_reps (representatives eg) a b with
  | Raise e => Raise e
  | Ok reps => Ok (EG reps (names eg) (classes eg))
  end.

(** The loop [for b in rest: self.equiv(a, b)]. *)
Fixpoint equiv_loop (reps : dict address address) (a : address)
  (rest : list address) : result (dict address address) :=
  match rest with
  | [] => Ok reps
  | b :: rest' =>
      match equiv_reps reps a b with
      | Raise e => Raise e
      | Ok reps' => equiv_loop reps' a rest'
      end
  end.

(** The loop [for x in ids: self.names[x] = under; self.classes[x] = cls]. *)
Fixpoint register (nm : dict address label) (cl : dict address (option kind))
  (ids : list address) (cls : option kind) (under : label)
  : dict address label * dict address (option kind) :=
  match ids with
  | [] => (nm, cl)
  | x :: ids' => register (Dict.set nm x under) (Dict.set cl x cls) ids' cls under
  end.

Definition equiv_all (eg : t) (ids : list address) (cls : option kind)
  (under : label) : result t :=
  match ids with
  | [] => Ok eg
  | a :: rest =>
      match equiv_loop (representatives eg) a rest with
      | Raise e => Raise e
      | Ok reps =>
          let '(nm, cl) := register (names eg) (classes eg) ids cls under in
          Ok (EG reps nm cl)
      end
  end.

(** The loop [for k in self.representatives: self.follow(k)]; [follow] only
    assigns to keys that are present, so the key list does not change while
    it is iterated. *)
Fixpoint follow_all (reps : dict address address) (ks : list address)
  : result (dict address address) :=
  match ks with
  | [] => Ok reps
  | k :: ks' =>
      match follow reps k with
      | Raise e => Raise e
      | Ok (_, reps') => follow_all reps' ks'
      end
  end.

(** [results[v].add(k)] on a [defaultdict(set)]. *)
Definition bucket_add (results : dict address (gset address)) (v k : address)
  : dict address (gset address) :=
  match Dict.get results v with
  | Some s => Dict.set results v (s ∪ {[k]})
  | None => Dict.set results v {[k]}
  end.

Fixpoint bucket (results : dict address (gset address))
  (items : list (address * address)) : dict address (gset address) :=
  match items with
  | [] => results
  | (k, v) :: items' => bucket (bucket_add results v k) items'
  end.

Definition groups_reps (reps : dict address address)
  : result (dict address (gset address) * dict address address) :=
  match follow_all reps (Dict.keys reps) with
  | Raise e => Raise e
  | Ok reps' => Ok (bucket [] reps', reps')
  end.

Definition groups (eg : t) : result (dict address (gset address) * t) :=
  match groups_reps (representatives eg) with
  | Raise e => Raise e
  | Ok (g, reps') => Ok (g, EG reps' (names eg) (classes eg))
  end.

(** One round of the loop of [__iter__]: the assertion, the printed line
    (the number of ids and the label) and the directive that is yielded. *)
Definition iter_step (eg : t) (main : address) (ids : gset address)
  : result (nat * label * directive) :=
  if negb (1 <? Z.of_nat (size ids)) then Raise AssertionError
  else
    match Dict.get (names eg) main with
    | None => Raise KeyError
    | Some nm =>
        match Dict.get (classes eg) main with
        | None => Raise KeyError
        | Some None => Raise TypeError
        | Some (Some cls) => Ok (size ids, nm, Directive cls ids)
        end
    end.

(** The generator run to its end: what it printed and yielded, and how it
    finished. *)
Fixpoint iter_loop (eg : t) (gs : list (address * gset address))
  : list (nat * label * directive) * result unit :=
  match gs with
  | [] => ([], Ok tt)
  | (main, ids) :: gs' =>
      match iter_step eg main ids with
      | Raise e => ([], Raise e)
      | Ok y => let '(ys, r) := iter_loop eg gs' in (y :: ys, r)
      end
  end.

Definition iter (eg : t) : list (nat * label * directive) * result unit * t :=
  match groups eg with
  | Raise e => ([], Raise e, eg)
  | Ok (g, eg') => let '(ys, r) := iter_loop eg' g in (ys, r, eg')
  end.

(** [declare_equivalent] called on each pair in turn, from the empty
    structure. *)
Fixpoint equiv_seq (reps : dict address address) (ps : list (address * address))
  : result (dict address address) :=
  match ps with
  | [] => Ok reps
  | (a, b) :: ps' =>
      match equiv_reps reps a b with
      | Raise e => Raise e
      | Ok reps' => equiv_seq reps' ps'
      end
  end.

(** [equiv_all(ids, cls=cls, under=under)] called for each entry in turn. *)
Fixpoint equiv_all_seq (eg : t) (calls : list (list address * kind * label))
  : result t :=
  match calls with
  | [] => Ok eg
  | (ids, cls, under) :: calls' =>
      match equiv_all eg ids (Some cls) under with
      | Raise e => Raise e
      | Ok eg' => equiv_all_seq eg' calls'
      end
  end.

End EquivalenceGroups.

(** ** The representatives table as a forest *)

Section UnionFind.
Import EquivalenceGroups.

Abbreviation table := (dict address address).

(** [root_of m a r]: following the table from the key [a] ends at the
    key [r], which is its own representative. *)
Inductive root_of (m : table) : address -> address -> Prop :=
| root_self a : Dict.get m a = Some a -> root_of m a a
| root_step a b r :
    Dict.get m a = Some b -> a <> b -> root_of m b r -> root_of m a r.

(** The same walk, with the list of the keys left behind on the way. *)
Inductive chain (m : table) : address -> list address -> address -> Prop :=
| chain_nil a : Dict.get m a = Some a -> chain m a [] a
| chain_cons a b l r :
    Dict.get m a = Some b -> a <> b -> chain m b l r -> chain m a (a :: l) r.

(** Well-formed tables: keys are unique, stored representatives are truthy,
    and every key leads to a root. *)
Record wf (m : table) : Prop := {
  wf_nodup : NoDup (Dict.keys m);
  wf_truthy : forall a b, Dict.get m a = Some b -> truthy b = true;
  wf_rooted : forall a b, Dict.get m a = Some b -> exists r, root_of m a r
}.

Lemma root_of_root m a r : root_of m a r -> Dict.get m r = Some r.
Proof. induction 1; auto. Qed.

Lemma root_of_key m a r : root_of m a r -> is_Some (Dict.get m a).
Proof. destruct 1; eauto. Qed.

Lemma root_det m a r r' : root_of m a r -> root_of m a r' -> r = r'.
Proof.
  intros H. revert r'. induction H as [a Ha|a b r Ha Hne H IH]; intros r' H'.
  - destruct H' as [a Ha'|a b' r' Ha' Hne' H']; [done|congruence].
  - destruct H' as [a Ha'|a b' r' Ha' Hne' H']; [congruence|].
    apply IH. congruence.
Qed.

Lemma root_of_ext m m' a r :
  (forall x, Dict.get m x = Dict.get m' x) -> root_of m a r -> root_of m' a r.
Proof.
  intros Hext. induction 1 as [a Ha|a b r Ha Hne H IH].
  - apply root_self. by rewrite <- Hext.
  - eapply root_step; [by rewrite <- Hext|done|done].
Qed.

Lemma root_of_chain m a r : root_of m a r -> exists l, chain m a l r.
Proof.
  induction 1 as [a Ha|a b r Ha Hne H [l IH]].
  - exists []. by constructor.
  - exists (a :: l). by econstructor.
Qed.

Lemma chain_root_of m a l r : chain m a l r -> root_of m a r.
Proof. induction 1; [by constructor|by econstructor]. Qed.

Lemma chain_det m a l r l' r' : chain m a l r -> chain m a l' r' -> l = l' /\ r = r'.
Proof.
  intros H. revert l' r'.
  induction H as [a Ha|a b l r Ha Hne H IH]; intros l' r' H'.
  - destruct H' as [a Ha'|a b' l' r' Ha' Hne' H']; [done|congruence].
  - destruct H' as [a Ha'|a b' l' r' Ha' Hne' H']; [congruence|].
    assert (b' = b) as -> by congruence.
    destruct (IH _ _ H') as [-> ->]. done.
Qed.

(** A key met on the way has its own, shorter, walk to the same root. *)
Lemma chain_suffix m a l r x :
  chain m a l r -> x ∈ l ->
  exists l', chain m x l' r /\ (length l' <= length l)%nat.
Proof.
  induction 1 as [a Ha|a b l r Ha Hne H IH]; intros Hx.
  - by apply elem_of_nil in Hx.
  - apply elem_of_cons in Hx as [->|Hx].
    + exists (a :: l). split; [by econstructor|done].
    + destruct (IH Hx) as (l' & Hl' & Hlen). exists l'. split; [done|].
      simpl. lia.
Qed.

Lemma chain_NoDup m a l r : chain m a l r -> NoDup (r :: l).
Proof.
  induction 1 as [a Ha|a b l r Ha Hne H IH].
  - apply NoDup_singleton.
  - apply NoDup_cons in IH as [Hr IH].
    apply NoDup_cons. split.
    + intros Hin. apply elem_of_cons in Hin as [->|Hin]; [|done].
      apply chain_root_of, root_of_root in H. congruence.
    + apply NoDup_cons. split; [|done].
      intros Hin. destruct (chain_suffix _ _ _ _ _ H Hin) as (l' & Hl' & Hlen).
      assert (chain m a (a :: l) r) as Hc by (by econstructor).
      destruct (chain_det _ _ _ _ _ _ Hc Hl') as [<- _]. simpl in Hlen. lia.
Qed.

Lemma chain_keys m a l r x : chain m a l r -> x ∈ r :: l -> x ∈ Dict.keys m.
Proof.
  induction 1 as [a Ha|a b l r Ha Hne H IH]; intros Hx.
  - apply elem_of_cons in Hx as [->|Hx]; [by eapply Dict.get_Some_keys|].
    by apply elem_of_nil in Hx.
  - apply elem_of_cons in Hx as [->|Hx].
    + apply IH, elem_of_cons. by left.
    + apply elem_of_cons in Hx as [->|Hx]; [by eapply Dict.get_Some_keys|].
      apply IH, elem_of_cons. by right.
Qed.

(** The walk to a root is shorter than the table. *)
Lemma chain_length m a l r : chain m a l r -> (S (length l) <= length m)%nat.
Proof.
  intros H.
  assert (r :: l ⊆+ Dict.keys m) as Hsub.
  { apply NoDup_submseteq; [by eapply chain_NoDup|].
    intros x Hx. by eapply chain_keys. }
  apply submseteq_length in Hsub. unfold Dict.keys in Hsub.
  rewrite length_fmap in Hsub. simpl in Hsub. done.
Qed.

(** Path compression: every key of the list is reassigned to the root,
    the deepest one first. *)
Fixpoint compress (m : table) (l : list address) (r : address) : table :=
  match l with
  | [] => m
  | a :: l' => Dict.set (compress m l' r) a r
  end.

Lemma follow_fuel_chain m a l r fuel :
  (forall x y, Dict.get m x = Some y -> truthy y = true) ->
  chain m a l r -> (length l < fuel)%nat ->
  follow_fuel fuel m a = Ok (r, compress m l r).
Proof.
  intros Htr H. revert fuel.
  induction H as [a Ha|a b l r Ha Hne H IH]; intros fuel Hfuel.
  - destruct fuel as [|n]; [simpl in Hfuel; lia|]. simpl.
    rewrite Ha. rewrite (Htr _ _ Ha). by rewrite decide_True.
  - destruct fuel as [|n]; [simpl in Hfuel; lia|]. simpl.
    rewrite Ha. rewrite (Htr _ _ Ha). rewrite decide_False by done.
    rewrite IH by (simpl in Hfuel; lia). done.
Qed.

(** More fuel never changes a result. *)
Lemma follow_fuel_more fuel m a x k :
  follow_fuel fuel m a = Ok x -> follow_fuel (fuel + k) m a = Ok x.
Proof.
  revert a x. induction fuel as [|n IH]; intros a x; [done|]. simpl.
  destruct (Dict.get m a) as [b|]; [|done].
  destruct (truthy b); [|done].
  destruct (decide (a = b)); [done|].
  destruct (follow_fuel n m b) as [[res m']|e] eqn:Hf; [|done].
  by rewrite (IH _ _ Hf).
Qed.

(** The fuel of [follow] is enough for every key of a well-formed table. *)
Lemma follow_fuel_enough m a l r :
  wf m -> chain m a l r -> follow m a = Ok (r, compress m l r).
Proof.
  intros Hwf H. unfold follow. apply follow_fuel_chain; [apply Hwf|done|].
  apply chain_length in H. lia.
Qed.

Lemma follow_not_key m a : Dict.get m a = None -> follow m a = Ok (a, m).
Proof. intros H. unfold follow. simpl. by rewrite H. Qed.

(** *** Reassigning one key *)

(** The general step: [k] is redirected to [v], whose root in the new
    table is [t]. A walk of the old table either avoids [k] and is kept, or
    went through [k] and now ends at [t]. *)
Lemma root_of_set_fwd m k v t x s :
  k <> v -> root_of (Dict.set m k v) v t -> root_of m x s ->
  root_of (Dict.set m k v) x s \/ (root_of m k s /\ root_of (Dict.set m k v) x t).
Proof.
  intros Hkv Hv. induction 1 as [a Ha|a b r Ha Hne H IH].
  - destruct (decide (a = k)) as [->|Hak].
    + right. split; [by constructor|].
      eapply root_step; [apply Dict.get_set_eq|done|done].
    + left. apply root_self. by rewrite Dict.get_set_ne.
  - destruct (decide (a = k)) as [->|Hak].
    + right. split; [by econstructor|].
      eapply root_step; [apply Dict.get_set_eq|done|done].
    + destruct IH as [IH|[IH1 IH2]].
      * left. eapply root_step; [by rewrite Dict.get_set_ne|done|done].
      * right. split; [done|].
        eapply root_step; [by rewrite Dict.get_set_ne|done|done].
Qed.

(** A key that is not in the table is on no walk. *)
Lemma root_of_set_fresh m k v x s :
  Dict.get m k = None -> root_of m x s -> root_of (Dict.set m k v) x s.
Proof.
  intros Hk. induction 1 as [a Ha|a b r Ha Hne H IH].
  - apply root_self. rewrite Dict.get_set_ne; [done|congruence].
  - eapply root_step; [|done|done]. rewrite Dict.get_set_ne; [done|congruence].
Qed.

Lemma wf_root_truthy m r : wf m -> Dict.get m r = Some r -> truthy r = true.
Proof. intros Hwf Hr. by eapply wf_truthy. Qed.

(** [wf] from a forward map of the walks. *)
Lemma wf_set m k v :
  wf m -> truthy v = true ->
  (exists r, root_of (Dict.set m k v) k r) ->
  (forall x s, root_of m x s -> exists s', root_of (Dict.set m k v) x s') ->
  wf (Dict.set m k v).
Proof.
  intros Hwf Hv Hk Hfwd. split.
  - apply Dict.NoDup_keys_set, Hwf.
  - intros a b. rewrite Dict.get_set. case_decide; [congruence|].
    apply Hwf.
  - intros a b. rewrite Dict.get_set. case_decide as Hak; [by subst|].
    intros Ha. destruct (wf_rooted _ Hwf _ _ Ha) as [r Hr]. eauto.
Qed.

(** Compressing one key onto its root keeps every walk's end. *)
Lemma compress1 m k r :
  wf m -> root_of m k r ->
  wf (Dict.set m k r) /\
  Dict.keys (Dict.set m k r) = Dict.keys m /\
  (forall x s, root_of m x s -> root_of (Dict.set m k r) x s).
Proof.
  intros Hwf Hk.
  assert (Dict.keys (Dict.set m k r) = Dict.keys m) as Hkeys.
  { apply Dict.keys_set_in. apply root_of_key in Hk as [v Hv].
    by eapply Dict.get_Some_keys. }
  destruct (decide (k = r)) as [->|Hne].
  { rewrite Dict.set_same by (by eapply root_of_root). done. }
  assert (root_of (Dict.set m k r) r r) as Hr.
  { apply root_self. rewrite Dict.get_set_ne by done. by eapply root_of_root. }
  assert (forall x s, root_of m x s -> root_of (Dict.set m k r) x s) as Hfwd.
  { intros x s Hx.
    destruct (root_of_set_fwd m k r r x s Hne Hr Hx) as [?|[Hks ?]]; [done|].
    by rewrite (root_det _ _ _ _ Hks Hk). }
  split; [|done].
  apply wf_set; [done| |eauto|eauto].
  eapply wf_root_truthy; [done|]. by eapply root_of_root.
Qed.

(** A new key that represents itself. *)
Lemma add_root m a :
  wf m -> Dict.get m a = None -> truthy a = true ->
  wf (Dict.set m a a) /\
  root_of (Dict.set m a a) a a /\
  (forall x s, root_of m x s -> root_of (Dict.set m a a) x s).
Proof.
  intros Hwf Ha Htr.
  assert (root_of (Dict.set m a a) a a) as Hr
    by (apply root_self, Dict.get_set_eq).
  assert (forall x s, root_of m x s -> root_of (Dict.set m a a) x s) as Hfwd
    by (intros; by apply root_of_set_fresh).
  split; [|done]. apply wf_set; eauto.
Qed.

(** A root, or a new key, [k] is put under the root [r]. *)
Lemma attach m k r :
  wf m -> root_of m r r ->
  (Dict.get m k = None \/ Dict.get m k = Some k) ->
  wf (Dict.set m k r) /\
  root_of (Dict.set m k r) r r /\
  root_of (Dict.set m k r) k r /\
  (forall x s, root_of m x s ->
     root_of (Dict.set m k r) x s \/ (s = k /\ root_of (Dict.set m k r) x r)).
Proof.
  intros Hwf Hr Hk.
  destruct (decide (k = r)) as [->|Hne].
  { rewrite Dict.set_same by (by eapply root_of_root). eauto. }
  assert (root_of (Dict.set m k r) r r) as Hr'.
  { apply root_self. rewrite Dict.get_set_ne by done. by eapply root_of_root. }
  assert (root_of (Dict.set m k r) k r) as Hk'.
  { eapply root_step; [apply Dict.get_set_eq|done|done]. }
  assert (forall x s, root_of m x s ->
     root_of (Dict.set m k r) x s \/ (s = k /\ root_of (Dict.set m k r) x r))
    as Hfwd.
  { intros x s Hx. destruct Hk as [Hk|Hk].
    - left. by apply root_of_set_fresh.
    - destruct (root_of_set_fwd m k r r x s Hne Hr' Hx) as [?|[Hks ?]]; [by left|].
      right. split; [|done].
      eapply root_det; [apply Hks|by apply root_self]. }
  split; [|done].
  apply wf_set; [done| |eauto|].
  - eapply wf_root_truthy; [done|]. by eapply root_of_root.
  - intros x s Hx. destruct (Hfwd x s Hx) as [?|[_ ?]]; eauto.
Qed.

(** *** [follow] on a well-formed table *)

Lemma compress_spec m a l r :
  wf m -> chain m a l r ->
  wf (compress m l r) /\
  Dict.keys (compress m l r) = Dict.keys m /\
  (forall x s, root_of m x s -> root_of (compress m l r) x s) /\
  (forall x v, Dict.get (compress m l r) x = Some v ->
     Dict.get m x = Some v \/ (v = r /\ root_of m x r)).
Proof.
  intros Hwf. induction 1 as [a Ha|a b l r Ha Hne H IH]; simpl.
  - split; [done|]. split; [done|]. split; [done|]. intros; by left.
  - destruct IH as (Hwf' & Hkeys & Hfwd & Hval).
    assert (root_of m a r) as Har.
    { eapply root_step; [done|done|]. by eapply chain_root_of. }
    destruct (compress1 (compress m l r) a r Hwf' (Hfwd _ _ Har))
      as (Hwf'' & Hkeys' & Hfwd').
    split; [done|]. split; [congruence|]. split; [eauto|].
    intros x v. rewrite Dict.get_set. case_decide as Hx.
    + subst x. intros [= <-]. by right.
    + apply Hval.
Qed.

(** What [follow] does on a well-formed table, for any address. *)
Lemma follow_spec m a :
  wf m ->
  exists r m',
    follow m a = Ok (r, m') /\
    wf m' /\
    Dict.keys m' = Dict.keys m /\
    (forall x s, root_of m x s -> root_of m' x s) /\
    (forall x v, Dict.get m' x = Some v ->
       Dict.get m x = Some v \/ root_of m x v) /\
    ((root_of m a r /\ Dict.get m' a = Some r) \/
     (Dict.get m a = None /\ r = a /\ m' = m)).
Proof.
  intros Hwf. destruct (Dict.get m a) as [b|] eqn:Ha.
  - destruct (wf_rooted _ Hwf _ _ Ha) as [r Hr].
    destruct (root_of_chain _ _ _ Hr) as [l Hl].
    destruct (compress_spec _ _ _ _ Hwf Hl) as (Hwf' & Hkeys & Hfwd & Hval).
    exists r, (compress m l r).
    split; [by apply follow_fuel_enough|].
    split; [done|]. split; [done|]. split; [done|].
    split.
    { intros x v Hx. destruct (Hval _ _ Hx) as [?|[-> ?]]; auto. }
    left. split; [done|].
    destruct Hl as [a Ha'|a b' l r Ha' Hne Hl]; simpl.
    + done.
    + apply Dict.get_set_eq.
  - exists a, m. split; [by apply follow_not_key|].
    split; [done|]. split; [done|]. split; [done|].
    split; [by left|]. by right.
Qed.

(** Walks are kept in both directions when they are kept forwards and the
    keys are the same. *)
Lemma roots_back m m' :
  wf m -> (forall x, is_Some (Dict.get m' x) -> is_Some (Dict.get m x)) ->
  (forall x s, root_of m x s -> root_of m' x s) ->
  forall x s, root_of m' x s -> root_of m x s.
Proof.
  intros Hwf Hkeys Hfwd x s Hx.
  destruct (Hkeys x (root_of_key _ _ _ Hx)) as [v Hv].
  destruct (wf_rooted _ Hwf _ _ Hv) as [s0 Hs0].
  by rewrite (root_det _ _ _ _ Hx (Hfwd _ _ Hs0)).
Qed.

Lemma keys_is_Some (m m' : table) :
  Dict.keys m' = Dict.keys m ->
  forall x, is_Some (Dict.get m' x) -> is_Some (Dict.get m x).
Proof.
  intros Hk x [v Hv]. apply Dict.keys_get_Some. rewrite <- Hk.
  by eapply Dict.get_Some_keys.
Qed.

Lemma wf_ext m m' :
  wf m -> (forall x, Dict.get m x = Dict.get m' x) -> NoDup (Dict.keys m') -> wf m'.
Proof.
  intros Hwf Hext Hnd. split; [done| |].
  - intros a b. rewrite <- Hext. apply Hwf.
  - intros a b. rewrite <- Hext. intros Ha.
    destruct (wf_rooted _ Hwf _ _ Ha) as [r Hr]. exists r.
    by eapply root_of_ext.
Qed.

(** *** [equiv] on a well-formed table

    [ar] and [br] are what the two calls of [follow] return. Afterwards
    [a], [b] and [br] lead to [ar], and every other walk ends where it did,
    except that the walks that ended at [br] now end at [ar]. *)
Lemma equiv_reps_spec m a b :
  wf m -> truthy a = true ->
  exists m' ar br,
    equiv_reps m a b = Ok m' /\
    wf m' /\
    (root_of m a ar \/ (Dict.get m a = None /\ ar = a)) /\
    (root_of m b br \/ (Dict.get m b = None /\ br = b)) /\
    root_of m' a ar /\ root_of m' b ar /\
    (forall x s, root_of m x s ->
       root_of m' x (if decide (s = br) then ar else s)) /\
    (forall x, is_Some (Dict.get m' x) ->
       is_Some (Dict.get m x) \/ x = a \/ x = b).
Proof.
  intros Hwf Htra.
  destruct (follow_spec m a Hwf)
    as (ar & m1 & Hf1 & Hwf1 & Hk1 & Hfwd1 & _ & HA).
  destruct (follow_spec m1 b Hwf1)
    as (br & m2 & Hf2 & Hwf2 & Hk2 & Hfwd2 & _ & HB).
  exists (Dict.set (Dict.set (Dict.set m2 a ar) b ar) br ar), ar, br.
  split. { unfold equiv_reps. by rewrite Hf1, Hf2. }
  (* the two addresses, seen from the table [m2] *)
  assert (root_of m2 a ar \/ (Dict.get m2 a = None /\ ar = a)) as HA2.
  { destruct HA as [[HA _]|(HA & -> & ->)]; [left; auto|right].
    split; [|done]. apply Dict.get_None_keys. rewrite Hk2.
    by apply Dict.get_None_keys. }
  assert (root_of m2 b br \/ (Dict.get m2 b = None /\ br = b)) as HB2.
  { destruct HB as [[HB _]|(HB & -> & ->)]; [left; auto|by right]. }
  assert (root_of m b br \/ (Dict.get m b = None /\ br = b)) as HB0.
  { destruct HB as [[HB _]|(HB & -> & ->)].
    - left. eapply roots_back; [apply Hwf|by apply keys_is_Some|done|done].
    - right. split; [|done]. apply Dict.get_None_keys. rewrite <- Hk1.
      by apply Dict.get_None_keys. }
  assert (forall x, is_Some (Dict.get m2 x) -> is_Some (Dict.get m x)) as Hkeys.
  { intros x Hx. apply (keys_is_Some m m1); [done|].
    by apply (keys_is_Some m1 m2). }
  (* first assignment: [a] is compressed onto its root, or becomes a root *)
  set (m3 := Dict.set m2 a ar).
  assert (wf m3 /\ root_of m3 a ar /\
          forall x s, root_of m2 x s -> root_of m3 x s) as (Hwf3 & Ha3 & Hfwd3).
  { destruct HA2 as [HA2|[HA2 ->]].
    - destruct (compress1 m2 a ar Hwf2 HA2) as (? & _ & ?). auto.
    - destruct (add_root m2 a Hwf2 HA2 Htra) as (? & ? & ?). auto. }
  assert (root_of m3 b br \/ (Dict.get m3 b = None /\ br = b)) as HB3.
  { destruct HB2 as [HB2|[HB2 ->]]; [left; auto|].
    destruct (decide (b = a)) as [->|Hba].
    - left. destruct HA2 as [HA2|[_ ->]]; [|done].
      apply root_of_key in HA2 as [? ?]. congruence.
    - right. split; [|done]. unfold m3. by rewrite Dict.get_set_ne. }
  (* the root [br], or the new key [b], is put under [ar] *)
  set (m4 := Dict.set m3 br ar).
  assert (root_of m3 ar ar) as Har3
    by (apply root_self; by eapply root_of_root).
  destruct (attach m3 br ar Hwf3 Har3) as (Hwf4 & Har4 & Hbr4 & Hfwd4).
  { destruct HB3 as [HB3|[HB3 ->]]; [right; by eapply root_of_root|by left]. }
  fold m4 in Hwf4, Har4, Hbr4, Hfwd4.
  assert (forall x s, root_of m3 x s ->
            root_of m4 x (if decide (s = br) then ar else s)) as Hfwd4'.
  { intros x s Hx. destruct (Hfwd4 x s Hx) as [Hl|[-> Hr]].
    - case_decide as Hs; [|done]. subst s.
      assert (br = ar) as ->; [|done].
      eapply root_det; [|apply Hbr4]. apply root_self. by eapply root_of_root.
    - by rewrite decide_True. }
  assert (root_of m4 b ar) as Hb4.
  { destruct HB3 as [HB3|[_ ->]]; [|done].
    specialize (Hfwd4' _ _ HB3). by rewrite decide_True in Hfwd4'. }
  (* [b] is compressed onto [ar] *)
  destruct (compress1 m4 b ar Hwf4 Hb4) as (Hwf5 & _ & Hfwd5).
  set (m5 := Dict.set m4 b ar) in *.
  set (m' := Dict.set (Dict.set m3 b ar) br ar).
  assert (forall x, Dict.get m5 x = Dict.get m' x) as Hext.
  { intros x. unfold m5, m4, m'. rewrite !Dict.get_set.
    repeat case_decide; done. }
  assert (forall x s, root_of m5 x s -> root_of m' x s) as Hto
    by (intros; by eapply root_of_ext).
  split.
  { eapply wf_ext; [apply Hwf5|done|].
    unfold m'. do 2 apply Dict.NoDup_keys_set. apply Hwf3. }
  split. { destruct HA as [[HA _]|(HA & -> & ->)]; auto. }
  split; [done|].
  split.
  { apply Hto, Hfwd5. specialize (Hfwd4' _ _ Ha3). by case_decide. }
  split; [by apply Hto, Hfwd5|].
  split.
  { intros x s Hx. by apply Hto, Hfwd5, Hfwd4', Hfwd3, Hfwd2, Hfwd1. }
  intros x. unfold m', m3. rewrite !Dict.get_set.
  repeat case_decide; subst; intros Hx; auto.
  destruct HB2 as [HB2|[_ ->]]; [|auto].
  left. apply Hkeys. apply root_of_root in HB2. by eexists.
Qed.

(** *** The partition of the declared pairs *)

(** [conn ps a b]: the addresses are linked by a chain of declared pairs. *)
Inductive conn (ps : list (address * address)) : address -> address -> Prop :=
| conn_pair a b : (a, b) ∈ ps -> conn ps a b
| conn_sym a b : conn ps a b -> conn ps b a
| conn_trans a b c : conn ps a b -> conn ps b c -> conn ps a c.

Definition same (m : table) (a b : address) : Prop :=
  exists r, root_of m a r /\ root_of m b r.

Definition inv (ps : list (address * address)) (m : table) : Prop :=
  wf m /\ forall a b, same m a b <-> conn ps a b.

Lemma conn_mono ps ps' a b :
  (forall p, p ∈ ps -> p ∈ ps') -> conn ps a b -> conn ps' a b.
Proof.
  intros Hsub. induction 1.
  - apply conn_pair. auto.
  - by apply conn_sym.
  - by eapply conn_trans.
Qed.

Lemma same_sym m a b : same m a b -> same m b a.
Proof. intros (r & ? & ?). by exists r. Qed.

Lemma same_trans m a b c : same m a b -> same m b c -> same m a c.
Proof.
  intros (r & Ha & Hb) (r' & Hb' & Hc).
  rewrite <- (root_det _ _ _ _ Hb Hb') in Hc. by exists r.
Qed.

Lemma wf_empty : wf [].
Proof.
  split; [constructor| |]; intros a b; simpl; done.
Qed.

Lemma inv_empty : inv [] [].
Proof.
  split; [apply wf_empty|]. intros a b. split.
  - intros (r & Ha & _). apply root_of_key in Ha as [? ?]. done.
  - induction 1 as [a b H| |]; [by apply elem_of_nil in H|by apply same_sym|].
    by eapply same_trans.
Qed.

Lemma inv_step ps m a b :
  inv ps m -> truthy a = true ->
  exists m', equiv_reps m a b = Ok m' /\ inv (ps ++ [(a, b)]) m'.
Proof.
  intros [Hwf Hinv] Htra.
  destruct (equiv_reps_spec m a b Hwf Htra)
    as (m' & ar & br & Heq & Hwf' & HA & HB & Ha' & Hb' & Hfwd & Hkeys).
  exists m'. split; [done|]. split; [done|].
  set (ps' := ps ++ [(a, b)]).
  assert (forall x y, conn ps x y -> conn ps' x y) as Hmono.
  { intros x y. apply conn_mono. intros p Hp. apply elem_of_app. by left. }
  assert (conn ps' a b) as Hab.
  { apply conn_pair, elem_of_app. right. by apply list_elem_of_singleton. }
  assert (forall x, root_of m x ar -> conn ps' x a) as Hxar.
  { intros x Hx. destruct HA as [HA|[HA ->]].
    - apply Hmono, Hinv. by exists ar.
    - apply root_of_root in Hx. congruence. }
  assert (forall x, root_of m x br -> conn ps' x b) as Hxbr.
  { intros x Hx. destruct HB as [HB|[HB ->]].
    - apply Hmono, Hinv. by exists br.
    - apply root_of_root in Hx. congruence. }
  (* every key that leads to [ar] is linked to [a] *)
  assert (forall x t, root_of m' x t -> root_of m x t \/ (t = ar /\ conn ps' x a))
    as Hback.
  { intros x t Hx.
    destruct (Hkeys x (root_of_key _ _ _ Hx)) as [[v Hv]|[->| ->]].
    - destruct (wf_rooted _ Hwf _ _ Hv) as [s0 Hs0].
      pose proof (Hfwd _ _ Hs0) as Hx'.
      case_decide as Hs; [subst s0|].
      + right. split; [by eapply root_det|].
        eapply conn_trans; [by apply Hxbr|by apply conn_sym].
      + left. by rewrite (root_det _ _ _ _ Hx Hx').
    - right. split; [by eapply root_det|].
      eapply conn_trans; [apply Hab|by apply conn_sym].
    - right. split; [by eapply root_det|]. by apply conn_sym. }
  intros x y. split.
  - intros (t & Hx & Hy).
    assert (forall z, root_of m' z t -> t = ar -> conn ps' z a) as Hz.
    { intros z Hz ->. destruct (Hback _ _ Hz) as [?|[_ ?]]; auto. }
    destruct (decide (t = ar)) as [Ht|Ht].
    + eapply conn_trans; [by apply Hz|apply conn_sym; by apply Hz].
    + destruct (Hback _ _ Hx) as [Hx0|[? _]]; [|done].
      destruct (Hback _ _ Hy) as [Hy0|[? _]]; [|done].
      apply Hmono, Hinv. by exists t.
  - induction 1 as [x y Hp|x y _ IH|x y z _ IH1 _ IH2].
    + apply elem_of_app in Hp as [Hp|Hp].
      * assert (same m x y) as (s & Hx & Hy) by (apply Hinv; by apply conn_pair).
        eexists. split; by apply Hfwd.
      * apply list_elem_of_singleton in Hp as [= -> ->]. by exists ar.
    + by apply same_sym.
    + by eapply same_trans.
Qed.

(** A whole sequence of declarations. *)
Lemma inv_seq ps0 m ps :
  inv ps0 m -> Forall (fun p => truthy p.1 = true) ps ->
  exists m', equiv_seq m ps = Ok m' /\ inv (ps0 ++ ps) m'.
Proof.
  intros Hinv Hps. revert ps0 m Hinv.
  induction Hps as [|[a b] ps Hab Hps IH]; intros ps0 m Hinv.
  - exists m. rewrite app_nil_r. done.
  - simpl in Hab.
    destruct (inv_step ps0 m a b Hinv Hab) as (m1 & Heq & Hinv1).
    destruct (IH _ _ Hinv1) as (m' & Hseq & Hinv').
    exists m'. simpl. rewrite Heq. split; [done|].
    by rewrite <- app_assoc in Hinv'.
Qed.

(** *** [groups] *)

Lemma follow_all_spec m ks :
  wf m -> (forall k, k ∈ ks -> k ∈ Dict.keys m) ->
  exists m',
    follow_all m ks = Ok m' /\
    wf m' /\
    Dict.keys m' = Dict.keys m /\
    (forall x s, root_of m x s -> root_of m' x s) /\
    (forall x v, Dict.get m' x = Some v ->
       Dict.get m x = Some v \/ root_of m x v) /\
    (forall k v, k ∈ ks -> Dict.get m' k = Some v -> root_of m k v).
Proof.
  revert m. induction ks as [|k ks IH]; intros m Hwf Hks.
  - exists m. simpl. split; [done|]. split; [done|]. split; [done|].
    split; [done|]. split; [by left|]. intros k v Hk. by apply elem_of_nil in Hk.
  - destruct (follow_spec m k Hwf)
      as (r & m1 & Hf & Hwf1 & Hk1 & Hfwd1 & Hval1 & Hk).
    destruct (IH m1 Hwf1) as (m' & Hfa & Hwf' & Hk' & Hfwd' & Hval' & Hdir').
    { intros k' Hk'. rewrite Hk1. apply Hks, elem_of_cons. by right. }
    assert (forall x s, root_of m1 x s -> root_of m x s) as Hback1.
    { eapply roots_back; [done|by apply keys_is_Some|done]. }
    exists m'. simpl. rewrite Hf. split; [done|]. split; [done|].
    split; [congruence|]. split; [auto|].
    assert (forall x v, Dict.get m' x = Some v ->
              Dict.get m x = Some v \/ root_of m x v) as Hval.
    { intros x v Hx. destruct (Hval' _ _ Hx) as [Hx1|Hx1]; [|auto]. auto. }
    split; [done|].
    intros k' v Hin Hget. apply elem_of_cons in Hin as [->|Hin]; [|auto].
    destruct Hk as [[Hr Hg]|(Hnone & _ & _)].
    + destruct (Hval' _ _ Hget) as [Hx1|Hx1].
      * assert (v = r) as -> by congruence. done.
      * by apply Hback1.
    + assert (k ∈ Dict.keys m) as Hin by (apply Hks, elem_of_cons; by left).
      apply Dict.keys_get_Some in Hin as [? ?]. congruence.
Qed.

Definition members (g : dict address (gset address)) (r x : address) : Prop :=
  exists s, Dict.get g r = Some s /\ x ∈ s.

Lemma bucket_add_members g v k r x :
  members (bucket_add g v k) r x <-> members g r x \/ (r = v /\ x = k).
Proof.
  unfold members, bucket_add.
  destruct (Dict.get g v) as [s0|] eqn:Hv.
  - split.
    + intros (s & Hs & Hx). rewrite Dict.get_set in Hs.
      case_decide as Hr; [|eauto]. subst r. injection Hs as <-.
      apply elem_of_union in Hx as [Hx|Hx]; [eauto|].
      apply elem_of_singleton in Hx. auto.
    + intros [(s & Hs & Hx)|[-> ->]].
      * destruct (decide (r = v)) as [->|Hne].
        -- exists (s0 ∪ {[k]}). rewrite Dict.get_set_eq. split; [done|].
           assert (s = s0) as -> by congruence. set_solver.
        -- exists s. by rewrite Dict.get_set_ne.
      * exists (s0 ∪ {[k]}). rewrite Dict.get_set_eq. split; [done|]. set_solver.
  - split.
    + intros (s & Hs & Hx). rewrite Dict.get_set in Hs.
      case_decide as Hr; [|eauto]. subst r. injection Hs as <-.
      apply elem_of_singleton in Hx. auto.
    + intros [(s & Hs & Hx)|[-> ->]].
      * destruct (decide (r = v)) as [->|Hne]; [congruence|].
        exists s. by rewrite Dict.get_set_ne.
      * exists {[k]}. rewrite Dict.get_set_eq. split; [done|]. set_solver.
Qed.

Lemma bucket_members g items r x :
  members (bucket g items) r x <-> members g r x \/ (x, r) ∈ items.
Proof.
  revert g. induction items as [|[k v] items IH]; intros g; simpl.
  - split; [by left|]. intros [?|H]; [done|]. by apply elem_of_nil in H.
  - rewrite IH, bucket_add_members, elem_of_cons. split.
    + intros [[?|[-> ->]]|?]; auto.
    + intros [?|[[= -> ->]|?]]; auto.
Qed.

Lemma bucket_NoDup g items :
  NoDup (Dict.keys g) -> NoDup (Dict.keys (bucket g items)).
Proof.
  revert g. induction items as [|[k v] items IH]; intros g Hg; simpl; [done|].
  apply IH. unfold bucket_add. destruct (Dict.get g v); by apply Dict.NoDup_keys_set.
Qed.

Lemma bucket_inhabited g items :
  (forall r s, Dict.get g r = Some s -> exists x, x ∈ s) ->
  forall r s, Dict.get (bucket g items) r = Some s -> exists x, x ∈ s.
Proof.
  revert g. induction items as [|[k v] items IH]; intros g Hg; simpl; [done|].
  apply IH. intros r s. unfold bucket_add.
  destruct (Dict.get g v) as [s0|]; rewrite Dict.get_set.
  - case_decide; [|apply Hg]. intros [= <-]. exists k. set_solver.
  - case_decide; [|apply Hg]. intros [= <-]. exists k. set_solver.
Qed.

(** [groups] on a well-formed table: the buckets are the walks' ends. *)
Lemma groups_reps_spec m :
  wf m ->
  exists g m',
    groups_reps m = Ok (g, m') /\
    wf m' /\
    NoDup (Dict.keys g) /\
    (forall x s, root_of m x s <-> root_of m' x s) /\
    (forall r s, Dict.get g r = Some s -> exists x, x ∈ s) /\
    (forall r x, members g r x <-> root_of m x r).
Proof.
  intros Hwf.
  destruct (follow_all_spec m (Dict.keys m) Hwf)
    as (m' & Hfa & Hwf' & Hk' & Hfwd & _ & Hdir); [done|].
  exists (bucket [] m'), m'. unfold groups_reps. rewrite Hfa.
  split; [done|]. split; [done|].
  split; [apply bucket_NoDup; constructor|].
  split; [|split; [by apply bucket_inhabited|]].
  { intros x s. split; [auto|].
    eapply roots_back; [done|by apply keys_is_Some|done]. }
  intros r x. rewrite bucket_members. split.
  - intros [(s & Hs & _)|Hin]; [done|].
    apply Dict.elem_of_get in Hin; [|apply Hwf'].
    apply Hdir; [|done]. rewrite <- Hk'. by eapply Dict.get_Some_keys.
  - intros Hx. right. apply Dict.elem_of_get; [apply Hwf'|].
    destruct (root_of_key _ _ _ (Hfwd _ _ Hx)) as [v Hv].
    rewrite Hv. f_equal. eapply root_det; [|done].
    apply Hdir; [|done]. rewrite <- Hk'. by eapply Dict.get_Some_keys.
Qed.

(** [declared ps x]: the address occurs in a declared pair. *)
Definition declared (ps : list (address * address)) (x : address) : Prop :=
  exists p, p ∈ ps /\ (x = p.1 \/ x = p.2).

Lemma conn_declared ps a b : conn ps a b -> declared ps a /\ declared ps b.
Proof.
  induction 1 as [a b H|a b _ [? ?]|a b c _ [? ?] _ [? ?]]; [|done|done].
  split; exists (a, b); auto.
Qed.

Lemma declared_conn ps x : declared ps x -> conn ps x x.
Proof.
  intros ([a b] & Hp & [->| ->]); simpl.
  - eapply conn_trans; [by apply conn_pair|by apply conn_sym, conn_pair].
  - eapply conn_trans; [by apply conn_sym, conn_pair|by apply conn_pair].
Qed.

(** The classes of [groups()] after a sequence of declarations. *)
Lemma groups_after_equiv ps :
  Forall (fun p => truthy p.1 = true) ps ->
  exists m g m',
    equiv_seq [] ps = Ok m /\ groups_reps m = Ok (g, m') /\
    NoDup (Dict.keys g) /\
    (forall a b, (exists r, members g r a /\ members g r b) <-> conn ps a b) /\
    (forall r r' x, members g r x -> members g r' x -> r = r') /\
    (forall r s, Dict.get g r = Some s -> r ∈ s) /\
    (forall x, (exists r, members g r x) <-> declared ps x).
Proof.
  intros Hps.
  destruct (inv_seq [] [] ps inv_empty Hps) as (m & Hseq & Hwf & Hinv).
  simpl in Hinv.
  destruct (groups_reps_spec m Hwf) as (g & m' & Hg & _ & Hnd & _ & Hne & Hmem).
  exists m, g, m'. split; [done|]. split; [done|]. split; [done|].
  assert (forall a b, (exists r, members g r a /\ members g r b) <-> conn ps a b)
    as Hsame.
  { intros a b. rewrite <- Hinv. unfold same. split.
    - intros (r & Ha & Hb). exists r. by rewrite <- !Hmem.
    - intros (r & Ha & Hb). exists r. by rewrite !Hmem. }
  split; [done|]. split.
  { intros r r' x Hr Hr'. apply Hmem in Hr, Hr'. by eapply root_det. }
  split.
  { intros r s Hs. destruct (Hne _ _ Hs) as [x Hx].
    assert (members g r x) as Hrx by (by exists s).
    apply Hmem, root_of_root in Hrx.
    assert (members g r r) as (s' & Hs' & Hr) by (by apply Hmem, root_self).
    congruence. }
  intros x. split.
  - intros [r Hr]. apply (conn_declared ps x x), Hsame. eauto.
  - intros Hx. apply declared_conn, Hsame in Hx as (r & Hr & _). eauto.
Qed.

Lemma NoDup_all_eq {A} (l : list A) (x : A) :
  NoDup l -> x ∈ l -> (forall y, y ∈ l -> y = x) -> l = [x].
Proof.
  intros Hnd Hx Hall. destruct l as [|y l]; [by apply elem_of_nil in Hx|].
  assert (y = x) as -> by (apply Hall, elem_of_cons; by left).
  destruct l as [|z l]; [done|].
  assert (z = x) as ->.
  { apply Hall, elem_of_cons. right. apply elem_of_cons. by left. }
  apply NoDup_cons in Hnd as [Hnd _]. exfalso. apply Hnd, elem_of_cons. by left.
Qed.

Lemma dict_single {V} (g : dict address V) r :
  Dict.keys g = [r] -> exists s, g = [(r, s)].
Proof.
  destruct g as [|[k s] [|? ?]]; simpl; intros [= ->]. by exists s.
Qed.

(** C5. After any sequence of [equiv] calls whose first arguments are
    non-empty addresses, [groups()] returns and its classes are the
    partition of the declared addresses induced by the declared pairs: every
    representative is listed once and belongs to its class, no address is in
    two classes, the classes cover exactly the declared addresses, and two
    addresses are in one class if and only if a chain of declared pairs
    links them. In particular declaring [(a,b)] then [(b,c)] gives the single
    class [{a,b,c}]. *)
Theorem groups_transitive_closure (ps : list (address * address)) :
  Forall (fun p => truthy p.1 = true) ps ->
  exists m g m',
    equiv_seq [] ps = Ok m /\ groups_reps m = Ok (g, m') /\
    NoDup (Dict.keys g) /\
    (forall a b, (exists r, members g r a /\ members g r b) <-> conn ps a b) /\
    (forall r r' x, members g r x -> members g r' x -> r = r') /\
    (forall r s, Dict.get g r = Some s -> r ∈ s) /\
    (forall x, (exists r, members g r x) <-> declared ps x) /\
    (forall a b c, ps = [(a, b); (b, c)] ->
       exists r s, g = [(r, s)] /\ forall x, x ∈ s <-> x = a \/ x = b \/ x = c).
Proof.
  intros Hps.
  destruct (groups_after_equiv ps Hps)
    as (m & g & m' & Hseq & Hg & Hnd & Hsame & Hdisj & Hrep & Hdecl).
  exists m, g, m'. do 7 (split; [done|]).
  intros a b c ->.
  set (ps := [(a, b); (b, c)]) in *.
  assert (conn ps a b) as Hab by (apply conn_pair; repeat constructor).
  assert (conn ps b c) as Hbc by (apply conn_pair; repeat constructor).
  assert (forall x, declared ps x <-> x = a \/ x = b \/ x = c) as Hd.
  { intros x. unfold declared, ps. split.
    - intros ([u v] & Hp & Hx). simpl in Hx.
      apply elem_of_cons in Hp as [[= -> ->]|Hp]; [tauto|].
      apply list_elem_of_singleton in Hp as [= -> ->]. tauto.
    - intros [->|[->| ->]].
      + exists (a, b). split; [repeat constructor|by left].
      + exists (a, b). split; [repeat constructor|by right].
      + exists (b, c). split; [repeat constructor|by right]. }
  assert (forall x, declared ps x -> conn ps x a) as Hxa.
  { intros x Hx. apply Hd in Hx as [->|[->| ->]].
    - eapply conn_trans; [apply Hab|by apply conn_sym].
    - by apply conn_sym.
    - apply conn_sym. by eapply conn_trans. }
  assert (exists ra, members g ra a) as [ra Hra].
  { apply Hdecl, Hd. by left. }
  assert (forall r x, members g r x -> r = ra) as Hall.
  { intros r x Hr.
    assert (conn ps x a) as Hc by (apply Hxa, Hdecl; eauto).
    apply Hsame in Hc as (r0 & Hx0 & Ha0).
    rewrite (Hdisj _ _ _ Hr Hx0). by eapply Hdisj. }
  assert (Dict.keys g = [ra]) as Hkeys.
  { apply NoDup_all_eq; [done| |].
    - destruct Hra as (s & Hs & _). by eapply Dict.get_Some_keys.
    - intros r Hr. apply Dict.keys_get_Some in Hr as [s Hs].
      apply (Hall r r). exists s. eauto. }
  destruct (dict_single g ra Hkeys) as [s ->].
  exists ra, s. split; [done|]. intros x. rewrite <- Hd, <- Hdecl. split.
  - intros Hx. exists ra, s. simpl. by rewrite decide_True.
  - intros (r & s' & Hs' & Hx). simpl in Hs'. case_decide; [|done]. congruence.
Qed.

Lemma groups_transitive_closure_witness :
  exists m g m',
    equiv_seq [] [([1], [2]); ([2], [3])] = Ok m /\
    groups_reps m = Ok (g, m') /\
    exists r s, g = [(r, s)] /\ forall x, x ∈ s <-> x = [1] \/ x = [2] \/ x = [3].
Proof.
  destruct (groups_transitive_closure [([1], [2]); ([2], [3])])
    as (m & g & m' & H1 & H2 & _ & _ & _ & _ & _ & H3).
  - repeat constructor.
  - exists m, g, m'. split; [exact H1|]. split; [exact H2|].
    apply (H3 [1] [2] [3]). reflexivity.
Defined.

(** *** Iterating the structure *)




(** Every representative has a label and a class to build its directive. *)
Definition registered (eg : t) (ks : list address) : Prop :=
  forall k, k ∈ ks ->
    exists nm cls, Dict.get (names eg) k = Some nm /\
                   Dict.get (classes eg) k = Some (Some cls).


(** The invariant of a structure that is filled through [equiv_all]. *)
Definition eg_inv (eg : t) : Prop :=
  wf (representatives eg) /\ registered eg (Dict.keys (representatives eg)).

Lemma equiv_loop_spec m a rest :
  wf m -> truthy a = true ->
  exists m',
    equiv_loop m a rest = Ok m' /\ wf m' /\
    (forall x, x ∈ Dict.keys m' -> x ∈ Dict.keys m \/ x ∈ a :: rest).
Proof.
  intros Hwf Ha. revert m Hwf. induction rest as [|b rest IH]; intros m Hwf.
  - exists m. simpl. auto.
  - destruct (equiv_reps_spec m a b Hwf Ha)
      as (m1 & ar & br & Heq & Hwf1 & _ & _ & _ & _ & _ & Hkeys).
    destruct (IH m1 Hwf1) as (m' & Hloop & Hwf' & Hkeys').
    exists m'. simpl. rewrite Heq. split; [done|]. split; [done|].
    intros x Hx. destruct (Hkeys' x Hx) as [Hx1|Hx1].
    + apply Dict.keys_get_Some, Hkeys in Hx1 as [Hx1|[->| ->]].
      * left. destruct Hx1 as [v Hv]. by eapply Dict.get_Some_keys.
      * right. apply elem_of_cons. by left.
      * right. apply elem_of_cons. right. apply elem_of_cons. by left.
    + right. apply elem_of_cons in Hx1 as [->|Hx1]; apply elem_of_cons; auto.
      right. apply elem_of_cons. by right.
Qed.

Lemma register_spec nm cl ids cls under nm' cl' :
  register nm cl ids cls under = (nm', cl') ->
  forall x,
    (x ∈ ids -> Dict.get nm' x = Some under /\ Dict.get cl' x = Some cls) /\
    (x ∉ ids -> Dict.get nm' x = Dict.get nm x /\ Dict.get cl' x = Dict.get cl x).
Proof.
  revert nm cl. induction ids as [|y ids IH]; intros nm cl; simpl.
  - intros [= <- <-] x. split; [intros H; by apply elem_of_nil in H|done].
  - intros Hreg x. destruct (IH _ _ Hreg x) as [Hin Hnin]. split.
    + intros Hx. destruct (decide (x ∈ ids)) as [Hx'|Hx']; [auto|].
      apply elem_of_cons in Hx as [->|Hx]; [|done].
      destruct (Hnin Hx') as [-> ->]. by rewrite !Dict.get_set_eq.
    + intros Hx. apply not_elem_of_cons in Hx as [Hne Hx].
      destruct (Hnin Hx) as [-> ->]. by rewrite !Dict.get_set_ne.
Qed.

Lemma equiv_all_inv eg ids cls under :
  eg_inv eg -> Forall (fun x => truthy x = true) ids ->
  exists eg', equiv_all eg ids (Some cls) under = Ok eg' /\ eg_inv eg'.
Proof.
  intros [Hwf Hreg] Hids. destruct ids as [|a rest].
  - exists eg. done.
  - apply Forall_cons in Hids as Hids'. destruct Hids' as [Ha _].
    destruct (equiv_loop_spec (representatives eg) a rest Hwf Ha)
      as (m' & Hloop & Hwf' & Hkeys).
    unfold equiv_all. rewrite Hloop.
    destruct (register (names eg) (classes eg) (a :: rest) (Some cls) under)
      as [nm' cl'] eqn:Hr.
    eexists. split; [done|]. split; [done|].
    intros k Hk. simpl in Hk |- *.
    pose proof (register_spec _ _ _ _ _ _ _ Hr k) as [Hin Hnin].
    destruct (decide (k ∈ a :: rest)) as [Hk'|Hk'].
    + destruct (Hin Hk') as [-> ->]. eauto.
    + destruct (Hnin Hk') as [-> ->]. apply Hreg.
      destruct (Hkeys k Hk); done.
Qed.

Lemma equiv_all_seq_inv eg calls :
  eg_inv eg ->
  Forall (fun c => Forall (fun x => truthy x = true) c.1.1) calls ->
  exists eg', equiv_all_seq eg calls = Ok eg' /\ eg_inv eg'.
Proof.
  intros Hinv Hcalls. revert eg Hinv.
  induction Hcalls as [|[[ids cls] under] calls Hc _ IH]; intros eg Hinv.
  - by exists eg.
  - destruct (equiv_all_inv eg ids cls under Hinv Hc) as (eg1 & Heq & Hinv1).
    destruct (IH eg1 Hinv1) as (eg' & Hseq & Hinv').
    exists eg'. simpl. by rewrite Heq.
Qed.



Lemma wf_init : eg_inv init.
Proof.
  split; [apply wf_empty|]. intros k Hk. by apply elem_of_nil in Hk.
Qed.

(** *** The classes that [equiv_all] declares *)












(** A class with a single member comes from a repeated id; the iterator
    then fails on its assertion and yields nothing for it. *)
Example iter_single_member :
  match equiv_all init [[7]; [7]] (Some "Author") None with
  | Ok eg => fst (iter eg) = ([], Raise AssertionError)
  | Raise _ => False
  end.
Proof. vm_compute. reflexivity. Qed.

Example iter_two_classes :
  match equiv_all_seq init
          [([[1]; [2]], "Author", Some "a"); ([[3]; [4]; [5]], "Paper", None)] with
  | Ok eg =>
      (fun '(ys, r, _) =>
         (map (fun y => (fst y, elements (directive_ids (snd y)))) ys, r))
        (iter eg)
      = ([((2%nat, Some "a"), [[1]; [2]]);
          ((3%nat, None), [[3]; [5]; [4]])], Ok tt)
  | Raise _ => False
  end.
Proof. vm_compute. reflexivity. Qed.

End UnionFind.

(** ** The entities read by db/database.py

    [sources/model.py] is not among the sources: the entity classes are
    declared here with the fields that [Database._acquire] reads. *)

(** The result of [hashid()]: [None], or the address. *)
Definition hid := option bytes.

(** [not hid]: [None] and the empty [bytes] object are falsy. *)
Definition falsy (h : hid) : bool :=
  match h with
  | None => true
  | Some b => negb (truthy b)
  end.

Record Link := mkLink {
  link_type : string;
  link_link : string
}.

Record Institution := mkInstitution {
  institution_name : string;
  institution_category : string
}.

Record Role := mkRole {
  role_institution : Institution;
  role_role : string;
  role_start_date : option Z;
  role_end_date : option Z
}.

Record Author := mkAuthor {
  author_name : string;
  author_affiliations : list Institution;
  author_roles : list Role;
  author_aliases : list string;
  author_links : list Link
}.

Record Venue := mkVenue {
  venue_type : string;
  venue_name : string;
  venue_links : list Link
}.

Record Release := mkRelease {
  release_venue : Venue;
  release_date : Z;
  release_date_precision : Z;
  release_volume : option string;
  release_publisher : option string
}.

Record Topic := mkTopic {
  topic_name : string
}.

Record Paper := mkPaper {
  paper_title : string;
  paper_abstract : option string;
  paper_citation_count : option Z;
  paper_authors : list Author;
  paper_releases : list Release;
  paper_topics : list Topic;
  paper_links : list Link;
  paper_scrapers : list string
}.

(** What [acquire] can be handed: an object with a [hashid] method, which
    [acquire] calls before anything else. [EOther] is such an object of a
    class that [_acquire] has no case for, with its class name; an object
    without the method makes [acquire] fail at that first call and is not
    an [entity]. *)
Inductive entity :=
| EPaper (paper : Paper)
| EAuthor (author : Author)
| EInstitution (institution : Institution)
| ERelease (release : Release)
| ETopic (topic : Topic)
| EVenue (venue : Venue)
| EAuthorQuery (author_id : hid) (author : Author)
| EOther (class_name : string).

(** ** The rows of db/schema.py

    [db/schema.py] is not among the sources either: each mapped class and
    table is declared with the columns that [_acquire] fills. *)
Inductive row :=
| Paper_row (paper_id : hid) (title : string) (abstract : option string)
    (citation_count : option Z)
| PaperAuthor_row (paper_id author_id : hid) (author_position : nat)
| paper_author_institution_row (paper_id author_id institution_id : hid)
| paper_release_row (paper_id release_id : hid)
| paper_topic_row (paper_id topic_id : hid)
| PaperLink_row (paper_id : hid) (type link : string)
| PaperScraper_row (paper_id : hid) (scraper : string)
| Author_row (author_id : hid) (name : string)
| Institution_row (institution_id : hid) (name category : string)
| Release_row (release_id : hid) (date date_precision : Z)
    (volume publisher : option string) (venue_id : hid)
| Topic_row (topic_id : hid) (topic : string)
| Venue_row (venue_id : hid) (type name : string)
| VenueLink_row (venue_id : hid) (type link : string)
| AuthorLink_row (author_id : hid) (type link : string)
| AuthorAlias_row (author_id : hid) (alias : string)
| AuthorInstitution_row (author_id institution_id : hid) (role : string)
    (start_date end_date : option Z).

(** The table a row belongs to. *)
Definition table_of (r : row) : string :=
  match r with
  | Paper_row _ _ _ _ => "paper"
  | PaperAuthor_row _ _ _ => "paper_author"
  | paper_author_institution_row _ _ _ => "paper_author_institution"
  | paper_release_row _ _ => "paper_release"
  | paper_topic_row _ _ => "paper_topic"
  | PaperLink_row _ _ _ => "paper_link"
  | PaperScraper_row _ _ => "paper_scraper"
  | Author_row _ _ => "author"
  | Institution_row _ _ _ => "institution"
  | Release_row _ _ _ _ _ _ => "release"
  | Topic_row _ _ => "topic"
  | Venue_row _ _ _ => "venue"
  | VenueLink_row _ _ _ => "venue_link"
  | AuthorLink_row _ _ _ => "author_link"
  | AuthorAlias_row _ _ => "author_alias"
  | AuthorInstitution_row _ _ _ _ _ => "author_institution"
  end.

(** Attribute reads on what [acquire] returned: [AttributeError] on [None]
    and on a row of a class without the attribute. *)
Definition attr_author_id (r : option row) : result hid :=
  match r with
  | Some (Author_row i _) => Ok i
  | Some (PaperAuthor_row _ i _) => Ok i
  | Some (paper_author_institution_row _ i _) => Ok i
  | Some (AuthorLink_row i _ _) => Ok i
  | Some (AuthorAlias_row i _) => Ok i
  | Some (AuthorInstitution_row i _ _ _ _) => Ok i
  | _ => Raise AttributeError
  end.

Definition attr_institution_id (r : option row) : result hid :=
  match r with
  | Some (Institution_row i _ _) => Ok i
  | Some (paper_author_institution_row _ _ i) => Ok i
  | Some (AuthorInstitution_row _ i _ _ _) => Ok i
  | _ => Raise AttributeError
  end.

Definition attr_release_id (r : option row) : result hid :=
  match r with
  | Some (Release_row i _ _ _ _ _) => Ok i
  | Some (paper_release_row _ i) => Ok i
  | _ => Raise AttributeError
  end.

Definition attr_topic_id (r : option row) : result hid :=
  match r with
  | Some (Topic_row i _) => Ok i
  | Some (paper_topic_row _ i) => Ok i
  | _ => Raise AttributeError
  end.

Definition attr_venue_id (r : option row) : result hid :=
  match r with
  | Some (Venue_row i _ _) => Ok i
  | Some (VenueLink_row i _ _) => Ok i
  | Some (Release_row _ _ _ _ _ i) => Ok i
  | _ => Raise AttributeError
  end.

(** What the session and the files were asked to do, in order. *)
Inductive event :=
| EvEnter
| EvCommit
| EvClose
| EvMerge (r : row)
| EvInsert (r : row)
| EvAcquired (x : entity) (r : option row)
| EvReplaying (file : list string)
| EvAppend (file : string) (lines : list string).

(** ** Paths and the history directory

    A [Path] is modelled with what the file system holds at it: a file with
    its lines, a directory with its entries (in the arbitrary order of
    [iterdir]), or nothing. *)

#[warnings="-register-all"]
Inductive fsentry :=
| File (entry_name : string) (lines : list string)
| Dir (entry_name : string) (children : list fsentry).

Definition entry_name (e : fsentry) : string :=
  match e with
  | File n _ => n
  | Dir n _ => n
  end.

Record Path := mkPath {
  parts : list string;
  entry : option fsentry
}.

(** [pth.name]: the last component. *)
Definition name (p : Path) : string := List.last (parts p) "".

Definition is_dir (p : Path) : bool :=
  match entry p with
  | Some (Dir _ _) => true
  | _ => false
  end.

Definition child (p : Path) (c : fsentry) : Path :=
  mkPath (parts p ++ [entry_name c]) (Some c).

Definition iterdir (p : Path) : list Path :=
  match entry p with
  | Some (Dir _ cs) => map (child p) cs
  | _ => []
  end.

(** [open(pth).readlines()] *)
Definition readlines (p : Path) : result (list string) :=
  match entry p with
  | Some (File _ ls) => Ok ls
  | _ => Raise OSError
  end.

(** Paths compare as the lists of their components, strings by code
    point. *)
Fixpoint parts_ltb (p q : list string) : bool :=
  match p, q with
  | [], [] => false
  | [], _ :: _ => true
  | _ :: _, [] => false
  | a :: p', b :: q' =>
      if String.ltb a b then true
      else if String.eqb a b then parts_ltb p' q'
      else false
  end.

Definition Path_ltb (p q : Path) : bool := parts_ltb (parts p) (parts q).

(** [sorted(l)]: a stable sort. *)
Fixpoint insert_sorted {A} (ltb : A -> A -> bool) (x : A) (l : list A) : list A :=
  match l with
  | [] => [x]
  | y :: l' => if ltb y x then y :: insert_sorted ltb x l' else x :: y :: l'
  end.

Definition sorted {A} (ltb : A -> A -> bool) (l : list A) : list A :=
  foldr (insert_sorted ltb) [] l.

(** Truthiness of an optional string argument such as [before]. *)
Definition str_truthy (s : option string) : bool :=
  match s with
  | None => false
  | Some s => negb (String.eqb s "")
  end.

(** [x.name[: len(bound)]] *)
Definition name_prefix (bound : string) (x : Path) : string :=
  String.substring 0 (String.length bound) (name x).

(** The two comprehensions of [_accumulate_history_files]. *)
Definition filter_before (before : option string) (paths : list Path) : list Path :=
  match before with
  | Some b =>
      if str_truthy before
      then List.filter (fun x => String.ltb (name_prefix b x) b) paths
      else paths
  | None => paths
  end.

Definition filter_after (after : option string) (paths : list Path) : list Path :=
  match after with
  | Some a =>
      if str_truthy after
      then List.filter (fun x => String.ltb a (name_prefix a x)) paths
      else paths
  | None => paths
  end.

(** What [_accumulate_history_files] is handed as [x]: a [str], a [Path],
    a sequence of paths (the pattern [[*paths]] takes a list as well as a
    tuple; [HList] holds its elements in order), or [HOther] for an object
    that is none of these. *)
Inductive hist_arg :=
| HStr (s : string)
| HPath (p : Path)
| HList (ps : list Path)
| HOther.

(** The height of the tree under a path bounds the depth of the walk. *)
Fixpoint height (e : fsentry) : nat :=
  match e with
  | File _ _ => 0%nat
  | Dir _ cs =>
      S ((fix heights (cs : list fsentry) : nat :=
            match cs with
            | [] => 0%nat
            | c :: cs' => Nat.max (height c) (heights cs')
            end) cs)
  end.

Definition path_height (p : Path) : nat :=
  match entry p with
  | Some e => height e
  | None => 0%nat
  end.

(** ** db/database.py: the [Database] object *)

Module Database.
Section Database.

(** The primary key of a row within its table is fixed by the schema: it is
    a parameter here. *)
Context {K : Type} `{Countable K}.
Variable pk : row -> K.

(** [hashid] and [tagged_json] are methods of the entity classes;
    [from_dict(json.loads(l))] reads an entity back from a line of the log;
    [config.history_file] and [config.history_root] come from the
    configuration; [Path(str)] asks the file system. *)
Variable hashid : entity -> hid.
Variable tagged_json : entity -> string.
Variable parse_entity : string -> result entity.
Variable config_history_file : string.
Variable config_history_root : hist_arg.
Variable Path_of_str : string -> Path.

(** The rows of the database, by table and primary key. *)
Abbreviation rows := (gmap (string * K) row).

Definition key_of (r : row) : string * K := (table_of r, pk r).

(** The [Database] object and what it acts on:
    - [store]: the committed content of the SQLite file;
    - [session]: [self.session], with the content the open transaction sees;
    - [cache]: [self.cache];
    - [files]: the lines of the log files, by name;
    - [trace]: the calls made so far. *)
Record state := State {
  store : rows;
  session : option rows;
  cache : gmap hid (option row);
  files : gmap string (list string);
  trace : list event
}.

(** [Database(filename)] on a database file that holds [db]. *)
Definition init (db : rows) (fs : gmap string (list string)) : state :=
  State db None ∅ fs [].

(** Computations on the state that may raise; the state changes made before
    an exception stay. *)
Definition M (A : Type) : Type := state -> result A * state.

Definition ret {A} (a : A) : M A := fun st => (Ok a, st).
Definition raise {A} (e : exn) : M A := fun st => (Raise e, st).
Definition bind {A B} (m : M A) (k : A -> M B) : M B :=
  fun st =>
    match m st with
    | (Ok a, st') => k a st'
    | (Raise e, st') => (Raise e, st')
    end.
Definition lift {A} (r : result A) : M A := fun st => (r, st).

Notation "x <- m ;; k" := (bind m (fun x => k))
  (at level 100, m at next level, right associativity).
Notation "m ;;; k" := (bind m (fun _ => k))
  (at level 100, right associativity).

(** [for x in l: f(x)] *)
Fixpoint for_each {A} (f : A -> M unit) (l : list A) : M unit :=
  match l with
  | [] => ret tt
  | x :: l' => f x ;;; for_each f l'
  end.

(** [for i, x in enumerate(l): f(i, x)] *)
Fixpoint for_enumerate {A} (f : nat -> A -> M unit) (i : nat) (l : list A)
  : M unit :=
  match l with
  | [] => ret tt
  | x :: l' => f i x ;;; for_enumerate f (S i) l'
  end.

Definition log (ev : event) : M unit :=
  fun st => (Ok tt, State (store st) (session st) (cache st) (files st)
                          (trace st ++ [ev])).

(** [self.session.merge(r)]: insert or update by primary key. *)
Definition session_merge (r : row) : M unit :=
  fun st =>
    match session st with
    | None => (Raise AttributeError, st)
    | Some s =>
        (Ok tt, State (store st) (Some (<[key_of r := r]> s)) (cache st)
                      (files st) (trace st ++ [EvMerge r]))
    end.

(** [self.session.execute(insert(t).values(..).on_conflict_do_nothing())] *)
Definition session_insert_ignore (r : row) : M unit :=
  fun st =>
    match session st with
    | None => (Raise AttributeError, st)
    | Some s =>
        let s' := match s !! key_of r with
                  | Some _ => s
                  | None => <[key_of r := r]> s
                  end in
        (Ok tt, State (store st) (Some s') (cache st) (files st)
                      (trace st ++ [EvInsert r]))
    end.

(** [__enter__]: a new session, which sees the committed rows. *)
Definition __enter__ : M unit :=
  fun st => (Ok tt, State (store st) (Some (store st)) (cache st) (files st)
                          (trace st ++ [EvEnter])).

(** [__exit__]: commit, close the session, [self.session = None]. *)
Definition __exit__ : M unit :=
  fun st =>
    match session st with
    | None => (Raise AttributeError, st)
    | Some s =>
        (Ok tt, State s None (cache st) (files st)
                      (trace st ++ [EvCommit; EvClose]))
    end.

(** [with self: body]. [__exit__] returns [None], so an exception of the
    body is raised again after it. *)
Definition with_self {A} (body : M A) : M A :=
  fun st =>
    match __enter__ st with
    | (Raise e, st1) => (Raise e, st1)
    | (Ok _, st1) =>
        match body st1 with
        | (r, st2) =>
            match __exit__ st2 with
            | (Ok _, st3) => (r, st3)
            | (Raise e, st3) => (Raise e, st3)
            end
        end
    end.

Definition cache_get (h : hid) : M (option (option row)) :=
  fun st => (Ok (cache st !! h), st).

Definition cache_set (h : hid) (r : option row) : M unit :=
  fun st => (Ok tt, State (store st) (session st) (<[h := r]> (cache st))
                          (files st) (trace st)).

(** [acquire], over the body [_acquire] it calls. *)
Definition acquire_with (_acquire : entity -> M (option row)) (x : entity)
  : M (option row) :=
  let hid := hashid x in
  c <- cache_get hid ;;
  (if falsy hid || negb (bool_decide (is_Some c))
   then r <- _acquire x ;; cache_set hid r
   else ret tt) ;;;
  c' <- cache_get hid ;;
  match c' with
  | Some r => log (EvAcquired x r) ;;; ret r
  | None => raise KeyError
  end.

(** [_acquire], over the [self.acquire] it calls back. *)
Definition _acquire (acquire : entity -> M (option row)) (x : entity)
  : M (option row) :=
  match x with
  | EPaper paper =>
      let pp := Paper_row (hashid x) (paper_title paper) (paper_abstract paper)
                  (paper_citation_count paper) in
      let pp_paper_id := hashid x in
      session_merge pp ;;;
      for_enumerate (fun i author =>
        aa <- acquire (EAuthor author) ;;
        aa_author_id <- lift (attr_author_id aa) ;;
        session_merge (PaperAuthor_row pp_paper_id aa_author_id i) ;;;
        for_each (fun affiliation =>
          inst <- acquire (EInstitution affiliation) ;;
          inst_institution_id <- lift (attr_institution_id inst) ;;
          session_insert_ignore
            (paper_author_institution_row pp_paper_id aa_author_id
               inst_institution_id))
          (author_affiliations author))
        0%nat (paper_authors paper) ;;;
      for_each (fun release =>
        rr <- acquire (ERelease release) ;;
        rr_release_id <- lift (attr_release_id rr) ;;
        session_insert_ignore (paper_release_row pp_paper_id rr_release_id))
        (paper_releases paper) ;;;
      for_each (fun topic =>
        tt_ <- acquire (ETopic topic) ;;
        tt_topic_id <- lift (attr_topic_id tt_) ;;
        session_insert_ignore (paper_topic_row pp_paper_id tt_topic_id))
        (paper_topics paper) ;;;
      for_each (fun link =>
        session_merge (PaperLink_row pp_paper_id (link_type link) (link_link link)))
        (paper_links paper) ;;;
      for_each (fun scraper =>
        session_merge (PaperScraper_row pp_paper_id scraper))
        (paper_scrapers paper) ;;;
      ret (Some pp)
  | EAuthor author =>
      let aa := Author_row (hashid x) (author_name author) in
      session_merge aa ;;;
      _ <- acquire (EAuthorQuery (hashid x) author) ;;
      ret (Some aa)
  | EInstitution institution =>
      let aa := Institution_row (hashid x) (institution_name institution)
                  (institution_category institution) in
      session_merge aa ;;;
      ret (Some aa)
  | ERelease release =>
      vv <- acquire (EVenue (release_venue release)) ;;
      vv_venue_id <- lift (attr_venue_id vv) ;;
      let rr := Release_row (hashid x) (release_date release)
                  (release_date_precision release) (release_volume release)
                  (release_publisher release) vv_venue_id in
      session_merge rr ;;;
      ret (Some rr)
  | ETopic topic =>
      let tt_ := Topic_row (hashid x) (topic_name topic) in
      session_merge tt_ ;;;
      ret (Some tt_)
  | EVenue venue =>
      let vv := Venue_row (hashid x) (venue_type venue) (venue_name venue) in
      session_merge vv ;;;
      for_each (fun link =>
        session_merge (VenueLink_row (hashid x) (link_type link) (link_link link)))
        (venue_links venue) ;;;
      ret (Some vv)
  | EAuthorQuery author_id author =>
      for_each (fun link =>
        session_merge (AuthorLink_row author_id (link_type link) (link_link link)))
        (author_links author) ;;;
      for_each (fun alias =>
        session_merge (AuthorAlias_row author_id alias))
        (author_aliases author) ;;;
      for_each (fun role =>
        inst <- acquire (EInstitution (role_institution role)) ;;
        institution_id <- lift (attr_institution_id inst) ;;
        session_merge
          (AuthorInstitution_row author_id institution_id (role_role role)
             (role_start_date role) (role_end_date role)))
        (author_roles author) ;;;
      ret None
  | EOther _ => raise TypeError
  end.

(** The mutual recursion of [acquire] and [_acquire], with its depth
    bounded by [fuel]. *)
Fixpoint acquire_fuel (fuel : nat) (x : entity) : M (option row) :=
  match fuel with
  | O => raise RecursionError
  | S n => acquire_with (_acquire (acquire_fuel n)) x
  end.

(** A paper holds authors, an author its query, a query institutions: no
    call of [acquire] is nested deeper than four (see
    [acquire_depth_bounded]). *)
Definition acquire (x : entity) : M (option row) := acquire_fuel 4 x.

Definition newline : string := String (Ascii.ascii_of_nat 10) EmptyString.

(** [open(history_file, "a")] and [f.writelines(data)] *)
Definition append_lines (file : string) (data : list string) : M unit :=
  fun st =>
    (Ok tt, State (store st) (session st) (cache st)
                  (<[file := default [] (files st !! file) ++ data]> (files st))
                  (trace st ++ [EvAppend file data])).

Definition import_all (xs : list entity) (history_file : option string)
  : M unit :=
  match xs with
  | [] => ret tt
  | _ :: _ =>
      let history_file :=
        if str_truthy history_file
        then default config_history_file history_file
        else config_history_file in
      with_self (for_each (fun x => _ <- acquire x ;; ret tt) xs) ;;;
      append_lines history_file
        (map (fun x => String.append (tagged_json x) newline) xs)
  end.

(** The loop [for subpth in paths] of [_accumulate_history_files]. *)
Fixpoint accumulate_each (rec : Path -> list Path -> result (list Path))
  (paths : list Path) (results : list Path) : result (list Path) :=
  match paths with
  | [] => Ok results
  | subpth :: paths' =>
      match rec subpth results with
      | Ok results' => accumulate_each rec paths' results'
      | Raise e => Raise e
      end
  end.

(** [_accumulate_history_files]; [results] is the list that the calls
    append to, and [fuel] bounds the depth of the recursion. *)
Fixpoint _accumulate_history_files_fuel (fuel : nat) (x : hist_arg)
  (before after : option string) (results : list Path)
  : result (list Path) :=
  match fuel with
  | O => Raise RecursionError
  | S n =>
      match x with
      | HStr pth =>
          _accumulate_history_files_fuel n (HPath (Path_of_str pth))
            before after results
      | HPath pth =>
          if is_dir pth
          then _accumulate_history_files_fuel n (HList (iterdir pth))
                 before after results
          else Ok (results ++ [pth])
      | HList paths =>
          let paths := sorted Path_ltb paths in
          let paths := filter_before before paths in
          let paths := filter_after after paths in
          accumulate_each
            (fun subpth rs =>
               _accumulate_history_files_fuel n (HPath subpth) before after rs)
            paths results
      | HOther => Raise AssertionError
      end
  end.

(** Two calls per level of the tree, and one for a [str]. *)
Definition walk_fuel (x : hist_arg) : nat :=
  match x with
  | HStr s => 2 * path_height (Path_of_str s) + 3
  | HPath p => 2 * path_height p + 2
  | HList ps => 2 * foldr (fun p n => Nat.max (path_height p) n) 0%nat ps + 3
  | HOther => 1
  end.

Definition _accumulate_history_files (x : hist_arg)
  (before after : option string) (results : list Path) : result (list Path) :=
  _accumulate_history_files_fuel (walk_fuel x) x before after results.

(** Truthiness of the [history] argument. *)
Definition hist_truthy (h : option hist_arg) : bool :=
  match h with
  | None => false
  | Some (HStr s) => negb (String.eqb s "")
  | Some (HList []) => false
  | Some _ => true
  end.

Definition replay (history : option hist_arg) (before after : option string)
  : M unit :=
  let history :=
    if hist_truthy history then default config_history_root history
    else config_history_root in
  history_files <- lift (_accumulate_history_files history before after []) ;;
  for_each (fun history_file =>
    log (EvReplaying (parts history_file)) ;;;
    with_self (
      lines <- lift (readlines history_file) ;;
      for_each (fun l =>
        x <- lift (parse_entity l) ;;
        _ <- acquire x ;;
        ret tt) lines))
    history_files.

End Database.
End Database.

(** ** A concrete schema and hash, to run the model on *)

Module Sample.

(** Primary keys: the ids of the row, then its other key columns. *)
Definition pk (r : row) : list hid * list string :=
  match r with
  | Paper_row i _ _ _ => ([i], [])
  | PaperAuthor_row p a _ => ([p; a], [])
  | paper_author_institution_row p a i => ([p; a; i], [])
  | paper_release_row p r => ([p; r], [])
  | paper_topic_row p t => ([p; t], [])
  | PaperLink_row p ty l => ([p], [ty; l])
  | PaperScraper_row p s => ([p], [s])
  | Author_row i _ => ([i], [])
  | Institution_row i _ _ => ([i], [])
  | Release_row i _ _ _ _ _ => ([i], [])
  | Topic_row i _ => ([i], [])
  | Venue_row i _ _ => ([i], [])
  | VenueLink_row v ty l => ([v], [ty; l])
  | AuthorLink_row a ty l => ([a], [ty; l])
  | AuthorAlias_row a al => ([a], [al])
  | AuthorInstitution_row a i ro _ _ => ([a; i], [ro])
  end.

Definition codes (s : string) : bytes :=
  map (fun c => Z.of_nat (Ascii.nat_of_ascii c)) (String.list_ascii_of_string s).

(** A stand-in for the hash: a tag for the class, then the identifying
    text; [None] for an author query and for a foreign object. *)
Definition hashid (x : entity) : hid :=
  match x with
  | EPaper p => Some (1 :: codes (paper_title p))
  | EAuthor a => Some (2 :: codes (author_name a))
  | EInstitution i => Some (3 :: codes (institution_name i))
  | ERelease r => Some (4 :: release_date r :: codes (venue_name (release_venue r)))
  | ETopic t => Some (5 :: codes (topic_name t))
  | EVenue v => Some (6 :: codes (venue_name v))
  | EAuthorQuery _ _ => None
  | EOther _ => None
  end.

Definition tagged_json (x : entity) : string :=
  match x with
  | EPaper p => String.append "Paper:" (paper_title p)
  | EAuthor a => String.append "Author:" (author_name a)
  | EInstitution i => String.append "Institution:" (institution_name i)
  | ERelease r => String.append "Release:" (venue_name (release_venue r))
  | ETopic t => String.append "Topic:" (topic_name t)
  | EVenue v => String.append "Venue:" (venue_name v)
  | EAuthorQuery _ a => String.append "AuthorQuery:" (author_name a)
  | EOther c => c
  end.

(** Lines of the form [T<name>] are topics; anything else does not parse. *)
Definition parse_entity (l : string) : result entity :=
  match l with
  | String c rest =>
      if Ascii.eqb c (Ascii.ascii_of_nat 84)
      then Ok (ETopic (mkTopic rest))
      else Raise ParseError
  | EmptyString => Raise ParseError
  end.

Definition mit : Institution := mkInstitution "MIT" "academia".
Definition smith : Author :=
  mkAuthor "A. Smith" [mit] [mkRole mit "prof" (Some 2020) None]
    ["Alice Smith"] [mkLink "orcid" "0000"].
Definition jgt : Venue := mkVenue "journal" "JGT" [mkLink "url" "jgt.org"].
Definition graph_theory : Paper :=
  mkPaper "Graph Theory" None (Some 3) [smith]
    [mkRelease jgt 2023 1 None None] [mkTopic "graphs"]
    [mkLink "doi" "10.1/x"] ["semantic_scholar"].

Abbreviation st := (@Database.state (list hid * list string) _ _).

Definition st0 : st := Database.init ∅ ∅.

(** A state with an open session. *)
Definition st1 : st := snd (Database.__enter__ st0).

Definition acquire := Database.acquire pk hashid.
Definition import_all := Database.import_all pk hashid tagged_json "history.jsonl".
Definition replay :=
  Database.replay pk hashid parse_entity (HStr "history")
    (fun s => mkPath [s] None).

End Sample.

(** ** Properties of the [Database] object *)

Section DatabaseProperties.
Import Database.

Context {K : Type} `{Countable K}.
Variable pk : row -> K.
Variable hashid : entity -> hid.

Abbreviation state := (@Database.state K _ _).
Abbreviation M := (@Database.M K _ _).
Abbreviation acquire_with := (Database.acquire_with (K:=K) hashid).
Abbreviation _acquire := (Database._acquire pk hashid).
Abbreviation acquire_fuel := (Database.acquire_fuel pk hashid).
Abbreviation acquire := (Database.acquire pk hashid).

(** *** Running a computation step by step *)

Lemma bind_Ok {A B} (m : M A) (k : A -> M B) st a st' :
  m st = (Ok a, st') -> bind m k st = k a st'.
Proof. intros Hm. unfold bind. by rewrite Hm. Qed.

Lemma bind_Raise {A B} (m : M A) (k : A -> M B) st e st' :
  m st = (Raise e, st') -> bind m k st = (Raise e, st').
Proof. intros Hm. unfold bind. by rewrite Hm. Qed.

(** A successful [bind] splits in two successful runs. *)
Lemma bind_inv_Ok {A B} (m : M A) (k : A -> M B) st b st2 :
  bind m k st = (Ok b, st2) ->
  exists a st1, m st = (Ok a, st1) /\ k a st1 = (Ok b, st2).
Proof.
  unfold bind. destruct (m st) as [[a|e] st1]; [eauto|done].
Qed.

(** *** Relations kept by every step

    [kept R m]: the relation holds between the state before and the state
    after a run of [m], whether it returns or raises. *)
Definition kept {A} (R : state -> state -> Prop) (m : M A) : Prop :=
  forall st, R st (m st).2.

Section Kept.
Variable R : state -> state -> Prop.
Context `{!PreOrder R}.

Lemma kept_ret {A} (a : A) : kept R (ret a).
Proof. intros st. simpl. reflexivity. Qed.

Lemma kept_raise {A} e : kept R (raise (A:=A) e).
Proof. intros st. simpl. reflexivity. Qed.

Lemma kept_lift {A} (r : result A) : kept R (lift r).
Proof. intros st. simpl. reflexivity. Qed.

Lemma kept_cache_get h : kept R (cache_get h).
Proof. intros st. simpl. reflexivity. Qed.

Lemma kept_bind {A B} (m : M A) (k : A -> M B) :
  kept R m -> (forall a, kept R (k a)) -> kept R (bind m k).
Proof.
  intros Hm Hk st. unfold bind. specialize (Hm st).
  destruct (m st) as [[a|e] st1]; simpl in *; [|done].
  etransitivity; [exact Hm|apply Hk].
Qed.

Lemma kept_for_each {A} (f : A -> M unit) l :
  (forall x, kept R (f x)) -> kept R (for_each f l).
Proof.
  intros Hf. induction l as [|x l IH]; simpl.
  - apply kept_ret.
  - apply kept_bind; [apply Hf|]. intros _. apply IH.
Qed.

Lemma kept_for_enumerate {A} (f : nat -> A -> M unit) i l :
  (forall j x, kept R (f j x)) -> kept R (for_enumerate f i l).
Proof.
  intros Hf. revert i. induction l as [|x l IH]; intros i; simpl.
  - apply kept_ret.
  - apply kept_bind; [apply Hf|]. intros _. apply IH.
Qed.

(** [_acquire] keeps what its primitive steps and the calls of [acquire]
    it makes keep. *)
Lemma kept__acquire (rec : entity -> M (option row)) x :
  (forall r, kept R (session_merge pk r)) ->
  (forall r, kept R (session_insert_ignore pk r)) ->
  (forall y, kept R (rec y)) ->
  kept R (_acquire rec x).
Proof.
  intros Hmerge Hins Hrec. destruct x; simpl;
    repeat first
      [ apply kept_ret | apply kept_raise | apply kept_lift
      | apply Hmerge | apply Hins | apply Hrec
      | apply kept_bind | apply kept_for_each | apply kept_for_enumerate
      | intro ].
Qed.

End Kept.


(** *** What a unit of work can change *)

(** The calls that [acquire] makes on the session. *)
Definition work_event (ev : event) : Prop :=
  match ev with
  | EvMerge _ | EvInsert _ | EvAcquired _ _ => True
  | _ => False
  end.

(** [work st st']: from [st] to [st'] nothing was committed, no file was
    written, the session was neither opened nor closed, only calls of the
    session were traced, and no cache entry under an address was changed. *)
Record work (st st' : state) : Prop := {
  work_store : store st' = store st;
  work_files : files st' = files st;
  work_session : is_Some (session st') <-> is_Some (session st);
  work_trace : exists t, trace st' = trace st ++ t /\ Forall work_event t;
  work_cache : forall h v,
    falsy h = false -> cache st !! h = Some v -> cache st' !! h = Some v
}.

#[local] Instance work_preorder : PreOrder work.
Proof.
  split.
  - intros st. split; try done. exists []. by rewrite app_nil_r.
  - intros st1 st2 st3 [Hs1 Hf1 Ho1 (t1 & Ht1 & Hw1) Hc1]
      [Hs2 Hf2 Ho2 (t2 & Ht2 & Hw2) Hc2].
    split; [congruence|congruence|by rewrite Ho2| |auto].
    exists (t1 ++ t2). split; [by rewrite Ht2, Ht1, app_assoc|].
    by apply Forall_app.
Qed.

Lemma work_merge r : kept work (session_merge pk r).
Proof.
  intros st. unfold session_merge. destruct (session st) eqn:Hs; simpl.
  - split; simpl; try done.
    exists [EvMerge r]. split; [done|]. by repeat constructor.
  - reflexivity.
Qed.

Lemma work_insert_ignore r : kept work (session_insert_ignore pk r).
Proof.
  intros st. unfold session_insert_ignore. destruct (session st) eqn:Hs; simpl.
  - split; simpl; try done.
    exists [EvInsert r]. split; [done|]. by repeat constructor.
  - reflexivity.
Qed.

(** [acquire] on an address that the cache holds. *)
Lemma acquire_with_hit body x v st :
  falsy (hashid x) = false -> cache st !! hashid x = Some v ->
  acquire_with body x st =
    (Ok v, State (store st) (session st) (cache st) (files st)
             (trace st ++ [EvAcquired x v])).
Proof.
  intros Hf Hc. unfold acquire_with, bind, cache_get. simpl.
  rewrite Hf, Hc. simpl. rewrite ?bool_decide_true by eauto. simpl.
  by rewrite ?Hc.
Qed.

(** [acquire] without an address, or on one that the cache does not hold. *)
Lemma acquire_with_miss body x st :
  falsy (hashid x) = true \/ cache st !! hashid x = None ->
  acquire_with body x st =
    match body x st with
    | (Ok r, st') =>
        (Ok r, State (store st') (session st') (<[hashid x := r]> (cache st'))
                 (files st') (trace st' ++ [EvAcquired x r]))
    | (Raise e, st') => (Raise e, st')
    end.
Proof.
  intros Hc. unfold acquire_with, bind, cache_get. simpl.
  assert (falsy (hashid x) || negb (bool_decide (is_Some (cache st !! hashid x)))
          = true) as ->.
  { destruct Hc as [->| ->]; [done|].
    rewrite bool_decide_false by (by intros [? ?]). by rewrite orb_true_r. }
  destruct (body x st) as [[r|e] st']; [|done]. simpl.
  by rewrite lookup_insert_eq.
Qed.

Lemma acquire_with_cases x (st : state) :
  (falsy (hashid x) = false /\ exists v, cache st !! hashid x = Some v) \/
  (falsy (hashid x) = true \/ cache st !! hashid x = None).
Proof.
  destruct (falsy (hashid x)); [right; by left|].
  destruct (cache st !! hashid x) as [v|]; [left; eauto|right; by right].
Qed.

Lemma work_acquire_with body x :
  (forall y, kept work (body y)) -> kept work (acquire_with body x).
Proof.
  intros Hbody st.
  destruct (acquire_with_cases x st) as [[Hf [v Hv]]|Hmiss].
  - rewrite (acquire_with_hit _ _ _ _ Hf Hv). simpl.
    split; simpl; try done.
    exists [EvAcquired x v]. split; [done|]. by repeat constructor.
  - rewrite (acquire_with_miss _ _ _ Hmiss).
    specialize (Hbody x st). destruct (body x st) as [[r|e] st']; simpl in *;
      [|done].
    destruct Hbody as [Hs Hfi Ho (t & Ht & Hw) Hc].
    split; simpl; try done.
    + exists (t ++ [EvAcquired x r]). split; [by rewrite Ht, app_assoc|].
      apply Forall_app. split; [done|]. by repeat constructor.
    + intros h v Hh Hv. destruct (decide (h = hashid x)) as [->|Hne].
      * destruct Hmiss as [Hm|Hm]; congruence.
      * rewrite lookup_insert_ne by done. auto.
Qed.

Lemma work_acquire_fuel n x : kept work (acquire_fuel n x).
Proof.
  revert x. induction n as [|n IH]; intros x; simpl.
  - apply kept_raise. apply _.
  - apply work_acquire_with. intros y.
    apply kept__acquire; [apply _|apply work_merge|apply work_insert_ignore|done].
Qed.

Lemma work_acquire x : kept work (acquire x).
Proof. apply work_acquire_fuel. Qed.

(** *** The context manager *)

Lemma with_self_run {A} (body : M A) st r st2 s :
  body (__enter__ st).2 = (r, st2) -> session st2 = Some s ->
  with_self body st =
    (r, State s None (cache st2) (files st2) (trace st2 ++ [EvCommit; EvClose])).
Proof.
  intros Hbody Hs. unfold with_self. simpl in *. rewrite Hbody.
  unfold __exit__. by rewrite Hs.
Qed.

(** A body that only works on the session leaves it open. *)
Lemma with_self_work {A} (body : M A) st :
  kept work body ->
  exists r st2 s,
    body (__enter__ st).2 = (r, st2) /\ session st2 = Some s /\
    work (__enter__ st).2 st2 /\
    with_self body st =
      (r, State s None (cache st2) (files st2) (trace st2 ++ [EvCommit; EvClose])).
Proof.
  intros Hbody. specialize (Hbody (__enter__ st).2).
  destruct (body (__enter__ st).2) as [r st2] eqn:Hrun. simpl in Hbody.
  assert (is_Some (session st2)) as [s Hs].
  { apply (work_session _ _ Hbody). simpl. eauto. }
  exists r, st2, s. split; [done|]. split; [done|]. split; [done|].
  by eapply with_self_run.
Qed.


(** What [acquire] returned is what the cache holds for the address. *)
Lemma acquire_with_cached body x (st : state) r st' :
  acquire_with body x st = (Ok r, st') -> cache st' !! hashid x = Some r.
Proof.
  destruct (acquire_with_cases x st) as [[Hf [v Hv]]|Hmiss].
  - rewrite (acquire_with_hit _ _ _ _ Hf Hv). by intros [= <- <-].
  - rewrite (acquire_with_miss _ _ _ Hmiss).
    destruct (body x st) as [[r0|e] st0]; [|done].
    intros [= <- <-]. simpl. apply lookup_insert_eq.
Qed.

(** *** The cache in [acquire] *)

(** C9. When the address of [x] is not [None] (a non-empty [bytes] object)
    and the cache holds a row for it, [acquire x] returns that row at once:
    nothing is merged, and the store, the session and the cache stay as
    they are. When the address is [None], [_acquire x] is run whatever the
    cache holds under [None]: its exception is raised again, and otherwise
    its result is returned, after it has replaced the entry under [None]. *)
Theorem acquire_cache_hit_or_recompute :
  (forall x h r (st : state),
     hashid x = Some h -> truthy h = true -> cache st !! Some h = Some r ->
     acquire x st =
       (Ok r, State (store st) (session st) (cache st) (files st)
                (trace st ++ [EvAcquired x r]))) /\
  (forall x (st : state),
     hashid x = None ->
     acquire x st =
       match _acquire (acquire_fuel 3) x st with
       | (Ok r, st') =>
           (Ok r, State (store st') (session st') (<[None := r]> (cache st'))
                    (files st') (trace st' ++ [EvAcquired x r]))
       | (Raise e, st') => (Raise e, st')
       end).
Proof.
  split.
  - intros x h r st Hx Hh Hc. unfold Database.acquire. simpl.
    apply acquire_with_hit.
    + rewrite Hx. simpl. by rewrite Hh.
    + by rewrite Hx.
  - intros x st Hx. unfold Database.acquire. simpl.
    rewrite acquire_with_miss by (left; by rewrite Hx).
    by rewrite Hx.
Qed.

(** *** The cache and the transactions *)

(** The property as the specification words it: a transaction that follows
    another one starts with an empty cache. *)
Definition cache_scoped_to_transaction : Prop :=
  forall x (st : state),
    session st = None ->
    cache (__enter__ (with_self (acquire x) st).2).2 = ∅.

(** C3 (as the code has it). The cache is created empty with the
    [Database] object and neither [__enter__] nor [__exit__] touches it: a
    unit of work ends with the cache that its body left, an address that
    [acquire] resolved in it is still in the cache afterwards, and in a
    later unit of work [acquire] answers such an address from the cache,
    without writing anything. *)
Theorem cache_kept_across_transactions :
  (forall db fs, cache (init (K:=K) db fs) = ∅) /\
  (forall st : state, cache (__enter__ st).2 = cache st) /\
  (forall st : state, cache (__exit__ st).2 = cache st) /\
  (forall x (st : state) r st',
     with_self (acquire x) st = (Ok r, st') -> cache st' !! hashid x = Some r) /\
  (forall x h r (st : state),
     hashid x = Some h -> truthy h = true -> cache st !! Some h = Some r ->
     with_self (acquire x) st =
       (Ok r, State (store st) None (cache st) (files st)
                (trace st ++ [EvEnter; EvAcquired x r; EvCommit; EvClose]))).
Proof.
  split; [done|]. split; [done|].
  split. { intros st. unfold __exit__. by destruct (session st). }
  split.
  - intros x st r st' Hrun.
    destruct (with_self_work (acquire x) st (work_acquire x))
      as (r0 & st2 & s & Hbody & Hs & _ & Hw).
    rewrite Hw in Hrun. injection Hrun as -> <-. simpl.
    by eapply acquire_with_cached.
  - intros x h r st Hx Hh Hc.
    assert (acquire x (__enter__ st).2 =
            (Ok r, State (store st) (Some (store st)) (cache st) (files st)
                     ((trace st ++ [EvEnter]) ++ [EvAcquired x r]))) as Hrun.
    { unfold Database.acquire. simpl. apply acquire_with_hit.
      - rewrite Hx. simpl. by rewrite Hh.
      - by rewrite Hx. }
    rewrite (with_self_run _ _ _ _ (store st) Hrun eq_refl). simpl.
    by rewrite <- !app_assoc.
Qed.

(** *** Failures inside a unit of work *)

(** The property as the specification words it: a unit of work that fails
    leaves the committed rows as they were. *)
Definition rolled_back_on_failure : Prop :=
  forall (A : Type) (body : M A) (st : state) e st',
    with_self body st = (Raise e, st') -> store st' = store st.

(** C2 (as the code has it). [__exit__] commits whatever the outcome of the
    body: when the body stops, by returning or by raising, in a state whose
    session is open, the unit of work ends with that outcome, the rows that
    the session held at that point are the committed rows, and the session
    is closed. The rows written before a failure are therefore committed. *)
Theorem exit_commits_on_failure (A : Type) (body : M A) (st : state) r st2 :
  body (__enter__ st).2 = (r, st2) -> is_Some (session st2) ->
  exists st',
    with_self body st = (r, st') /\
    Some (store st') = session st2 /\
    session st' = None /\
    cache st' = cache st2 /\
    files st' = files st2 /\
    trace st' = trace st2 ++ [EvCommit; EvClose].
Proof.
  intros Hbody [s Hs]. eexists. split; [by eapply with_self_run|]. done.
Qed.


(** *** [import_all] and the history log *)

Variable tagged_json : entity -> string.
Variable config_history_file : string.

Abbreviation import_all :=
  (Database.import_all pk hashid tagged_json config_history_file).

(** The file that [import_all] appends to. *)
Definition history_target (history_file : option string) : string :=
  if str_truthy history_file
  then default config_history_file history_file
  else config_history_file.

(** The lines that [import_all] appends. *)
Definition history_lines (xs : list entity) : list string :=
  map (fun x => String.append (tagged_json x) newline) xs.

Lemma work_acquire_all (xs : list entity) :
  kept work (for_each (fun x => bind (acquire x) (fun _ => ret tt)) xs).
Proof.
  apply kept_for_each; [apply _|]. intros x.
  apply kept_bind; [apply _|apply work_acquire|]. intros _.
  apply kept_ret. apply _.
Qed.

(** C10. [import_all] on an empty list returns at once and leaves the
    whole state as it is: no session is opened, no row is written, no line
    is appended. On a non-empty list it opens one session, makes the calls
    of [acquire], commits and closes; only then, and only when no call
    raised, are the lines appended to the log. When a call raises, the
    exception leaves [import_all] after the commit, and the log files are
    as they were. *)
Theorem import_all_log_after_commit :
  (forall history_file (st : state), import_all [] history_file st = (Ok tt, st)) /\
  (forall xs history_file (st : state) r st',
     xs <> [] -> import_all xs history_file st = (r, st') ->
     exists w,
       Forall work_event w /\
       match r with
       | Ok _ =>
           trace st' =
             trace st ++ [EvEnter] ++ w ++ [EvCommit; EvClose] ++
               [EvAppend (history_target history_file) (history_lines xs)] /\
           files st' =
             <[history_target history_file :=
                 default [] (files st !! history_target history_file)
                   ++ history_lines xs]> (files st)
       | Raise _ =>
           trace st' = trace st ++ [EvEnter] ++ w ++ [EvCommit; EvClose] /\
           files st' = files st
       end).
Proof.
  split; [done|].
  intros xs history_file st r st' Hxs Hrun.
  destruct xs as [|x xs]; [done|]. clear Hxs.
  unfold Database.import_all in Hrun.
  set (body := for_each (fun x => bind (acquire x) (fun _ => ret tt)) (x :: xs))
    in Hrun.
  destruct (with_self_work body st (work_acquire_all (x :: xs)))
    as (r0 & st2 & s & Hbody & Hs & Hwork & Hw).
  destruct Hwork as [_ Hfiles _ (w & Htrace & Hworkev) _]. simpl in *.
  exists w. split; [done|].
  unfold bind in Hrun. rewrite Hw in Hrun.
  destruct r0 as [[]|e].
  - unfold append_lines in Hrun. simpl in Hrun. injection Hrun as <- <-.
    simpl. fold (history_target history_file). fold (history_lines (x :: xs)).
    rewrite Htrace, Hfiles. split; [|done].
    by rewrite <- !app_assoc.
  - injection Hrun as <- <-. simpl. rewrite Htrace, Hfiles. split; [|done].
    by rewrite <- !app_assoc.
Qed.


(** *** Merging a list of rows *)

Abbreviation rows := (gmap (string * K) row).

(** The rows of a session after [session.merge] of each row of a list. *)
Definition merge_rows (s : rows) (ws : list row) : rows :=
  foldl (fun s w => <[key_of pk w := w]> s) s ws.

Lemma merge_rows_snoc s ws w :
  merge_rows s (ws ++ [w]) = <[key_of pk w := w]> (merge_rows s ws).
Proof. unfold merge_rows. by rewrite foldl_app. Qed.

Lemma merge_rows_other s ws k :
  (forall w, w ∈ ws -> key_of pk w <> k) -> merge_rows s ws !! k = s !! k.
Proof.
  revert s. induction ws as [|w ws IH]; intros s Hk; simpl; [done|].
  rewrite IH by (intros w' Hw'; apply Hk, elem_of_cons; by right).
  apply lookup_insert_ne, Hk, elem_of_cons. by left.
Qed.

(** Two sessions that agree on a set of keys still do after the merges. *)
Lemma merge_rows_agree (P : string * K -> Prop) s1 s2 ws :
  (forall k, P k -> s1 !! k = s2 !! k) ->
  forall k, P k -> merge_rows s1 ws !! k = merge_rows s2 ws !! k.
Proof.
  revert s1 s2. induction ws as [|w ws IH]; intros s1 s2 Hagree k Hk; simpl.
  - by apply Hagree.
  - apply IH; [|done]. intros k' Hk'. rewrite !lookup_insert.
    case_decide; [done|by apply Hagree].
Qed.

(** Merging the same rows once more changes nothing. *)
Lemma merge_rows_twice s ws : merge_rows (merge_rows s ws) ws = merge_rows s ws.
Proof.
  induction ws as [|w ws IH] using rev_ind; [done|].
  rewrite !merge_rows_snoc. apply map_eq. intros k.
  destruct (decide (key_of pk w = k)) as [<-|Hne].
  - by rewrite !lookup_insert_eq.
  - rewrite !lookup_insert_ne by done.
    rewrite (merge_rows_agree (fun k' => key_of pk w <> k')
               (<[key_of pk w := w]> (merge_rows s ws)) (merge_rows s ws)); [|..|done].
    + by rewrite IH.
    + intros k' Hk'. by rewrite lookup_insert_ne.
Qed.

(** A session that already agrees with the merged rows on the tables that
    the list writes to is left as it is. *)
Lemma merge_rows_settled s s1 ws (T : string -> bool) :
  (forall w, w ∈ ws -> T (table_of w) = true) ->
  (forall k, T k.1 = true -> s1 !! k = merge_rows s ws !! k) ->
  merge_rows s1 ws = s1.
Proof.
  intros Hws Hs1. apply map_eq. intros k.
  destruct (T k.1) eqn:Hk.
  - rewrite (merge_rows_agree (fun k => T k.1 = true) s1 (merge_rows s ws));
      [|done..].
    rewrite merge_rows_twice. by rewrite Hs1.
  - apply merge_rows_other. intros w Hw <-. simpl in Hk.
    rewrite Hws in Hk; done.
Qed.

(** *** A loop of merges *)

Lemma merge_loop_run {A} (f : A -> row) l (st : state) s :
  session st = Some s ->
  for_each (fun x => session_merge pk (f x)) l st =
    (Ok tt, State (store st) (Some (merge_rows s (map f l))) (cache st)
              (files st) (trace st ++ map (fun x => EvMerge (f x)) l)).
Proof.
  revert st s. induction l as [|x l IH]; intros st s Hs; simpl.
  - unfold ret. rewrite app_nil_r. destruct st; simpl in *. by subst.
  - unfold bind, session_merge at 1. rewrite Hs.
    erewrite IH by done. simpl. by rewrite <- app_assoc.
Qed.

Lemma merge_loop_closed {A} (f : A -> row) l (st : state) st' :
  session st = None ->
  for_each (fun x => session_merge pk (f x)) l st = (Ok tt, st') ->
  l = [] /\ st' = st.
Proof.
  intros Hs. destruct l as [|x l]; simpl.
  - by intros [= <-].
  - unfold bind, session_merge at 1. by rewrite Hs.
Qed.


(** *** Acquiring twice *)

(** The six kinds of entities that have an address of their own. *)
Definition addressable (x : entity) : bool :=
  match x with
  | EAuthorQuery _ _ | EOther _ => false
  | _ => true
  end.

(** The tables that an author query writes to itself: every table but the
    one of the institutions it acquires. *)
Definition not_institution (t : string) : bool :=
  negb (String.eqb t "institution").

(** The institution id that an author query reads from what [acquire]
    returned, when the cache [c] holds it. *)
Definition inst_id_in (c : gmap hid (option row)) (i : Institution) : hid :=
  match c !! hashid (EInstitution i) with
  | Some v =>
      match attr_institution_id v with
      | Ok id => id
      | Raise _ => None
      end
  | None => None
  end.

Definition role_row (c : gmap hid (option row)) (aid : hid) (role : Role) : row :=
  AuthorInstitution_row aid (inst_id_in c (role_institution role))
    (role_role role) (role_start_date role) (role_end_date role).

Definition link_row (aid : hid) (link : Link) : row :=
  AuthorLink_row aid (link_type link) (link_link link).

Definition alias_row (aid : hid) (alias : string) : row :=
  AuthorAlias_row aid alias.

(** The body of the loop over [author.roles]. *)
Definition roles_body (rec : entity -> M (option row)) (aid : hid) (role : Role)
  : M unit :=
  bind (rec (EInstitution (role_institution role))) (fun inst =>
  bind (lift (attr_institution_id inst)) (fun institution_id =>
  session_merge pk
    (AuthorInstitution_row aid institution_id (role_role role)
       (role_start_date role) (role_end_date role)))).

Lemma _acquire_author_query rec aid a :
  _acquire rec (EAuthorQuery aid a) =
    bind (for_each (fun l => session_merge pk (link_row aid l)) (author_links a))
      (fun _ =>
    bind (for_each (fun al => session_merge pk (alias_row aid al)) (author_aliases a))
      (fun _ =>
    bind (for_each (roles_body rec aid) (author_roles a)) (fun _ => ret None))).
Proof. reflexivity. Qed.

Section Idempotence.

(** [hashid] gives each of the six kinds an address, a non-empty [bytes]
    object. *)
Hypothesis hashid_address :
  forall x, addressable x = true -> falsy (hashid x) = false.

Lemma kept_run {A} (R : state -> state -> Prop) (m : M A) st r st' :
  kept R m -> m st = (r, st') -> R st st'.
Proof. intros Hk Hm. specialize (Hk st). by rewrite Hm in Hk. Qed.

(** Acquiring an institution writes to its table only. *)
Lemma acquire_institution_run n i (st : state) v st' :
  acquire_fuel (S n) (EInstitution i) st = (Ok v, st') ->
  work st st' /\
  cache st' !! hashid (EInstitution i) = Some v /\
  (forall s, session st = Some s ->
     exists s', session st' = Some s' /\
       forall k, not_institution k.1 = true -> s' !! k = s !! k).
Proof.
  intros Hrun.
  split; [by eapply (kept_run work), Hrun; apply work_acquire_fuel|].
  simpl in Hrun. split; [by eapply acquire_with_cached|].
  intros s Hs.
  destruct (acquire_with_cases (EInstitution i) st) as [[Hf [v0 Hv0]]|Hmiss].
  - rewrite (acquire_with_hit _ _ _ _ Hf Hv0) in Hrun.
    injection Hrun as <- <-. simpl. eauto.
  - rewrite (acquire_with_miss _ _ _ Hmiss) in Hrun. simpl in Hrun.
    unfold bind, session_merge in Hrun. rewrite Hs in Hrun. simpl in Hrun.
    injection Hrun as <- <-. simpl. eexists. split; [done|].
    intros k Hk. apply lookup_insert_ne. intros <-. done.
Qed.

(** The first run of the loop over the roles. *)
Lemma roles_first_run n aid roles (st : state) st' :
  for_each (roles_body (acquire_fuel (S n)) aid) roles st = (Ok tt, st') ->
  work st st' /\
  (forall role, role ∈ roles ->
     exists v i,
       cache st' !! hashid (EInstitution (role_institution role)) = Some v /\
       attr_institution_id v = Ok i) /\
  (roles <> [] -> is_Some (session st)) /\
  (forall s, session st = Some s ->
     exists s', session st' = Some s' /\
       forall k, not_institution k.1 = true ->
         s' !! k = merge_rows s (map (role_row (cache st') aid) roles) !! k).
Proof.
  revert st. induction roles as [|role roles IH]; intros st; simpl.
  - intros [= <-]. split; [reflexivity|].
    split; [intros role Hr; by apply elem_of_nil in Hr|].
    split; [done|]. eauto.
  - intros Hrun.
    apply bind_inv_Ok in Hrun as ([] & stb & Hbody & Hrest).
    unfold roles_body in Hbody.
    apply bind_inv_Ok in Hbody as (v & sta & Hacq & Hbody).
    apply bind_inv_Ok in Hbody as (i & sta' & Hattr & Hmerge).
    unfold lift in Hattr. injection Hattr as Hattr <-.
    destruct (acquire_institution_run _ _ _ _ _ Hacq) as (Hwa & Hca & Hsa).
    pose proof (kept_run work _ _ _ _ (work_merge _) Hmerge) as Hwb.
    destruct (IH _ Hrest) as (Hwr & Hcr & _ & Hsr).
    assert (work st st') as Hw.
    { etransitivity; [exact Hwa|]. etransitivity; [exact Hwb|done]. }
    assert (cache st' !! hashid (EInstitution (role_institution role)) = Some v)
      as Hcv.
    { apply (work_cache _ _ Hwr); [by apply hashid_address|].
      apply (work_cache _ _ Hwb); [by apply hashid_address|done]. }
    split; [done|]. split.
    { intros role' Hr. apply elem_of_cons in Hr as [->|Hr]; [eauto|auto]. }
    assert (is_Some (session sta)) as [sa0 Hsa0].
    { unfold session_merge in Hmerge. destruct (session sta); [eauto|done]. }
    split.
    { intros _. apply (work_session _ _ Hwa). eauto. }
    intros s Hs. destruct (Hsa s Hs) as (sa & Hsa1 & Hsa2).
    unfold session_merge in Hmerge. rewrite Hsa1 in Hmerge.
    injection Hmerge as <-. simpl in Hsr.
    destruct (Hsr _ eq_refl) as (s' & Hs' & Hk'). exists s'. split; [done|].
    intros k Hk. rewrite (Hk' k Hk).
    assert (role_row (cache st') aid role =
            AuthorInstitution_row aid i (role_role role)
              (role_start_date role) (role_end_date role)) as ->.
    { unfold role_row, inst_id_in. by rewrite Hcv, Hattr. }
    apply (merge_rows_agree (fun k => not_institution k.1 = true)); [|done].
    intros k0 Hk0. rewrite !lookup_insert. case_decide; [done|auto].
Qed.

Lemma for_each_cons_run {A} (f : A -> M unit) x l (st : state) st1 :
  f x st = (Ok tt, st1) -> for_each f (x :: l) st = for_each f l st1.
Proof. intros Hf. simpl. by erewrite bind_Ok. Qed.

(** The body of the loop when the cache holds the institution. *)
Lemma roles_body_hit n aid role (st : state) s v i :
  session st = Some s ->
  cache st !! hashid (EInstitution (role_institution role)) = Some v ->
  attr_institution_id v = Ok i ->
  roles_body (acquire_fuel (S n)) aid role st =
    (Ok tt,
     State (store st) (Some (<[key_of pk (role_row (cache st) aid role) :=
                                role_row (cache st) aid role]> s))
       (cache st) (files st)
       (trace st ++ [EvAcquired (EInstitution (role_institution role)) v;
                     EvMerge (role_row (cache st) aid role)])).
Proof.
  intros Hs Hv Hi. unfold roles_body.
  erewrite bind_Ok;
    [|simpl acquire_fuel; apply acquire_with_hit;
      [by apply hashid_address|done]].
  erewrite bind_Ok; [|unfold lift; by rewrite Hi].
  unfold session_merge. simpl. rewrite Hs.
  assert (role_row (cache st) aid role =
          AuthorInstitution_row aid i (role_role role)
            (role_start_date role) (role_end_date role)) as ->.
  { unfold role_row, inst_id_in. by rewrite Hv, Hi. }
  by rewrite <- app_assoc.
Qed.

(** A later run of the loop, once the cache holds the institutions. *)
Lemma roles_later_run n aid roles (st : state) s :
  session st = Some s ->
  (forall role, role ∈ roles ->
     exists v i,
       cache st !! hashid (EInstitution (role_institution role)) = Some v /\
       attr_institution_id v = Ok i) ->
  exists t,
    for_each (roles_body (acquire_fuel (S n)) aid) roles st =
      (Ok tt, State (store st)
                (Some (merge_rows s (map (role_row (cache st) aid) roles)))
                (cache st) (files st) (trace st ++ t)).
Proof.
  revert st s. induction roles as [|role roles IH]; intros st s Hs Hc.
  - exists []. simpl. unfold ret. rewrite app_nil_r.
    destruct st; simpl in *. by subst.
  - destruct (Hc role) as (v & i & Hv & Hi); [apply elem_of_cons; by left|].
    rewrite (for_each_cons_run _ _ _ _ _ (roles_body_hit n aid role st s v i Hs Hv Hi)).
    match goal with |- context [for_each _ roles ?st1] =>
      destruct (IH st1 (<[key_of pk (role_row (cache st) aid role) :=
                          role_row (cache st) aid role]> s)) as (t & Ht)
    end; [done| |].
    { intros role' Hr. simpl. apply Hc, elem_of_cons. by right. }
    rewrite Ht. simpl. eexists. by rewrite <- !app_assoc.
Qed.

Lemma merge_rows_app s ws1 ws2 :
  merge_rows s (ws1 ++ ws2) = merge_rows (merge_rows s ws1) ws2.
Proof. unfold merge_rows. by rewrite foldl_app. Qed.

Lemma role_row_agree c1 c2 aid roles :
  (forall h, falsy h = false -> c2 !! h = c1 !! h) ->
  map (role_row c2 aid) roles = map (role_row c1 aid) roles.
Proof.
  intros Hc. apply map_ext. intros role. unfold role_row, inst_id_in.
  by rewrite Hc by (by apply hashid_address).
Qed.

(** The rows that an author query merges itself. *)
Definition query_rows (c : gmap hid (option row)) (aid : hid) (a : Author)
  : list row :=
  map (link_row aid) (author_links a) ++
  map (alias_row aid) (author_aliases a) ++
  map (role_row c aid) (author_roles a).

Lemma query_rows_tables c aid a w :
  w ∈ query_rows c aid a -> not_institution (table_of w) = true.
Proof.
  unfold query_rows. rewrite !elem_of_app, !list_elem_of_fmap.
  intros [(l & -> & _)|[(al & -> & _)|(ro & -> & _)]]; done.
Qed.

(** Running the body of an author query again, from a state with the same
    rows and a cache that still holds the addresses, changes no row. *)
Lemma author_query_rerun n aid a (st st1 st2 : state) r :
  _acquire (acquire_fuel (S n)) (EAuthorQuery aid a) st = (Ok r, st1) ->
  session st2 = session st1 ->
  (forall h, falsy h = false -> cache st2 !! h = cache st1 !! h) ->
  exists t,
    _acquire (acquire_fuel (S n)) (EAuthorQuery aid a) st2 =
      (Ok r, State (store st2) (session st2) (cache st2) (files st2)
               (trace st2 ++ t)).
Proof.
  rewrite !_acquire_author_query. intros Hrun Hsess Hcache.
  apply bind_inv_Ok in Hrun as ([] & sta & HL & Hrun).
  apply bind_inv_Ok in Hrun as ([] & stb & HA & Hrun).
  apply bind_inv_Ok in Hrun as ([] & stc & HR & Hrun).
  injection Hrun as <- <-.
  destruct (roles_first_run _ _ _ _ _ HR) as (Hw & Hc & Hopen & Hs).
  destruct (session st) as [s|] eqn:Hst.
  - (* the session is open *)
    rewrite (merge_loop_run _ _ _ s Hst) in HL. injection HL as <-.
    erewrite merge_loop_run in HA by reflexivity. injection HA as <-.
    simpl in Hs. destruct (Hs _ eq_refl) as (s1 & Hs1 & Hk). clear Hs.
    rewrite Hs1 in Hsess.
    erewrite bind_Ok; [|by apply merge_loop_run].
    erewrite bind_Ok; [|apply merge_loop_run; reflexivity].
    edestruct (roles_later_run n aid (author_roles a)) as (t & Ht);
      [| |erewrite bind_Ok; [|exact Ht]].
    { reflexivity. }
    { intros role Hr. simpl. destruct (Hc role Hr) as (v & i & Hv & Hi).
      exists v, i. split; [|done].
      rewrite Hcache by (by apply hashid_address). done. }
    simpl. unfold ret. eexists. f_equal. f_equal; [|by rewrite <- !app_assoc].
    rewrite Hsess. f_equal.
    rewrite (role_row_agree (cache stc) (cache st2)) by done.
    rewrite <- !merge_rows_app.
    apply (merge_rows_settled s s1 _ not_institution).
    + intros w Hw'. by eapply (query_rows_tables (cache stc) aid a).
    + intros k Hk'. rewrite (Hk k Hk'). by rewrite !merge_rows_app.
  - (* no session: nothing was merged *)
    destruct (merge_loop_closed _ _ _ _ Hst HL) as [HL0 ->].
    destruct (merge_loop_closed _ _ _ _ Hst HA) as [HA0 ->].
    assert (author_roles a = []) as HR0.
    { destruct (author_roles a); [done|].
      destruct Hopen as [? ?]; [done|]. congruence. }
    rewrite HL0, HA0, HR0. simpl. exists []. unfold bind, ret. simpl.
    rewrite app_nil_r. by destruct st2.
Qed.

Lemma acquire_unfold x :
  acquire x = acquire_with (_acquire (acquire_fuel 3)) x.
Proof. reflexivity. Qed.

(** [acquire] again, from any state with the session rows and the cache
    that the first call left. *)
Lemma acquire_again (T : entity) (st : state) r st1 (st2 : state) :
  acquire T st = (Ok r, st1) ->
  session st2 = session st1 -> cache st2 = cache st1 ->
  exists st3,
    acquire T st2 = (Ok r, st3) /\
    session st3 = session st2 /\
    store st3 = store st2.
Proof.
  intros Hrun Hsess Hcache. rewrite acquire_unfold in *.
  pose proof (acquire_with_cached _ _ _ _ _ Hrun) as Hc.
  destruct (falsy (hashid T)) eqn:Hf.
  - (* no address: the body runs again *)
    rewrite acquire_with_miss in Hrun by (by left).
    rewrite acquire_with_miss by (by left).
    destruct T as [p|a|i|re|t|v|aid a|c];
      try (rewrite hashid_address in Hf by done; done).
    destruct (_acquire (acquire_fuel 3) (EAuthorQuery aid a) st)
      as [[r0|e] st0] eqn:Hbody; [|done].
    injection Hrun as <- <-.
    edestruct (author_query_rerun 2 aid a st st0 st2) as (t & Ht);
      [exact Hbody| | |rewrite Ht].
    + by rewrite Hsess.
    + intros h Hh. rewrite Hcache. simpl. apply lookup_insert_ne.
      intros <-. congruence.
    + eexists. split; [done|]. done.
  - (* an address: the cache answers *)
    rewrite (acquire_with_hit _ _ r) by (by rewrite ?Hcache).
    eexists. split; [done|]. done.
Qed.

(** C1. [hashid] gives each of the six kinds of entities a non-empty
    address. Then whenever [acquire T] returns a row, a second [acquire T]
    returns the same row and leaves the rows of the session and the
    committed rows exactly as the first call left them: no row is added and
    no stored value is changed. The same holds when the second call is made
    in a unit of work of its own, after the first one was committed. *)
Theorem acquire_idempotent (T : entity) (st : state) r st1 :
  acquire T st = (Ok r, st1) ->
  (exists st2,
     acquire T st1 = (Ok r, st2) /\
     session st2 = session st1 /\
     store st2 = store st1) /\
  (forall s, session st1 = Some s ->
     exists st3,
       with_self (acquire T) (__exit__ st1).2 = (Ok r, st3) /\
       store (__exit__ st1).2 = s /\
       store st3 = s).
Proof.
  intros Hrun. split; [by eapply acquire_again|].
  intros s Hs.
  edestruct (acquire_again T st r st1 (__enter__ (__exit__ st1).2).2)
    as (st3 & Hrun3 & Hsess3 & Hstore3); [done| | |].
  - unfold __exit__. by rewrite Hs.
  - unfold __exit__. by rewrite Hs.
  - unfold __exit__ in *. rewrite Hs in *. simpl in *.
    erewrite with_self_run; [|exact Hrun3|exact Hsess3].
    eexists. split; [done|]. done.
Qed.

End Idempotence.


(** *** The order of the writes *)

(** The columns of a row that hold the address of a child entity. *)
Definition child_refs (r : row) : list hid :=
  match r with
  | PaperAuthor_row _ a _ => [a]
  | paper_author_institution_row _ a i => [a; i]
  | paper_release_row _ re => [re]
  | paper_topic_row _ t => [t]
  | Release_row _ _ _ _ _ v => [v]
  | AuthorInstitution_row _ i _ _ _ => [i]
  | _ => []
  end.

Definition result_list {A} (r : result A) : list A :=
  match r with
  | Ok a => [a]
  | Raise _ => []
  end.

(** The addresses that can be read from what [acquire] returned. *)
Definition ids_of (r : option row) : list hid :=
  result_list (attr_author_id r) ++ result_list (attr_institution_id r) ++
  result_list (attr_release_id r) ++ result_list (attr_topic_id r) ++
  result_list (attr_venue_id r).

(** The addresses read from the rows that the calls of [acquire] in a
    trace returned, on top of [acq]. *)
Fixpoint acquired (acq : list hid) (t : list event) : list hid :=
  match t with
  | [] => acq
  | EvAcquired _ r :: t' => acquired (ids_of r ++ acq) t'
  | _ :: t' => acquired acq t'
  end.

(** Every row written in the trace refers to children acquired before. *)
Fixpoint refs_ok (acq : list hid) (t : list event) : Prop :=
  match t with
  | [] => True
  | EvAcquired _ r :: t' => refs_ok (ids_of r ++ acq) t'
  | EvMerge r :: t' => child_refs r ⊆ acq /\ refs_ok acq t'
  | EvInsert r :: t' => child_refs r ⊆ acq /\ refs_ok acq t'
  | _ :: t' => refs_ok acq t'
  end.

Lemma acquired_app acq t1 t2 :
  acquired acq (t1 ++ t2) = acquired (acquired acq t1) t2.
Proof.
  revert acq. induction t1 as [|ev t1 IH]; intros acq; [done|].
  destruct ev; simpl; apply IH.
Qed.

Lemma acquired_incl acq t : acq ⊆ acquired acq t.
Proof.
  revert acq. induction t as [|ev t IH]; intros acq; [done|].
  destruct ev; simpl; try apply IH.
  intros c Hc. apply IH, elem_of_app. by right.
Qed.

Lemma refs_ok_app acq t1 t2 :
  refs_ok acq (t1 ++ t2) <-> refs_ok acq t1 /\ refs_ok (acquired acq t1) t2.
Proof.
  clear. revert acq. induction t1 as [|ev t1 IH]; intros acq; simpl; [tauto|].
  destruct ev; simpl; rewrite ?IH; tauto.
Qed.

(** [traced need m post]: when the addresses [need] were acquired before,
    the trace of a run of [m] is in order, and when [m] returns [a] the
    addresses [post a] were acquired by then. *)
Definition traced {A} (need : list hid) (m : M A) (post : A -> list hid) : Prop :=
  forall (st : state) acq,
    need ⊆ acq ->
    exists t,
      trace (m st).2 = trace st ++ t /\
      refs_ok acq t /\
      forall a, (m st).1 = Ok a -> post a ⊆ acquired acq t.

Definition no_ids {A} : A -> list hid := fun _ => [].

Lemma nil_incl (l : list hid) : [] ⊆ l.
Proof. intros c Hc. by apply elem_of_nil in Hc. Qed.

Lemma traced_ret {A} need (a : A) : traced need (ret a) no_ids.
Proof.
  intros st acq _. exists []. simpl. rewrite app_nil_r.
  split; [done|]. split; [done|]. intros; apply nil_incl.
Qed.

Lemma traced_raise {A} need e (post : A -> list hid) : traced need (raise e) post.
Proof.
  intros st acq _. exists []. simpl. rewrite app_nil_r.
  split; [done|]. split; [done|]. done.
Qed.

Lemma traced_post {A} need (m : M A) (post : A -> list hid) :
  traced need m post -> traced need m no_ids.
Proof.
  intros Hm st acq Hacq. destruct (Hm st acq Hacq) as (t & Ht & Hok & _).
  exists t. split; [done|]. split; [done|]. intros; apply nil_incl.
Qed.

Lemma traced_bind {A B} need (m : M A) (k : A -> M B) post post' :
  traced need m post ->
  (forall a, traced (post a ++ need) (k a) post') ->
  traced need (bind m k) post'.
Proof.
  intros Hm Hk st acq Hacq. unfold bind.
  destruct (Hm st acq Hacq) as (t1 & Ht1 & Hok1 & Hpost1).
  destruct (m st) as [[a|e] st1]; simpl in *.
  - destruct (Hk a st1 (acquired acq t1)) as (t2 & Ht2 & Hok2 & Hpost2).
    { intros c Hc. apply elem_of_app in Hc as [Hc|Hc].
      - by apply (Hpost1 a).
      - by apply acquired_incl, Hacq. }
    exists (t1 ++ t2). split; [by rewrite Ht2, Ht1, app_assoc|].
    split; [by apply refs_ok_app|].
    intros b Hb. rewrite acquired_app. auto.
  - exists t1. split; [done|]. split; [done|]. done.
Qed.

(** Reading an attribute: the code goes on only when the read succeeds. *)
Lemma traced_bind_lift {A B} need (r : result A) (k : A -> M B) post' :
  (forall a, r = Ok a -> traced need (k a) post') ->
  traced need (bind (lift r) k) post'.
Proof.
  intros Hk st acq Hacq. unfold bind, lift. destruct r as [a|e].
  - by apply Hk.
  - exists []. simpl. rewrite app_nil_r. done.
Qed.

Lemma traced_for_each {A} need (f : A -> M unit) l :
  (forall x, traced need (f x) no_ids) -> traced need (for_each f l) no_ids.
Proof.
  intros Hf. induction l as [|x l IH]; simpl.
  - apply traced_ret.
  - eapply traced_bind; [apply Hf|]. intros u. exact (IH _) || exact IH.
Qed.

Lemma traced_for_enumerate {A} need (f : nat -> A -> M unit) i l :
  (forall j x, traced need (f j x) no_ids) ->
  traced need (for_enumerate f i l) no_ids.
Proof.
  intros Hf. revert i. induction l as [|x l IH]; intros i; simpl.
  - apply traced_ret.
  - eapply traced_bind; [apply Hf|]. intros u. exact (IH _) || exact IH.
Qed.

Lemma traced_merge need r :
  child_refs r ⊆ need -> traced need (session_merge pk r) no_ids.
Proof.
  intros Hr st acq Hacq. unfold session_merge.
  destruct (session st); simpl.
  - exists [EvMerge r]. split; [done|]. simpl.
    split; [|intros; apply nil_incl]. split; [|done].
    intros c Hc. auto.
  - exists []. rewrite app_nil_r. done.
Qed.

Lemma traced_insert_ignore need r :
  child_refs r ⊆ need -> traced need (session_insert_ignore pk r) no_ids.
Proof.
  intros Hr st acq Hacq. unfold session_insert_ignore.
  destruct (session st); simpl.
  - exists [EvInsert r]. split; [done|]. simpl.
    split; [|intros; apply nil_incl]. split; [|done].
    intros c Hc. auto.
  - exists []. rewrite app_nil_r. done.
Qed.

Lemma traced_acquire_with need body x :
  (forall need', traced need' (body x) no_ids) ->
  traced need (acquire_with body x) ids_of.
Proof.
  intros Hbody st acq Hacq.
  destruct (acquire_with_cases x st) as [[Hf [v Hv]]|Hmiss].
  - rewrite (acquire_with_hit _ _ _ _ Hf Hv). simpl.
    exists [EvAcquired x v]. split; [done|]. simpl. split; [done|].
    intros a Ha c Hc. injection Ha as Ha. subst a. apply elem_of_app. by left.
  - rewrite (acquire_with_miss _ _ _ Hmiss).
    destruct (Hbody acq st acq) as (t & Ht & Hok & _); [done|].
    destruct (body x st) as [[r|e] st']; simpl in *.
    + exists (t ++ [EvAcquired x r]). split; [by rewrite Ht, app_assoc|].
      split; [apply refs_ok_app; by split|].
      intros a Ha c Hc. injection Ha as Ha. subst a.
      rewrite acquired_app. simpl. apply elem_of_app. by left.
    + exists t. done.
Qed.


Lemma attr_author_id_ids r i : attr_author_id r = Ok i -> i ∈ ids_of r.
Proof. intros Hr. unfold ids_of. rewrite Hr. apply elem_of_app. left. by left. Qed.

Lemma attr_institution_id_ids r i : attr_institution_id r = Ok i -> i ∈ ids_of r.
Proof.
  intros Hr. unfold ids_of. rewrite Hr. rewrite !elem_of_app. right. left. by left.
Qed.

Lemma attr_release_id_ids r i : attr_release_id r = Ok i -> i ∈ ids_of r.
Proof.
  intros Hr. unfold ids_of. rewrite Hr. rewrite !elem_of_app.
  right. right. left. by left.
Qed.

Lemma attr_topic_id_ids r i : attr_topic_id r = Ok i -> i ∈ ids_of r.
Proof.
  intros Hr. unfold ids_of. rewrite Hr. rewrite !elem_of_app.
  right. right. right. left. by left.
Qed.

Lemma attr_venue_id_ids r i : attr_venue_id r = Ok i -> i ∈ ids_of r.
Proof.
  intros Hr. unfold ids_of. rewrite Hr. rewrite !elem_of_app.
  right. right. right. right. by left.
Qed.

(** The side condition of a write: its child addresses were read from rows
    that [acquire] returned. *)
Ltac solve_refs :=
  let c := fresh "c" in
  let Hc := fresh "Hc" in
  intros c Hc; simpl in Hc;
  repeat (apply elem_of_cons in Hc as [->|Hc]);
  try (by apply elem_of_nil in Hc);
  unfold no_ids; simpl; rewrite ?elem_of_app;
  eauto 12 using attr_author_id_ids, attr_institution_id_ids,
    attr_release_id_ids, attr_topic_id_ids, attr_venue_id_ids.

Ltac traced_go Hrec :=
  lazymatch goal with
  | |- traced _ (ret _) _ => apply traced_ret
  | |- traced _ (raise _) _ => apply traced_raise
  | |- traced _ (for_each _ _) _ =>
      apply traced_for_each; intros ?; traced_go Hrec
  | |- traced _ (for_enumerate _ _ _) _ =>
      apply traced_for_enumerate; intros ? ?; traced_go Hrec
  | |- traced _ (bind (lift _) _) _ =>
      apply traced_bind_lift; intros ? ?; traced_go Hrec
  | |- traced _ (bind _ _) _ =>
      eapply traced_bind; [traced_go Hrec | intros ?; traced_go Hrec]
  | |- traced _ (session_merge _ _) _ => apply traced_merge; solve_refs
  | |- traced _ (session_insert_ignore _ _) _ =>
      apply traced_insert_ignore; solve_refs
  | |- _ => apply Hrec
  end.

Lemma traced__acquire need (rec : entity -> M (option row)) x :
  (forall need' y, traced need' (rec y) ids_of) ->
  traced need (_acquire rec x) no_ids.
Proof.
  intros Hrec. eapply traced_post.
  destruct x; simpl; traced_go Hrec.
Qed.

Lemma traced_acquire_fuel n need x : traced need (acquire_fuel n x) ids_of.
Proof.
  revert need x. induction n as [|n IH]; intros need x; simpl.
  - apply traced_raise.
  - apply traced_acquire_with. intros need'. by apply traced__acquire.
Qed.

(** The trace read by position. *)
Lemma refs_ok_lookup acq t i r c :
  refs_ok acq t ->
  t !! i = Some (EvMerge r) \/ t !! i = Some (EvInsert r) ->
  c ∈ child_refs r ->
  c ∈ acq \/
  exists j y r', (j < i)%nat /\ t !! j = Some (EvAcquired y r') /\ c ∈ ids_of r'.
Proof.
  clear. revert acq i. induction t as [|ev t IH]; intros acq i Hok Hi Hc.
  - destruct Hi as [Hi|Hi]; done.
  - destruct i as [|i].
    + simpl in Hi. left.
      destruct Hi as [[= ->]|[= ->]]; simpl in Hok; by apply Hok.
    + simpl in Hi.
      assert (exists acq', refs_ok acq' t /\
                (forall c, c ∈ acq' -> c ∈ acq \/
                   exists y r', ev = EvAcquired y r' /\ c ∈ ids_of r')) as
        (acq' & Hok' & Hacq').
      { destruct ev; simpl in Hok;
          try (exists acq; split; [tauto|by left]).
        exists (ids_of r0 ++ acq). split; [done|].
        intros c0 Hc0. apply elem_of_app in Hc0 as [?|?]; eauto. }
      destruct (IH acq' i Hok' Hi Hc) as [Hin|(j & y & r' & Hj & Hev & Hid)].
      * destruct (Hacq' c Hin) as [?|(y & r' & -> & Hid)]; [by left|].
        right. exists 0%nat, y, r'. split; [lia|done].
      * right. exists (S j), y, r'. split; [lia|done].
Qed.


(** A body that starts with a merge: with the session open, that merge is
    the first thing it does. *)
Lemma first_merge_trace {A} r (k : unit -> M A) (st : state) s :
  session st = Some s -> kept work (k tt) ->
  exists t, trace (bind (session_merge pk r) k st).2 = trace st ++ EvMerge r :: t.
Proof.
  intros Hs Hk. unfold bind, session_merge. rewrite Hs.
  match goal with |- context [k tt ?st1] => specialize (Hk st1) end.
  destruct Hk as [_ _ _ (t & Ht & _) _]. exists t. rewrite Ht. simpl.
  by rewrite <- app_assoc.
Qed.

Lemma paper_row_first (rec : entity -> M (option row)) p (st : state) s :
  (forall y, kept work (rec y)) -> session st = Some s ->
  exists t,
    trace (_acquire rec (EPaper p) st).2 =
      trace st ++
        EvMerge (Paper_row (hashid (EPaper p)) (paper_title p)
                   (paper_abstract p) (paper_citation_count p)) :: t.
Proof.
  intros Hrec Hs. simpl. eapply first_merge_trace; [done|].
  repeat first
    [ apply kept_ret | apply kept_lift | apply work_merge
    | apply work_insert_ignore | apply Hrec
    | apply kept_bind | apply kept_for_each | apply kept_for_enumerate
    | apply work_preorder | intro ].
Qed.

Lemma author_row_first (rec : entity -> M (option row)) a (st : state) s :
  (forall y, kept work (rec y)) -> session st = Some s ->
  exists t,
    trace (_acquire rec (EAuthor a) st).2 =
      trace st ++ EvMerge (Author_row (hashid (EAuthor a)) (author_name a)) :: t.
Proof.
  intros Hrec Hs. simpl. eapply first_merge_trace; [done|].
  repeat first
    [ apply kept_ret | apply Hrec | apply kept_bind
    | apply work_preorder | intro ].
Qed.

(** The trace of a call of [acquire] that runs the body starts with the
    trace of the body. *)
Lemma acquire_miss_trace x (st : state) t0 :
  falsy (hashid x) = true \/ cache st !! hashid x = None ->
  (exists t, trace (_acquire (acquire_fuel 3) x st).2 = trace st ++ t0 ++ t) ->
  exists t, trace (acquire x st).2 = trace st ++ t0 ++ t.
Proof.
  intros Hmiss [t Ht]. rewrite acquire_unfold, (acquire_with_miss _ _ _ Hmiss).
  destruct (_acquire (acquire_fuel 3) x st) as [[r|e] st']; simpl in *.
  - exists (t ++ [EvAcquired x r]). by rewrite Ht, <- !app_assoc.
  - by exists t.
Qed.

(** The property as the specification words it, for a paper and its
    authors: the paper's own row is written only after the authors have been
    acquired. *)
Definition own_row_after_children : Prop :=
  forall (p : Paper) (st : state) (i j : nat) (a : Author) r,
    let t := trace (acquire (EPaper p) st).2 in
    t !! i = Some (EvMerge (Paper_row (hashid (EPaper p)) (paper_title p)
                              (paper_abstract p) (paper_citation_count p))) ->
    a ∈ paper_authors p ->
    t !! j = Some (EvAcquired (EAuthor a) r) ->
    (j < i)%nat.

(** C4 (as the code has it). In the trace of any call of [acquire], every
    row that is merged or inserted carries, in its columns for child
    entities (the author and institution of a paper-author or
    paper-author-institution row, the release, the topic, the venue of a
    release row, the institution of an author-institution row), only
    addresses read from rows that earlier calls of [acquire] in that trace
    returned: the child is acquired before the row that refers to it is
    written. The rows of a paper and of an author themselves carry no child
    address, and when the body runs with the session open they are the
    first thing written, before any child is acquired. *)
Theorem references_after_children (x : entity) (st : state) :
  (exists t,
     trace (acquire x st).2 = trace st ++ t /\
     forall i r c,
       t !! i = Some (EvMerge r) \/ t !! i = Some (EvInsert r) ->
       c ∈ child_refs r ->
       exists j y r',
         (j < i)%nat /\ t !! j = Some (EvAcquired y r') /\ c ∈ ids_of r') /\
  (forall s,
     session st = Some s ->
     falsy (hashid x) = true \/ cache st !! hashid x = None ->
     (forall p, x = EPaper p ->
        exists t,
          trace (acquire x st).2 =
            trace st ++
              [EvMerge (Paper_row (hashid x) (paper_title p) (paper_abstract p)
                          (paper_citation_count p))] ++ t) /\
     (forall a, x = EAuthor a ->
        exists t,
          trace (acquire x st).2 =
            trace st ++ [EvMerge (Author_row (hashid x) (author_name a))] ++ t)).
Proof.
  split.
  - destruct (traced_acquire_fuel 4 [] x st []) as (t & Ht & Hok & _); [done|].
    exists t. split; [done|]. intros i r c Hi Hc.
    destruct (refs_ok_lookup [] t i r c Hok Hi Hc) as [Hin|?]; [|done].
    by apply elem_of_nil in Hin.
  - intros s Hs Hmiss. split.
    + intros p ->. apply acquire_miss_trace; [done|].
      eapply paper_row_first; [apply work_acquire_fuel|done].
    + intros a ->. apply acquire_miss_trace; [done|].
      eapply author_row_first; [apply work_acquire_fuel|done].
Qed.


(** *** The walk over the history directory *)

Variable parse_entity : string -> result entity.
Variable config_history_root : hist_arg.
Variable Path_of_str : string -> Path.

Abbreviation _accumulate_history_files_fuel :=
  (Database._accumulate_history_files_fuel Path_of_str).
Abbreviation _accumulate_history_files :=
  (Database._accumulate_history_files Path_of_str).
Abbreviation replay :=
  (Database.replay pk hashid parse_entity config_history_root Path_of_str).

(** The test that the two filters make on a path. *)
Definition keep (before after : option string) (x : Path) : bool :=
  (if str_truthy before
   then String.ltb (name_prefix (default "" before) x) (default "" before)
   else true) &&
  (if str_truthy after
   then String.ltb (default "" after) (name_prefix (default "" after) x)
   else true).

(** [selected before after p f]: the file [f] is reached from [p] through
    children that all pass the filters; [p] itself is not filtered. *)
Inductive selected (before after : option string) : Path -> Path -> Prop :=
| selected_file p : is_dir p = false -> selected before after p p
| selected_child p c f :
    is_dir p = true -> c ∈ iterdir p -> keep before after c = true ->
    selected before after c f -> selected before after p f.

Lemma insert_sorted_Permutation {A} (ltb : A -> A -> bool) x l :
  insert_sorted ltb x l ≡ₚ x :: l.
Proof.
  induction l as [|y l IH]; simpl; [done|].
  destruct (ltb y x); [|done]. rewrite IH. apply Permutation_swap.
Qed.

Lemma sorted_Permutation {A} (ltb : A -> A -> bool) l : sorted ltb l ≡ₚ l.
Proof.
  induction l as [|x l IH]; simpl; [done|].
  rewrite insert_sorted_Permutation. by rewrite IH.
Qed.

Lemma filters_keep before after l :
  filter_after after (filter_before before l) = List.filter (keep before after) l.
Proof.
  unfold filter_after, filter_before, keep.
  destruct before as [b|], after as [a|]; simpl.
  - destruct (negb (b =? "")%string), (negb (a =? "")%string); simpl.
    + induction l as [|x l IH]; simpl; [done|].
      destruct (String.ltb (name_prefix b x) b); simpl; [|done].
      destruct (String.ltb a (name_prefix a x)); simpl; by rewrite IH.
    + induction l as [|x l IH]; simpl; [done|].
      rewrite andb_true_r. destruct (String.ltb (name_prefix b x) b); by rewrite IH.
    + done.
    + induction l as [|x l IH]; simpl; [done|]. by rewrite <- IH.
  - destruct (negb (b =? "")%string); simpl.
    + induction l as [|x l IH]; simpl; [done|].
      rewrite andb_true_r. destruct (String.ltb (name_prefix b x) b); by rewrite IH.
    + induction l as [|x l IH]; simpl; [done|]. by rewrite <- IH.
  - destruct (negb (a =? "")%string); simpl; [done|].
    induction l as [|x l IH]; simpl; [done|]. by rewrite <- IH.
  - induction l as [|x l IH]; simpl; [done|]. by rewrite <- IH.
Qed.

(** The children that the walk goes into. *)
Definition kept_children (before after : option string) (p : Path) : list Path :=
  List.filter (keep before after) (sorted Path_ltb (iterdir p)).

Lemma elem_of_kept_children before after p c :
  c ∈ kept_children before after p <->
  c ∈ iterdir p /\ keep before after c = true.
Proof.
  unfold kept_children. rewrite list_elem_of_In, filter_In, <- list_elem_of_In.
  by rewrite sorted_Permutation.
Qed.

Lemma height_child n cs c : c ∈ cs -> (height c < height (Dir n cs))%nat.
Proof.
  simpl. induction cs as [|c' cs IH]; intros Hc.
  - by apply elem_of_nil in Hc.
  - apply elem_of_cons in Hc as [->|Hc]; [lia|].
    specialize (IH Hc). lia.
Qed.

Lemma path_height_child p c :
  c ∈ iterdir p -> (path_height c < path_height p)%nat.
Proof.
  unfold iterdir, path_height. destruct (entry p) as [[n ls|n cs]|]; simpl.
  - intros Hc. by apply elem_of_nil in Hc.
  - intros Hc. apply list_elem_of_fmap in Hc as (e & -> & He).
    by apply (height_child n).
  - intros Hc. by apply elem_of_nil in Hc.
Qed.

(** The loop over the kept children appends the files of each in turn. *)
Lemma accumulate_each_spec (Q : Path -> list Path -> Prop)
    (rec : Path -> list Path -> result (list Path)) ks :
  (forall k, k ∈ ks ->
     exists l, (forall results, rec k results = Ok (results ++ l)) /\ Q k l) ->
  exists ls,
    Forall2 Q ks ls /\
    forall results, accumulate_each rec ks results = Ok (results ++ concat ls).
Proof.
  induction ks as [|k ks IH]; intros Hks.
  - exists []. split; [constructor|]. intros results. simpl. by rewrite app_nil_r.
  - destruct (Hks k) as (l & Hl & HQ); [apply elem_of_cons; by left|].
    destruct IH as (ls & Hls & Hrun).
    { intros k' Hk'. apply Hks, elem_of_cons. by right. }
    exists (l :: ls). split; [by constructor|].
    intros results. simpl. rewrite Hl, Hrun. by rewrite app_assoc.
Qed.


(** *** The order of strings and of paths *)

Lemma ascii_compare_refl a : Ascii.compare a a = Eq.
Proof. apply N.compare_refl. Qed.

Lemma ascii_compare_trans a b c :
  Ascii.compare a b = Lt -> Ascii.compare b c = Lt -> Ascii.compare a c = Lt.
Proof.
  unfold Ascii.compare. rewrite !N.compare_lt_iff. apply N.lt_trans.
Qed.

Lemma string_compare_refl s : String.compare s s = Eq.
Proof.
  induction s as [|a s IH]; simpl; [done|]. by rewrite ascii_compare_refl.
Qed.

Lemma string_compare_trans s1 s2 s3 :
  String.compare s1 s2 = Lt -> String.compare s2 s3 = Lt ->
  String.compare s1 s3 = Lt.
Proof.
  revert s2 s3. induction s1 as [|a s1 IH]; intros [|b s2] [|c s3]; simpl;
    try done.
  destruct (Ascii.compare a b) eqn:Hab; try done.
  - apply Ascii.compare_eq_iff in Hab as ->.
    destruct (Ascii.compare b c); try done. apply IH.
  - destruct (Ascii.compare b c) eqn:Hbc; try done.
    + apply Ascii.compare_eq_iff in Hbc as <-. by rewrite Hab.
    + by rewrite (ascii_compare_trans _ _ _ Hab Hbc).
Qed.

Lemma ltb_irrefl s : String.ltb s s = false.
Proof. unfold String.ltb. by rewrite string_compare_refl. Qed.

Lemma ltb_trans s1 s2 s3 :
  String.ltb s1 s2 = true -> String.ltb s2 s3 = true -> String.ltb s1 s3 = true.
Proof.
  unfold String.ltb.
  destruct (String.compare s1 s2) eqn:H12; try done.
  destruct (String.compare s2 s3) eqn:H23; try done.
  by rewrite (string_compare_trans _ _ _ H12 H23).
Qed.

Lemma ltb_asym s1 s2 : String.ltb s1 s2 = true -> String.ltb s2 s1 = false.
Proof.
  unfold String.ltb. rewrite (String.compare_antisym s2 s1).
  by destruct (String.compare s1 s2).
Qed.

Lemma ltb_trichotomy s1 s2 :
  s1 <> s2 -> String.ltb s1 s2 = true \/ String.ltb s2 s1 = true.
Proof.
  intros Hne. unfold String.ltb. rewrite (String.compare_antisym s2 s1).
  destruct (String.compare s1 s2) eqn:Hc; simpl; auto.
  by apply String.compare_eq_iff in Hc.
Qed.

(** "Not greater" is transitive. *)
Lemma ltb_le_trans s1 s2 s3 :
  String.ltb s2 s1 = false -> String.ltb s3 s2 = false ->
  String.ltb s3 s1 = false.
Proof.
  intros H21 H32. destruct (String.ltb s3 s1) eqn:H31; [|done].
  destruct (decide (s1 = s2)) as [->|Hne]; [congruence|].
  destruct (ltb_trichotomy _ _ Hne) as [H12|?]; [|congruence].
  rewrite (ltb_trans _ _ _ H31 H12) in H32. done.
Qed.

Lemma string_eqb_refl s : (s =? s)%string = true.
Proof. by apply String.eqb_eq. Qed.

(** Two paths that part ways after a common prefix compare as the
    components where they part. *)
Lemma parts_ltb_diverge P a b r1 r2 :
  String.ltb a b = true -> parts_ltb (P ++ a :: r1) (P ++ b :: r2) = true.
Proof.
  intros Hab. induction P as [|x P IH]; simpl.
  - by rewrite Hab.
  - by rewrite ltb_irrefl, string_eqb_refl.
Qed.

Lemma parts_ltb_siblings P a b :
  parts_ltb (P ++ [a]) (P ++ [b]) = String.ltb a b.
Proof.
  induction P as [|x P IH]; simpl.
  - destruct (String.ltb a b); [done|]. by destruct (a =? b)%string.
  - by rewrite ltb_irrefl, string_eqb_refl.
Qed.

(** *** [sorted] sorts *)

Section Sorted.
Context {A : Type} (ltb : A -> A -> bool).
Hypothesis ltb_le_transitive :
  forall x y z, ltb y x = false -> ltb z y = false -> ltb z x = false.
Hypothesis ltb_asymmetric : forall x y, ltb x y = true -> ltb y x = false.

Lemma insert_sorted_sorted x l :
  StronglySorted (fun a b => ltb b a = false) l ->
  StronglySorted (fun a b => ltb b a = false) (insert_sorted ltb x l).
Proof.
  induction 1 as [|y l Hl IH Hy]; simpl.
  - by repeat constructor.
  - destruct (ltb y x) eqn:Hyx.
    + constructor; [done|].
      rewrite insert_sorted_Permutation. constructor; [|done].
      by apply ltb_asymmetric.
    + constructor; [by constructor|]. constructor; [done|].
      eapply Forall_impl; [exact Hy|]. intros z Hz. simpl in Hz.
      by eapply ltb_le_transitive.
Qed.

Lemma sorted_sorted l : StronglySorted (fun a b => ltb b a = false) (sorted ltb l).
Proof.
  induction l as [|x l IH]; simpl; [constructor|]. by apply insert_sorted_sorted.
Qed.

End Sorted.

Lemma insert_sorted_ext {A} (f g : A -> A -> bool) x l :
  (forall y, y ∈ l -> f y x = g y x) ->
  insert_sorted f x l = insert_sorted g x l.
Proof.
  induction l as [|y l IH]; intros Hfg; simpl; [done|].
  rewrite (Hfg y) by (apply elem_of_cons; by left).
  destruct (g y x); [|done]. f_equal. apply IH.
  intros z Hz. apply Hfg, elem_of_cons. by right.
Qed.

Lemma sorted_ext {A} (f g : A -> A -> bool) l :
  (forall x y, x ∈ l -> y ∈ l -> f x y = g x y) -> sorted f l = sorted g l.
Proof.
  induction l as [|x l IH]; intros Hfg; simpl; [done|].
  rewrite IH.
  - apply insert_sorted_ext. intros y Hy.
    rewrite sorted_Permutation in Hy.
    apply Hfg; apply elem_of_cons; auto.
  - intros y z Hy Hz. apply Hfg; apply elem_of_cons; auto.
Qed.

Lemma StronglySorted_filter {A} (R : A -> A -> Prop) (f : A -> bool) l :
  StronglySorted R l -> StronglySorted R (List.filter f l).
Proof.
  clear. induction 1 as [|x l Hl IH Hx]; simpl; [constructor|].
  destruct (f x); [|done]. constructor; [done|].
  rewrite Forall_forall in Hx. apply Forall_forall. intros y Hy.
  apply Hx. apply list_elem_of_In. apply list_elem_of_In, filter_In in Hy. tauto.
Qed.


(** *** What the walk returns *)

(** In a directory no two entries have the same name. *)
Fixpoint unique_names (e : fsentry) : Prop :=
  match e with
  | File _ _ => True
  | Dir _ cs =>
      NoDup (map entry_name cs) /\
      (fix all (cs : list fsentry) : Prop :=
         match cs with
         | [] => True
         | c :: cs' => unique_names c /\ all cs'
         end) cs
  end.

Definition path_wf (p : Path) : Prop :=
  match entry p with
  | Some e => unique_names e
  | None => True
  end.

(** The order of two children by their names. *)
Definition name_ltb (x y : Path) : bool := String.ltb (name x) (name y).

Lemma name_child p c : name (child p c) = entry_name c.
Proof. unfold name, child. simpl. apply last_last. Qed.

Lemma iterdir_child p k :
  k ∈ iterdir p -> exists c, k = child p c /\ parts k = parts p ++ [name k].
Proof.
  unfold iterdir. destruct (entry p) as [[n ls|n cs]|];
    try (intros Hk; by apply elem_of_nil in Hk).
  intros Hk. apply list_elem_of_fmap in Hk as (c & -> & _).
  exists c. split; [done|]. by rewrite name_child.
Qed.

Lemma path_wf_child p k : path_wf p -> k ∈ iterdir p -> path_wf k.
Proof.
  unfold path_wf, iterdir. destruct (entry p) as [[n ls|n cs]|];
    try (intros _ Hk; by apply elem_of_nil in Hk).
  intros [_ Hall] Hk. apply list_elem_of_fmap in Hk as (c & -> & Hc). simpl.
  induction cs as [|c' cs IH]; [by apply elem_of_nil in Hc|].
  destruct Hall as [Hc' Hall].
  apply elem_of_cons in Hc as [->|Hc]; [done|auto].
Qed.

Lemma iterdir_names p :
  path_wf p -> NoDup (map name (iterdir p)).
Proof.
  unfold path_wf, iterdir. destruct (entry p) as [[n ls|n cs]|];
    try (intros _; constructor).
  intros [Hnd _]. rewrite map_map.
  erewrite map_ext; [exact Hnd|]. intros c. apply name_child.
Qed.

Lemma NoDup_map_filter {A B} (g : A -> B) (f : A -> bool) l :
  NoDup (map g l) -> NoDup (map g (List.filter f l)).
Proof.
  induction l as [|x l IH]; simpl; [done|].
  intros Hnd. apply NoDup_cons in Hnd as [Hx Hnd].
  destruct (f x); simpl; [|auto].
  apply NoDup_cons. split; [|auto].
  intros Hin. apply Hx.
  apply list_elem_of_In, in_map_iff in Hin as (y & Hy & Hin).
  apply filter_In in Hin as [Hin _].
  apply list_elem_of_In, in_map_iff. eauto.
Qed.

(** The kept children come in the strict order of their names. *)
Lemma kept_children_sorted before after p :
  path_wf p ->
  StronglySorted (fun a b => name_ltb a b = true) (kept_children before after p).
Proof.
  intros Hwf.
  assert (NoDup (map name (kept_children before after p))) as Hnd.
  { unfold kept_children. apply NoDup_map_filter.
    assert (map name (sorted Path_ltb (iterdir p)) ≡ₚ map name (iterdir p))
      as -> by apply Permutation_map, sorted_Permutation.
    by apply iterdir_names. }
  assert (StronglySorted (fun a b => name_ltb b a = false)
            (kept_children before after p)) as Hs.
  { unfold kept_children. apply StronglySorted_filter.
    rewrite (sorted_ext Path_ltb name_ltb).
    - apply sorted_sorted.
      + intros x y z. apply ltb_le_trans.
      + intros x y. apply ltb_asym.
    - intros x y Hx Hy.
      apply iterdir_child in Hx as (_ & _ & Hx).
      apply iterdir_child in Hy as (_ & _ & Hy).
      unfold Path_ltb, name_ltb. rewrite Hx, Hy. apply parts_ltb_siblings. }
  induction Hs as [|a l Hl IH Ha]; [constructor|].
  simpl in Hnd. apply NoDup_cons in Hnd as [Hna Hnd].
  constructor; [auto|].
  rewrite Forall_forall in Ha. apply Forall_forall. intros b Hb.
  specialize (Ha b Hb). simpl in Ha. unfold name_ltb in *.
  destruct (ltb_trichotomy (name a) (name b)) as [?|?]; [|done|congruence].
  intros Heq. apply Hna. rewrite Heq. apply list_elem_of_In, in_map.
  by apply list_elem_of_In.
Qed.

(** [walk_ok before after p l]: [l] holds exactly the files selected below
    [p], each below [p], in the strict order of paths. *)
Definition walk_ok (before after : option string) (p : Path) (l : list Path)
  : Prop :=
  (forall f, f ∈ l <-> selected before after p f) /\
  (forall f, f ∈ l -> exists rest, parts f = parts p ++ rest) /\
  StronglySorted (fun f g => Path_ltb f g = true) l.

Lemma Forall2_from_exists {A B} (Q : A -> B -> Prop) (ks : list A) :
  (forall k, k ∈ ks -> exists l, Q k l) -> exists ls, Forall2 Q ks ls.
Proof.
  induction ks as [|k ks IH]; intros Hks.
  - exists []. constructor.
  - destruct (Hks k) as [l Hl]; [apply elem_of_cons; by left|].
    destruct IH as [ls Hls].
    { intros k' Hk'. apply Hks, elem_of_cons. by right. }
    exists (l :: ls). by constructor.
Qed.

Lemma accumulate_each_run (rec : Path -> list Path -> result (list Path)) ks ls :
  Forall2 (fun k l => forall results, rec k results = Ok (results ++ l)) ks ls ->
  forall results, accumulate_each rec ks results = Ok (results ++ concat ls).
Proof.
  induction 1 as [|k l ks ls Hl _ IH]; intros results; simpl.
  - by rewrite app_nil_r.
  - rewrite Hl, IH. by rewrite app_assoc.
Qed.

(** The files of the kept children, one child after the other, are in the
    order of paths. *)
Lemma concat_sorted before after P ks ls :
  StronglySorted (fun a b => name_ltb a b = true) ks ->
  Forall (fun k => parts k = P ++ [name k]) ks ->
  Forall2 (walk_ok before after) ks ls ->
  StronglySorted (fun f g => Path_ltb f g = true) (concat ls).
Proof.
  intros Hs Hp Hw. revert Hs Hp.
  induction Hw as [|k l ks ls Hk Hw IH]; intros Hs Hp; simpl; [constructor|].
  apply StronglySorted_cons in Hs as [Hk' Hs].
  apply Forall_cons in Hp as [Hpk Hp].
  apply StronglySorted_app. split; [|split; [apply Hk|by apply IH]].
  intros f g Hf Hg.
  destruct Hk as (_ & Hpre & _). destruct (Hpre f Hf) as [r1 Hr1].
  apply list_elem_of_In, in_concat in Hg as (l' & Hl' & Hg).
  apply list_elem_of_In, list_elem_of_lookup in Hl' as [i Hi].
  destruct (Forall2_lookup_r _ _ _ _ _ Hw Hi) as (k' & Hk'i & (_ & Hpre' & _)).
  destruct (Hpre' g) as [r2 Hr2]; [by apply list_elem_of_In|].
  apply list_elem_of_lookup_2 in Hk'i.
  rewrite Forall_forall in Hk', Hp.
  unfold Path_ltb. rewrite Hr1, Hr2, Hpk, (Hp k' Hk'i), <- !app_assoc. simpl.
  apply parts_ltb_diverge. by apply Hk'.
Qed.

Lemma is_dir_height p : is_dir p = true -> (0 < path_height p)%nat.
Proof.
  unfold is_dir, path_height. destruct (entry p) as [[?|?]|]; try done.
  simpl. lia.
Qed.

(** The walk from a path, with fuel for the height of the tree below it. *)
Lemma accumulate_path before after n :
  forall p, (path_height p <= n)%nat -> path_wf p ->
  exists l,
    walk_ok before after p l /\
    forall fuel results, (2 * n + 1 <= fuel)%nat ->
      _accumulate_history_files_fuel fuel (HPath p) before after results =
        Ok (results ++ l).
Proof.
  induction n as [|n IH]; intros p Hh Hwf;
    destruct (is_dir p) eqn:Hdir;
    try (apply is_dir_height in Hdir; lia).
  - (* a file *)
    exists [p]. split; [split; [|split]|].
    + intros f. rewrite list_elem_of_singleton. split.
      * intros ->. by constructor.
      * inversion 1; [done|congruence].
    + intros f Hf. apply list_elem_of_singleton in Hf as ->.
      exists []. by rewrite app_nil_r.
    + repeat constructor.
    + intros [|fuel] results Hfuel; [lia|]. simpl. by rewrite Hdir.
  - (* a directory *)
    set (ks := kept_children before after p).
    destruct (Forall2_from_exists
                (fun k l =>
                   walk_ok before after k l /\
                   forall fuel results, (2 * n + 1 <= fuel)%nat ->
                     _accumulate_history_files_fuel fuel (HPath k) before after
                       results = Ok (results ++ l)) ks) as [ls Hls].
    { intros k Hk. apply elem_of_kept_children in Hk as [Hk _].
      apply IH; [|by eapply path_wf_child].
      apply path_height_child in Hk. lia. }
    assert (Forall2 (walk_ok before after) ks ls) as Hw.
    { eapply Forall2_impl; [exact Hls|]. by intros k l [? _]. }
    exists (concat ls). split; [split; [|split]|].
    + intros f. split.
      * intros Hf. apply list_elem_of_In, in_concat in Hf as (l & Hl & Hf).
        apply list_elem_of_In, list_elem_of_lookup in Hl as [i Hi].
        destruct (Forall2_lookup_r _ _ _ _ _ Hw Hi) as (k & Hk & (Hsel & _)).
        apply list_elem_of_lookup_2 in Hk.
        apply elem_of_kept_children in Hk as [Hk Hkeep].
        eapply selected_child; [done|exact Hk|done|].
        apply Hsel. by apply list_elem_of_In.
      * inversion 1 as [|? c ? _ Hc Hkeep Hsel]; subst; [congruence|].
        assert (c ∈ ks) as Hck by (by apply elem_of_kept_children).
        apply list_elem_of_lookup in Hck as [i Hi].
        destruct (Forall2_lookup_l _ _ _ _ _ Hw Hi) as (l & Hl & (Hsel' & _)).
        apply list_elem_of_In, in_concat. exists l.
        split; apply list_elem_of_In; [by eapply list_elem_of_lookup_2|].
        by apply Hsel'.
    + intros f Hf. apply list_elem_of_In, in_concat in Hf as (l & Hl & Hf).
      apply list_elem_of_In, list_elem_of_lookup in Hl as [i Hi].
      destruct (Forall2_lookup_r _ _ _ _ _ Hw Hi) as (k & Hk & (_ & Hpre & _)).
      apply list_elem_of_lookup_2 in Hk.
      apply elem_of_kept_children in Hk as [Hk _].
      apply iterdir_child in Hk as (_ & _ & Hk).
      destruct (Hpre f) as [rest Hrest]; [by apply list_elem_of_In|].
      exists (name k :: rest). rewrite Hrest, Hk. by rewrite <- app_assoc.
    + eapply (concat_sorted before after (parts p) ks);
        [by apply kept_children_sorted| |done].
      apply Forall_forall. intros k Hk.
      apply elem_of_kept_children in Hk as [Hk _].
      by apply iterdir_child in Hk as (_ & _ & Hk).
    + intros fuel results Hfuel.
      destruct fuel as [|[|fuel]]; [lia|lia|].
      simpl. rewrite Hdir. rewrite filters_keep. fold (kept_children before after p).
      fold ks. apply accumulate_each_run.
      eapply Forall2_impl; [exact Hls|].
      intros k l [_ Hrun] results'. apply Hrun. lia.
  - exists [p]. split; [split; [|split]|].
    + intros f. rewrite list_elem_of_singleton. split.
      * intros ->. by constructor.
      * inversion 1; [done|congruence].
    + intros f Hf. apply list_elem_of_singleton in Hf as ->.
      exists []. by rewrite app_nil_r.
    + repeat constructor.
    + intros [|fuel] results Hfuel; [lia|]. simpl. by rewrite Hdir.
Qed.


Lemma accumulate_root before after root :
  path_wf root ->
  exists files,
    walk_ok before after root files /\
    _accumulate_history_files (HPath root) before after [] = Ok files.
Proof.
  intros Hwf.
  destruct (accumulate_path before after (path_height root) root) as (l & Hl & Hrun);
    [done|done|].
  exists l. split; [done|]. unfold Database._accumulate_history_files.
  rewrite Hrun; [done|]. simpl. lia.
Qed.

(** *** [replay] *)

(** A call of [acquire] that returns ends its trace with its own return. *)
Lemma acquire_trace x (st : state) r st' :
  acquire x st = (Ok r, st') ->
  exists t, trace st' = trace st ++ t ++ [EvAcquired x r] /\ Forall work_event t.
Proof.
  rewrite acquire_unfold. intros Hrun.
  destruct (acquire_with_cases x st) as [[Hf [v Hv]]|Hmiss].
  - rewrite (acquire_with_hit _ _ _ _ Hf Hv) in Hrun.
    injection Hrun as <- <-. exists []. done.
  - rewrite (acquire_with_miss _ _ _ Hmiss) in Hrun.
    pose proof (kept__acquire work (acquire_fuel 3) x (work_merge)
                  (work_insert_ignore) (work_acquire_fuel 3) st) as Hw.
    destruct (_acquire (acquire_fuel 3) x st) as [[r0|e] st0]; [|done].
    injection Hrun as <- <-. simpl in *.
    destruct Hw as [_ _ _ (t & Ht & Hwt) _]. exists t.
    by rewrite Ht, <- app_assoc.
Qed.

(** The body of the loop over the lines of a file. *)
Definition line_body (l : string) : M unit :=
  bind (lift (parse_entity l)) (fun x =>
  bind (acquire x) (fun _ => ret tt)).

Definition lines_body (f : Path) : M unit :=
  bind (lift (readlines f)) (fun lines => for_each line_body lines).

Definition file_body (f : Path) : M unit :=
  bind (log (EvReplaying (parts f))) (fun _ => with_self (lines_body f)).

Lemma replay_unfold history before after :
  replay history before after =
    bind (lift (_accumulate_history_files
                  (if hist_truthy history
                   then default config_history_root history
                   else config_history_root) before after []))
      (fun history_files => for_each file_body history_files).
Proof. reflexivity. Qed.

Lemma work_line_body l : kept work (line_body l).
Proof.
  unfold line_body. apply kept_bind; [apply _|apply kept_lift; apply _|].
  intros x. apply kept_bind; [apply _|apply work_acquire|].
  intros _. apply kept_ret. apply _.
Qed.

Lemma work_lines_body f : kept work (lines_body f).
Proof.
  unfold lines_body. apply kept_bind; [apply _|apply kept_lift; apply _|].
  intros lines. apply kept_for_each; [apply _|]. apply work_line_body.
Qed.

(** Every line of a file that was replayed to its end was parsed and
    acquired. *)
Lemma lines_loop_run lines (st : state) st' :
  for_each line_body lines st = (Ok tt, st') ->
  exists xs w,
    Forall2 (fun l x => parse_entity l = Ok x) lines xs /\
    trace st' = trace st ++ w /\
    forall x, x ∈ xs -> exists r, EvAcquired x r ∈ w.
Proof.
  revert st. induction lines as [|l lines IH]; intros st; simpl.
  - intros [= <-]. exists [], []. split; [constructor|].
    split; [by rewrite app_nil_r|]. intros x Hx. by apply elem_of_nil in Hx.
  - intros Hrun. apply bind_inv_Ok in Hrun as ([] & sta & Hline & Hrest).
    unfold line_body in Hline.
    apply bind_inv_Ok in Hline as (x & stb & Hparse & Hline).
    unfold lift in Hparse. injection Hparse as Hparse <-.
    apply bind_inv_Ok in Hline as (r & stc & Hacq & Hret).
    injection Hret as <-.
    destruct (acquire_trace _ _ _ _ Hacq) as (t & Ht & _).
    destruct (IH _ Hrest) as (xs & w & Hxs & Hw & Hacqs).
    exists (x :: xs), ((t ++ [EvAcquired x r]) ++ w).
    split; [by constructor|]. split; [by rewrite Hw, Ht, !app_assoc|].
    intros y Hy. apply elem_of_cons in Hy as [->|Hy].
    + exists r. rewrite !elem_of_app. left. right. by apply list_elem_of_singleton.
    + destruct (Hacqs y Hy) as [r' Hr']. exists r'. apply elem_of_app. by right.
Qed.

(** What the trace holds for a file that was replayed. *)
Definition segment (f : Path) (w : list event) : list event :=
  [EvReplaying (parts f); EvEnter] ++ w ++ [EvCommit; EvClose].

Definition replayed (f : Path) (w : list event) : Prop :=
  Forall work_event w /\
  exists lines xs,
    readlines f = Ok lines /\
    Forall2 (fun l x => parse_entity l = Ok x) lines xs /\
    forall x, x ∈ xs -> exists r, EvAcquired x r ∈ w.

Lemma file_body_run f (st : state) st' :
  file_body f st = (Ok tt, st') ->
  exists w, replayed f w /\ trace st' = trace st ++ segment f w.
Proof.
  unfold file_body, bind at 1, log. intros Hrun.
  match type of Hrun with with_self _ ?st1 = _ => set (sta := st1) in * end.
  destruct (with_self_work (lines_body f) sta (work_lines_body f))
    as (r0 & st2 & s & Hbody & Hs & Hwork & Hw).
  rewrite Hw in Hrun. injection Hrun as -> <-.
  destruct Hwork as [_ _ _ (w & Ht & Hwe) _].
  exists w. split.
  - split; [done|]. unfold lines_body in Hbody.
    apply bind_inv_Ok in Hbody as (lines & stb & Hread & Hloop).
    unfold lift in Hread. injection Hread as Hread <-.
    destruct (lines_loop_run _ _ _ Hloop) as (xs & w' & Hxs & Hw' & Hacq).
    exists lines, xs. split; [done|]. split; [done|].
    rewrite Ht in Hw'. apply app_inv_head in Hw'. by subst w'.
  - simpl in *. rewrite Ht. unfold segment. by rewrite <- !app_assoc.
Qed.

Lemma files_loop_run fs (st : state) st' :
  for_each file_body fs st = (Ok tt, st') ->
  exists ws,
    Forall2 replayed fs ws /\
    trace st' = trace st ++ concat (zip_with segment fs ws).
Proof.
  revert st. induction fs as [|f fs IH]; intros st; simpl.
  - intros [= <-]. exists []. split; [constructor|]. by rewrite app_nil_r.
  - intros Hrun. apply bind_inv_Ok in Hrun as ([] & sta & Hfile & Hrest).
    destruct (file_body_run _ _ _ Hfile) as (w & Hw & Ht).
    destruct (IH _ Hrest) as (ws & Hws & Hts).
    exists (w :: ws). split; [by constructor|].
    rewrite Hts, Ht, <- app_assoc. reflexivity.
Qed.

Lemma bound_spec (bound : option string) (test : string -> bool) :
  (if str_truthy bound then test (default "" bound) else true) = true <->
  (forall b, bound = Some b -> b <> "" -> test b = true).
Proof.
  destruct bound as [b|]; simpl.
  - destruct (String.eqb_spec b "") as [->|Hne]; simpl.
    + split; [|done]. intros _ b' [= <-] Hb. done.
    + split.
      * intros Ht b' [= <-] _. done.
      * intros Hall. by apply Hall.
  - split; [|done]. intros _ b' Hb. done.
Qed.

Lemma keep_spec before after x :
  keep before after x = true <->
  (forall b, before = Some b -> b <> "" ->
     String.ltb (name_prefix b x) b = true) /\
  (forall a, after = Some a -> a <> "" ->
     String.ltb a (name_prefix a x) = true).
Proof.
  unfold keep. rewrite andb_true_iff.
  pose proof (bound_spec before (fun b => String.ltb (name_prefix b x) b)) as Hb.
  pose proof (bound_spec after (fun a => String.ltb a (name_prefix a x))) as Ha.
  simpl in Hb, Ha. by rewrite Hb, Ha.
Qed.

(** The property as the specification words it: the files applied are
    exactly the files below the root whose own name passes the filters. *)
Inductive under : Path -> Path -> Prop :=
| under_file p : is_dir p = false -> under p p
| under_child p c f :
    is_dir p = true -> c ∈ iterdir p -> under c f -> under p f.

Definition name_filter_only : Prop :=
  forall root before after files f,
    _accumulate_history_files (HPath root) before after [] = Ok files ->
    (f ∈ files <-> under root f /\ f <> root /\ keep before after f = true).

(** C6 (as the code has it). From a root whose directories hold no two
    entries of the same name, the walk returns the files reached from the
    root through entries that all pass the filters: a directory whose name
    fails a filter is skipped with all that it holds, and the root itself
    is not filtered. A filter compares the prefix of the name, of the
    length of the bound, with the bound as strings; a bound that is [None]
    or empty filters nothing. The files come in the strict order of their
    paths, each directory having been expanded to its sorted children.
    When [replay] returns, its trace is, for each of these files in that
    order, the announcement of the file, one session opened, the work of
    acquiring the entity parsed from every line of the file, and the commit
    and close of that session. *)
Theorem replay_walk_and_transactions (root : Path)
    (before after : option string) (st : state) :
  path_wf root ->
  exists files,
    _accumulate_history_files (HPath root) before after [] = Ok files /\
    (forall f, f ∈ files <-> selected before after root f) /\
    (forall x, keep before after x = true <->
       (forall b, before = Some b -> b <> "" ->
          String.ltb (name_prefix b x) b = true) /\
       (forall a, after = Some a -> a <> "" ->
          String.ltb a (name_prefix a x) = true)) /\
    StronglySorted (fun f g => Path_ltb f g = true) files /\
    (forall st',
       replay (Some (HPath root)) before after st = (Ok tt, st') ->
       exists ws,
         Forall2 replayed files ws /\
         trace st' = trace st ++ concat (zip_with segment files ws)).
Proof.
  intros Hwf.
  destruct (accumulate_root before after root Hwf)
    as (files & (Hsel & _ & Hsorted) & Hrun).
  exists files. split; [done|]. split; [done|]. split; [|split; [done|]].
  - apply keep_spec.
  - intros st' Hreplay. rewrite replay_unfold in Hreplay. simpl in Hreplay.
    rewrite Hrun in Hreplay. unfold bind, lift in Hreplay.
    by apply files_loop_run.
Qed.

End DatabaseProperties.

(** ** The properties on the sample schema *)

Module Runs.
Import Sample.

Abbreviation K := (list hid * list string)%type.

Lemma hashid_address x : addressable x = true -> falsy (hashid x) = false.
Proof. by destruct x. Qed.

Definition graphs : entity := ETopic (mkTopic "graphs").
Definition smith_query : entity := EAuthorQuery (Some [7]) smith.

(** A history file whose second line does not parse. *)
Definition broken_file : Path :=
  mkPath ["history"; "2023-01.jsonl"]
    (Some (File "2023-01.jsonl" ["Tgraphs"; "garbage"])).

Definition broken_body : Database.M (K:=K) unit :=
  lines_body pk hashid parse_entity broken_file.

(** A history with a file in a directory whose name sorts after the
    bound. *)
Definition old_file : fsentry := File "2023-01.jsonl" ["Tgraphs"].
Definition history_root : Path :=
  mkPath ["history"]
    (Some (Dir "history" [Dir "old" [old_file]; File "2023-02.jsonl" ["Tsets"]])).
Definition old_path : Path :=
  mkPath ["history"; "old"; "2023-01.jsonl"] (Some old_file).

Definition no_str (s : string) : Path := mkPath [s] None.

End Runs.

Lemma acquire_idempotent_witness :
  exists st1 st2,
    Sample.acquire Runs.smith_query Sample.st1 = (Ok None, st1) /\
    Sample.acquire Runs.smith_query st1 = (Ok None, st2) /\
    Database.session st2 = Database.session st1 /\
    Database.store st2 = Database.store st1.
Proof.
  set (res := Sample.acquire Runs.smith_query Sample.st1).
  assert (res.1 = Ok None) as Hfst by (vm_compute; reflexivity).
  assert (Sample.acquire Runs.smith_query Sample.st1 = (Ok None, res.2)) as Hrun.
  { rewrite <- Hfst. apply surjective_pairing. }
  destruct (acquire_idempotent Sample.pk Sample.hashid Runs.hashid_address
              Runs.smith_query Sample.st1 None res.2 Hrun)
    as [(st2 & H2 & Hs & Hst) _].
  exists res.2, st2. split; [exact Hrun|]. split; [exact H2|].
  split; [exact Hs|exact Hst].
Defined.

Lemma exit_commits_on_failure_witness :
  exists st',
    Database.with_self Runs.broken_body Sample.st0 = (Raise ParseError, st') /\
    Some (Database.store st') =
      Database.session (Runs.broken_body (Database.__enter__ Sample.st0).2).2.
Proof.
  set (res := Runs.broken_body (Database.__enter__ Sample.st0).2).
  assert (res.1 = Raise ParseError) as Hfst by (vm_compute; reflexivity).
  assert (Runs.broken_body (Database.__enter__ Sample.st0).2
          = (Raise ParseError, res.2)) as Hrun.
  { rewrite <- Hfst. apply surjective_pairing. }
  assert (is_Some (Database.session res.2)) as Hs.
  { apply (work_session _ _
             (work_lines_body Sample.pk Sample.hashid Sample.parse_entity
                Runs.broken_file (Database.__enter__ Sample.st0).2)).
    eexists. reflexivity. }
  destruct (exit_commits_on_failure unit Runs.broken_body Sample.st0
              (Raise ParseError) res.2 Hrun Hs) as (st' & H1 & H2 & _).
  exists st'. split; [exact H1|exact H2].
Defined.

(** C2, as worded, fails: the first line of the broken file is committed
    although the second one raises. *)
Lemma rolled_back_on_failure_counterexample :
  ~ rolled_back_on_failure (K:=Runs.K).
Proof.
  intros Hclaim.
  set (res := Database.with_self Runs.broken_body Sample.st0).
  assert (res.1 = Raise ParseError) as Hfst by (vm_compute; reflexivity).
  assert (Database.with_self Runs.broken_body Sample.st0
          = (Raise ParseError, res.2)) as Hrun.
  { rewrite <- Hfst. apply surjective_pairing. }
  specialize (Hclaim unit Runs.broken_body Sample.st0 ParseError res.2 Hrun).
  assert (Database.store res.2
            !! Database.key_of Sample.pk
                 (Topic_row (Sample.hashid Runs.graphs) "graphs")
          = Some (Topic_row (Sample.hashid Runs.graphs) "graphs")) as Hrow
    by (vm_compute; reflexivity).
  rewrite Hclaim in Hrow. vm_compute in Hrow. discriminate Hrow.
Qed.

(** C3, as worded, fails: the second unit of work starts with the topic
    still in the cache. *)
Lemma cache_scoped_to_transaction_counterexample :
  ~ cache_scoped_to_transaction Sample.pk Sample.hashid.
Proof.
  intros Hclaim. specialize (Hclaim Runs.graphs Sample.st0 eq_refl).
  assert (Database.cache
            (Database.__enter__
               (Database.with_self (Sample.acquire Runs.graphs) Sample.st0).2).2
            !! Sample.hashid Runs.graphs
          = Some (Some (Topic_row (Sample.hashid Runs.graphs) "graphs"))) as Hc
    by (vm_compute; reflexivity).
  unfold Sample.acquire in Hc. rewrite Hclaim in Hc.
  rewrite lookup_empty in Hc. discriminate Hc.
Qed.

(** C4, as worded, fails: the row of the paper is merged first, its author
    is acquired eight events later. *)
Lemma own_row_after_children_counterexample :
  ~ own_row_after_children Sample.pk Sample.hashid.
Proof.
  intros Hclaim.
  specialize (Hclaim Sample.graph_theory Sample.st1 1%nat 9%nat Sample.smith
                (Some (Author_row (Sample.hashid (EAuthor Sample.smith)) "A. Smith"))).
  assert (9 < 1)%nat as Hlt; [|lia].
  apply Hclaim.
  - vm_compute. reflexivity.
  - apply elem_of_cons. by left.
  - vm_compute. reflexivity.
Qed.

(** C6, as worded, fails: the file's own name passes the filter, but it
    lies in a directory whose name does not. *)
Lemma name_filter_only_counterexample :
  ~ name_filter_only Runs.no_str.
Proof.
  intros Hclaim.
  assert (Database._accumulate_history_files Runs.no_str
            (HPath Runs.history_root) (Some "2023-06") None []
          = Ok [mkPath ["history"; "2023-02.jsonl"]
                  (Some (File "2023-02.jsonl" ["Tsets"]))]) as Hrun
    by (vm_compute; reflexivity).
  destruct (Hclaim _ _ _ _ Runs.old_path Hrun) as [_ Hin].
  assert (Runs.old_path ∈ [mkPath ["history"; "2023-02.jsonl"]
                             (Some (File "2023-02.jsonl" ["Tsets"]))]) as Hel.
  { apply Hin. split; [|split].
    - eapply under_child; [reflexivity| |].
      + unfold Runs.history_root, iterdir. simpl. apply elem_of_cons. by left.
      + eapply under_child; [reflexivity| |].
        * unfold iterdir. simpl. apply elem_of_cons. by left.
        * by apply under_file.
    - discriminate.
    - vm_compute. reflexivity. }
  apply list_elem_of_singleton in Hel. discriminate Hel.
Qed.

Lemma replay_walk_and_transactions_witness :
  exists files,
    Database._accumulate_history_files Runs.no_str (HPath Runs.history_root)
      (Some "2023-06") None [] = Ok files /\
    StronglySorted (fun f g => Path_ltb f g = true) files.
Proof.
  destruct (replay_walk_and_transactions Sample.pk Sample.hashid
              Sample.parse_entity (HStr "history") Runs.no_str
              Runs.history_root (Some "2023-06") None Sample.st0)
    as (files & H1 & _ & _ & H2 & _).
  - unfold path_wf. simpl.
    split; [|split; [split; [|split; [done|done]]|split; [done|done]]].
    + apply NoDup_cons. split; [|apply NoDup_singleton].
      intros Hin. apply list_elem_of_singleton in Hin. discriminate Hin.
    + apply NoDup_singleton.
  - exists files. split; [exact H1|exact H2].
Defined.

(** ** Further properties of the identity tag *)

Section MoreTagProperties.
Import Tag.

(** A property of bytes that is checked on the 256 of them. *)
Lemma byte_forall (f : Z -> bool) :
  forallb f (map Z.of_nat (seq 0 256)) = true ->
  forall b, is_byte b -> f b = true.
Proof.
  intros Hall b Hb. rewrite forallb_forall in Hall. apply Hall.
  apply in_map_iff. exists (Z.to_nat b). unfold is_byte in Hb.
  split; [lia|]. apply in_seq. lia.
Qed.

Lemma retag_canonical b : is_byte b -> Z.lor (Z.land b 127) 128 = Z.lor b 128.
Proof.
  intros Hb. apply Z.eqb_eq.
  apply (byte_forall (fun b => Z.lor (Z.land b 127) 128 =? Z.lor b 128));
    [vm_compute; reflexivity|done].
Qed.

Lemma retag_same_canonical b : Z.lor (Z.lor b 128) 128 = Z.lor b 128.
Proof. rewrite <- Z.lor_assoc. by change (Z.lor 128 128) with 128. Qed.

Lemma tagged_byte_fixed b :
  is_byte b ->
  (Z.shiftr (Z.land b 128) 7 = 0 /\ Z.land b 127 = b) \/
  (Z.shiftr (Z.land b 128) 7 = 1 /\ Z.lor b 128 = b).
Proof.
  intros Hb.
  pose proof (byte_forall
    (fun b => ((Z.shiftr (Z.land b 128) 7 =? 0) && (Z.land b 127 =? b)) ||
              ((Z.shiftr (Z.land b 128) 7 =? 1) && (Z.lor b 128 =? b)))) as Hall.
  specialize (Hall ltac:(vm_compute; reflexivity) b Hb). simpl in Hall.
  apply orb_true_iff in Hall as [Hall|Hall];
    apply andb_true_iff in Hall as [H1 H2];
    apply Z.eqb_eq in H1, H2; auto.
Qed.

(** Bit 7 alone: the masked first item is 0 or 128, for any integer. *)
Lemma land_128_cases b : Z.land b 128 = 0 \/ Z.land b 128 = 128.
Proof.
  destruct (Z.testbit b 7) eqn:Hbit; [right|left];
    apply Z.bits_inj'; intros n Hn; rewrite Z.land_spec;
    change 128 with (2 ^ 7); rewrite Z.pow2_bits_eqb by lia.
  - destruct (Z.eqb_spec 7 n) as [<-|Hne]; [by rewrite Hbit|apply andb_false_r].
  - rewrite Z.bits_0.
    destruct (Z.eqb_spec 7 n) as [<-|Hne]; [by rewrite Hbit|apply andb_false_r].
Qed.

Lemma status_cases s :
  s ∈ _uuid_tags -> s = "transient" \/ s = "canonical".
Proof.
  unfold _uuid_tags. intros Hs.
  apply elem_of_cons in Hs as [->|Hs]; [by left|].
  apply elem_of_cons in Hs as [->|Hs]; [by right|].
  by apply elem_of_nil in Hs.
Qed.

Lemma index_absent l s : s ∉ l -> index l s = Raise ValueError.
Proof.
  induction l as [|x l IH]; intros Hs; [done|].
  apply not_elem_of_cons in Hs as [Hne Hs]. cbn [index].
  destruct (String.eqb_spec x s) as [->|_]; [done|]. by rewrite IH.
Qed.

(** X1. The failures of the three functions: a status that is not one of the
    two tags is refused with [ValueError] before the address is looked at,
    and the empty address has no first byte to tag or to read. *)
Theorem tag_uuid_errors :
  (forall u s, s ∉ _uuid_tags -> tag_uuid u s = Raise ValueError) /\
  (forall s, s ∈ _uuid_tags -> tag_uuid [] s = Raise IndexError) /\
  get_uuid_tag [] = Raise IndexError /\
  is_canonical_uuid [] = Raise IndexError.
Proof.
  split; [|split; [|split; reflexivity]].
  - intros u s Hs. unfold tag_uuid. by rewrite index_absent.
  - intros s Hs. by destruct (status_cases s Hs) as [-> | ->].
Qed.

(** X2. [is_canonical_uuid] is the test that its comment gives: it holds exactly
    when [get_uuid_tag] reads [canonical], on any address with a first
    item. *)
Theorem is_canonical_uuid_get_uuid_tag (u : bytes) :
  u <> [] ->
  exists b,
    is_canonical_uuid u = Ok b /\
    get_uuid_tag u = Ok (if b then "canonical" else "transient").
Proof.
  intros Hu. destruct u as [|u0 rest]; [done|].
  unfold is_canonical_uuid, get_uuid_tag. simpl.
  destruct (land_128_cases u0) as [-> | ->]; [by exists false|by exists true].
Qed.

Lemma is_canonical_uuid_get_uuid_tag_witness :
  exists b,
    is_canonical_uuid [200; 3] = Ok b /\
    get_uuid_tag [200; 3] = Ok (if b then "canonical" else "transient").
Proof.
  apply (is_canonical_uuid_get_uuid_tag [200; 3]). discriminate.
Defined.

Lemma tag_uuid_cons b rest s :
  is_byte b -> valid_bytes rest -> s ∈ _uuid_tags ->
  tag_uuid (b :: rest) s =
    Ok ((if String.eqb s "canonical" then Z.lor b 128 else Z.land b 127) :: rest) /\
  is_byte (if String.eqb s "canonical" then Z.lor b 128 else Z.land b 127).
Proof.
  intros Hb Hrest Hs. destruct (status_cases s Hs) as [-> | ->];
    unfold tag_uuid; simpl.
  - rewrite bytes_of_list_valid
      by (apply Forall_cons; split; [by apply land_127_byte|done]).
    split; [done|by apply land_127_byte].
  - rewrite bytes_of_list_valid
      by (apply Forall_cons; split; [by apply lor_128_byte|done]).
    split; [done|by apply lor_128_byte].
Qed.

(** X3. Tagging again replaces the tag: the address tagged [s] and then [s']
    is the address tagged [s']. In particular tagging twice with one status
    is tagging once. *)
Theorem tag_uuid_last_wins (u : bytes) (s s' : string) :
  valid_bytes u -> u <> [] -> s ∈ _uuid_tags -> s' ∈ _uuid_tags ->
  exists t, tag_uuid u s = Ok t /\ tag_uuid t s' = tag_uuid u s'.
Proof.
  intros Hu Hne Hs Hs'. destruct u as [|b rest]; [done|].
  apply Forall_cons in Hu as [Hb Hrest].
  destruct (tag_uuid_cons b rest s Hb Hrest Hs) as [Ht Hbyte].
  eexists. split; [exact Ht|].
  destruct (tag_uuid_cons _ rest s' Hbyte Hrest Hs') as [-> _].
  destruct (tag_uuid_cons b rest s' Hb Hrest Hs') as [-> _].
  destruct (status_cases s Hs) as [-> | ->],
           (status_cases s' Hs') as [-> | ->]; simpl.
  - by rewrite land_127_low7.
  - by rewrite retag_canonical.
  - by rewrite lor_128_low7.
  - by rewrite retag_same_canonical.
Qed.

Lemma tag_uuid_last_wins_witness :
  exists t, tag_uuid [18; 52] "canonical" = Ok t /\
            tag_uuid t "transient" = tag_uuid [18; 52] "transient".
Proof.
  apply (tag_uuid_last_wins [18; 52] "canonical" "transient").
  - repeat constructor; unfold is_byte; lia.
  - discriminate.
  - unfold _uuid_tags. apply elem_of_cons. right. apply elem_of_cons. by left.
  - unfold _uuid_tags. apply elem_of_cons. by left.
Defined.

(** X4. Tagging an address with the status it already has returns the address
    itself. *)
Theorem tag_uuid_same_status (u : bytes) (s : string) :
  valid_bytes u -> get_uuid_tag u = Ok s -> tag_uuid u s = Ok u.
Proof.
  intros Hu Hs. destruct u as [|b rest]; [done|].
  apply Forall_cons in Hu as [Hb Hrest].
  unfold get_uuid_tag in Hs. simpl in Hs.
  destruct (tagged_byte_fixed b Hb) as [[Hbit Hfix]|[Hbit Hfix]];
    rewrite Hbit in Hs; simpl in Hs; injection Hs as <-.
  - destruct (tag_uuid_cons b rest "transient" Hb Hrest) as [-> _].
    + unfold _uuid_tags. apply elem_of_cons. by left.
    + simpl. by rewrite Hfix.
  - destruct (tag_uuid_cons b rest "canonical" Hb Hrest) as [-> _].
    + unfold _uuid_tags. apply elem_of_cons. right. apply elem_of_cons. by left.
    + simpl. by rewrite Hfix.
Qed.

Lemma tag_uuid_same_status_witness :
  tag_uuid [200; 3] "canonical" = Ok [200; 3].
Proof.
  apply (tag_uuid_same_status [200; 3] "canonical").
  - repeat constructor; unfold is_byte; lia.
  - reflexivity.
Defined.

End MoreTagProperties.

(** ** Further properties of [EquivalenceGroups] *)

Section MoreEquivalenceGroups.
Import EquivalenceGroups.

(** A key that points at a root is followed in one step, and the table is
    left as it is. *)
Lemma follow_direct (m : dict address address) k v :
  wf m -> Dict.get m k = Some v -> Dict.get m v = Some v ->
  follow m k = Ok (v, m).
Proof.
  intros Hwf Hk Hv. destruct (decide (k = v)) as [->|Hne].
  - rewrite (follow_fuel_enough m v [] v Hwf); [done|by constructor].
  - rewrite (follow_fuel_enough m k [k] v Hwf).
    + simpl. by rewrite Dict.set_same.
    + econstructor; [done|done|by constructor].
Qed.

Lemma follow_returns_root (m : dict address address) a r :
  wf m -> root_of m a r -> exists m', follow m a = Ok (r, m').
Proof.
  intros Hwf Hr.
  destruct (follow_spec m a Hwf) as (r' & m' & Hf & _ & _ & _ & _ & Hcase).
  destruct Hcase as [[Hr' _]|(Hnone & _ & _)].
  - rewrite (root_det _ _ _ _ Hr Hr'). eauto.
  - apply root_of_key in Hr as [v Hv]. congruence.
Qed.

Lemma follow_all_direct (m : dict address address) ks :
  wf m -> (forall k v, Dict.get m k = Some v -> Dict.get m v = Some v) ->
  (forall k, k ∈ ks -> k ∈ Dict.keys m) -> follow_all m ks = Ok m.
Proof.
  intros Hwf Hflat. induction ks as [|k ks IH]; intros Hks; [done|].
  simpl. destruct (Dict.keys_get_Some m k) as [v Hv].
  { apply Hks, elem_of_cons. by left. }
  rewrite (follow_direct m k v Hwf Hv (Hflat _ _ Hv)).
  apply IH. intros k' Hk'. apply Hks, elem_of_cons. by right.
Qed.

(** X5. Path compression. After any sequence of [equiv] calls, [follow a]
    returns the representative [r] of [a] and leaves [a] pointing straight
    at it, with the same keys in the table; following [a] or [r] again
    returns [r] and changes nothing. An address that was never declared
    is its own representative and is not added to the table. *)
Theorem follow_compresses (ps : list (address * address)) (a : address) :
  Forall (fun p => truthy p.1 = true) ps ->
  exists m r m',
    equiv_seq [] ps = Ok m /\
    follow m a = Ok (r, m') /\
    follow m' a = Ok (r, m') /\
    follow m' r = Ok (r, m') /\
    Dict.keys m' = Dict.keys m /\
    (a ∈ Dict.keys m -> Dict.get m' a = Some r /\ Dict.get m' r = Some r) /\
    (a ∉ Dict.keys m -> r = a /\ m' = m).
Proof.
  intros Hps.
  destruct (inv_seq [] [] ps inv_empty Hps) as (m & Hseq & Hwf & _).
  destruct (follow_spec m a Hwf) as (r & m' & Hf & Hwf' & Hk & Hfwd & _ & Hcase).
  exists m, r, m'. split; [done|]. split; [done|].
  destruct Hcase as [[Hr Hg]|(Hnone & -> & ->)].
  - assert (Dict.get m' r = Some r) as Hrr.
    { apply Hfwd in Hr. by eapply root_of_root. }
    split; [by apply follow_direct|]. split; [by apply follow_direct|].
    split; [done|]. split; [done|].
    intros Ha. exfalso. apply Ha.
    apply root_of_key in Hr as [v Hv]. by eapply Dict.get_Some_keys.
  - split; [done|]. split; [done|]. split; [done|]. split; [|done].
    intros Ha. apply Dict.keys_get_Some in Ha as [v Hv]. congruence.
Qed.

Lemma follow_compresses_witness :
  exists m r m',
    equiv_seq [] [([1], [2]); ([3], [1])] = Ok m /\
    follow m [2] = Ok (r, m') /\
    follow m' [2] = Ok (r, m').
Proof.
  destruct (follow_compresses [([1], [2]); ([3], [1])] [2])
    as (m & r & m' & H1 & H2 & H3 & _).
  - repeat constructor.
  - exists m, r, m'. split; [exact H1|]. split; [exact H2|exact H3].
Defined.

(** X6. [groups()] leaves every key pointing straight at its representative,
    so a second call returns the same classes and changes nothing. *)
Theorem groups_stable (ps : list (address * address)) :
  Forall (fun p => truthy p.1 = true) ps ->
  exists m g m',
    equiv_seq [] ps = Ok m /\
    groups_reps m = Ok (g, m') /\
    groups_reps m' = Ok (g, m') /\
    Dict.keys m' = Dict.keys m /\
    (forall k v, Dict.get m' k = Some v -> Dict.get m' v = Some v).
Proof.
  intros Hps.
  destruct (inv_seq [] [] ps inv_empty Hps) as (m & Hseq & Hwf & _).
  destruct (follow_all_spec m (Dict.keys m) Hwf)
    as (m' & Hfa & Hwf' & Hk' & Hfwd & _ & Hdir); [done|].
  assert (forall k v, Dict.get m' k = Some v -> Dict.get m' v = Some v) as Hflat.
  { intros k v Hkv.
    assert (k ∈ Dict.keys m) as Hk.
    { rewrite <- Hk'. by eapply Dict.get_Some_keys. }
    pose proof (Hdir k v Hk Hkv) as Hr. apply root_of_root in Hr.
    eapply root_of_root. apply Hfwd. by apply root_self. }
  exists m, (bucket [] m'), m'. split; [done|].
  unfold groups_reps. rewrite Hfa. split; [done|].
  rewrite follow_all_direct; done.
Qed.

Lemma groups_stable_witness :
  exists m g m',
    equiv_seq [] [([1], [2]); ([3], [2]); ([4], [5])] = Ok m /\
    groups_reps m = Ok (g, m') /\
    groups_reps m' = Ok (g, m').
Proof.
  destruct (groups_stable [([1], [2]); ([3], [2]); ([4], [5])])
    as (m & g & m' & H1 & H2 & H3 & _).
  - repeat constructor.
  - exists m, g, m'. split; [exact H1|]. split; [exact H2|exact H3].
Defined.

(** X7. The first argument keeps its representative: after [equiv a b] both
    addresses are followed to what [follow a] returned before the call. *)
Theorem equiv_first_representative (ps : list (address * address)) (a b : address) :
  Forall (fun p => truthy p.1 = true) ps -> truthy a = true ->
  exists m ar ma m1,
    equiv_seq [] ps = Ok m /\
    follow m a = Ok (ar, ma) /\
    equiv_reps m a b = Ok m1 /\
    (exists m2, follow m1 a = Ok (ar, m2)) /\
    (exists m2, follow m1 b = Ok (ar, m2)).
Proof.
  intros Hps Ha.
  destruct (inv_seq [] [] ps inv_empty Hps) as (m & Hseq & Hwf & _).
  destruct (equiv_reps_spec m a b Hwf Ha)
    as (m1 & ar & br & Heq & Hwf1 & HA & _ & Ha1 & Hb1 & _).
  assert (exists ma, follow m a = Ok (ar, ma)) as [ma Hfa].
  { destruct HA as [HA|[HA ->]]; [by apply follow_returns_root|].
    exists m. by apply follow_not_key. }
  exists m, ar, ma, m1. split; [done|]. split; [done|]. split; [done|].
  split; by apply follow_returns_root.
Qed.

Lemma equiv_first_representative_witness :
  exists m ar ma m1,
    equiv_seq [] [([1], [2]); ([3], [4])] = Ok m /\
    follow m [2] = Ok (ar, ma) /\
    equiv_reps m [2] [4] = Ok m1 /\
    (exists m2, follow m1 [4] = Ok (ar, m2)).
Proof.
  destruct (equiv_first_representative [([1], [2]); ([3], [4])] [2] [4])
    as (m & ar & ma & m1 & H1 & H2 & H3 & _ & H4).
  - repeat constructor.
  - reflexivity.
  - exists m, ar, ma, m1.
    split; [exact H1|]. split; [exact H2|]. split; [exact H3|exact H4].
Defined.

Lemma equiv_all_short eg ids cls under :
  (length ids <= 1)%nat ->
  exists eg',
    equiv_all eg ids cls under = Ok eg' /\
    representatives eg' = representatives eg.
Proof.
  intros Hlen. destruct ids as [|a [|b rest]]; [by exists eg| |simpl in Hlen; lia].
  unfold equiv_all. simpl. eexists. split; [done|done].
Qed.

(** X8. Calls of [equiv_all] with no id or a single id declare nothing: the
    table of representatives stays empty, [groups()] has no class and the
    iteration yields no directive. *)
Theorem equiv_all_single_ids (calls : list (list address * kind * label)) :
  Forall (fun c => (length c.1.1 <= 1)%nat) calls ->
  exists eg,
    equiv_all_seq init calls = Ok eg /\
    representatives eg = [] /\
    groups eg = Ok ([], eg) /\
    iter eg = ([], Ok tt, eg).
Proof.
  intros Hcalls.
  assert (forall eg0, representatives eg0 = [] ->
            exists eg, equiv_all_seq eg0 calls = Ok eg /\ representatives eg = [])
    as Hgen.
  { induction Hcalls as [|[[ids cls] under] calls Hc _ IH]; intros eg0 H0.
    - by exists eg0.
    - simpl in Hc.
      destruct (equiv_all_short eg0 ids (Some cls) under Hc) as (eg1 & H1 & Hr1).
      destruct (IH eg1) as (eg & Heg & Hr); [congruence|].
      exists eg. simpl. by rewrite H1. }
  destruct (Hgen init eq_refl) as (eg & Heg & Hr).
  exists eg. split; [done|]. split; [done|].
  assert (groups eg = Ok ([], eg)) as Hg.
  { destruct eg as [reps nm cl]. simpl in Hr. subst reps. reflexivity. }
  split; [done|]. unfold iter. by rewrite Hg.
Qed.

Lemma equiv_all_single_ids_witness :
  exists eg,
    equiv_all_seq init [([[1]], "Author", Some "a"); ([], "Paper", None)] = Ok eg /\
    iter eg = ([], Ok tt, eg).
Proof.
  destruct (equiv_all_single_ids
              [([[1]], "Author", Some "a"); ([], "Paper", None)])
    as (eg & H1 & _ & _ & H2).
  - repeat constructor.
  - exists eg. split; [exact H1|exact H2].
Defined.

Lemma size_pair (a b : address) : a <> b -> size ({[a]} ∪ {[b]} : gset address) = 2%nat.
Proof.
  intros Hne. rewrite size_union by set_solver. by rewrite !size_singleton.
Qed.

(** Running the table operations on addresses that are only known to be
    distinct. *)
Ltac table_step :=
  repeat first
    [ progress unfold follow, bucket_add, equiv_reps, groups_reps
    | progress cbn [follow_fuel follow_all Dict.get Dict.set Dict.keys length
                    truthy bucket fmap list_fmap fst snd equiv_seq]
    | case_decide; try congruence ].

Lemma pair_table (a b : address) :
  a <> b -> equiv_reps [] a b = Ok [(a, a); (b, a)].
Proof. intros Hne. table_step. reflexivity. Qed.

Lemma pair_groups (a b : address) :
  truthy a = true -> a <> b ->
  groups_reps [(a, a); (b, a)] = Ok ([(a, {[a]} ∪ {[b]})], [(a, a); (b, a)]).
Proof.
  intros Ha Hne. destruct a as [|z a']; [done|]. table_step. reflexivity.
Qed.

(** X9. [__iter__] needs what [equiv_all] records. A class declared through
    [equiv] alone has no entry in [names], and the iteration stops with
    [KeyError]; a class declared through [equiv_all] without [cls] has
    [None] for its class, and building the directive stops with
    [TypeError]. In both cases nothing is yielded. *)
Theorem iter_needs_name_and_class (a b : address) (under : label) :
  truthy a = true -> a <> b ->
  (exists eg, equiv init a b = Ok eg /\ (iter eg).1 = ([], Raise KeyError)) /\
  (exists eg, equiv_all init [a; b] None under = Ok eg /\
              (iter eg).1 = ([], Raise TypeError)).
Proof.
  intros Ha Hne. split.
  - eexists. split.
    + unfold equiv, init. cbn [representatives]. by rewrite pair_table.
    + unfold iter, groups. cbn [representatives names classes].
      rewrite pair_groups by done. cbn [iter_loop].
      unfold iter_step. rewrite size_pair by done. reflexivity.
  - eexists. split.
    + unfold equiv_all, init.
      cbn [representatives equiv_loop names classes register].
      by rewrite pair_table.
    + unfold iter, groups. cbn [representatives names classes].
      rewrite pair_groups by done. cbn [iter_loop].
      unfold iter_step. rewrite size_pair by done.
      cbn [names classes]. table_step. reflexivity.
Qed.

Lemma iter_needs_name_and_class_witness :
  (exists eg, equiv init [1] [2] = Ok eg /\ (iter eg).1 = ([], Raise KeyError)) /\
  (exists eg, equiv_all init [[1]; [2]] None None = Ok eg /\
              (iter eg).1 = ([], Raise TypeError)).
Proof.
  apply (iter_needs_name_and_class [1] [2] None); [reflexivity|discriminate].
Defined.

(** X10. The empty address is not kept in a class. [follow] takes a stored
    representative that is empty for a missing one, so after [equiv(b"", x)]
    the address [x] is still followed to itself, and a later [equiv(x, y)]
    puts [x] and [y] in a class of their own: [groups()] then has the empty
    address alone, although it was declared equivalent to [x]. *)
Theorem empty_address_forgotten (x y : address) :
  truthy x = true -> truthy y = true -> x <> y ->
  exists m m',
    equiv_seq [] [([], x); (x, y)] = Ok m /\
    groups_reps m = Ok ([([], {[ [] ]}); (x, {[x]} ∪ {[y]})], m').
Proof.
  intros Hx Hy Hne. destruct x as [|z x']; [done|]. destruct y as [|w y']; [done|].
  eexists _, _. split.
  - table_step. reflexivity.
  - table_step. reflexivity.
Qed.

Lemma empty_address_forgotten_witness :
  exists m m',
    equiv_seq [] [([], [1]); ([1], [2])] = Ok m /\
    groups_reps m = Ok ([([], {[ [] ]}); ([1], {[ [1] ]} ∪ {[ [2] ]})], m').
Proof.
  apply (empty_address_forgotten [1] [2]); [reflexivity|reflexivity|discriminate].
Defined.

(** After [equiv a b] the two addresses point straight at their common
    representative. *)
Lemma equiv_reps_pointers (m : dict address address) a b :
  wf m -> truthy a = true ->
  exists m' ar,
    equiv_reps m a b = Ok m' /\ wf m' /\
    Dict.get m' a = Some ar /\ Dict.get m' b = Some ar /\
    Dict.get m' ar = Some ar.
Proof.
  intros Hwf Ha.
  destruct (follow_spec m a Hwf) as (ar & m1 & Hf1 & Hwf1 & _ & Hfwd1 & _ & HA).
  destruct (follow_spec m1 b Hwf1) as (br & m2 & Hf2 & _ & _ & Hfwd2 & _ & _).
  destruct (equiv_reps_spec m a b Hwf Ha) as (m' & ar' & br' & Heq & Hwf' & _).
  unfold equiv_reps in Heq. rewrite Hf1, Hf2 in Heq. injection Heq as <-.
  eexists _, ar. split; [unfold equiv_reps; by rewrite Hf1, Hf2|].
  split; [done|].
  assert (a = ar \/ Dict.get m2 ar = Some ar) as Hroot.
  { destruct HA as [[HA _]|(_ & -> & _)]; [right|by left].
    eapply root_of_root. apply Hfwd2, Hfwd1, root_self. by eapply root_of_root. }
  rewrite !Dict.get_set. split; [|split].
  - repeat case_decide; done.
  - repeat case_decide; done.
  - repeat case_decide; try done. by destruct Hroot.
Qed.

(** X11. Declaring a pair again changes nothing, in either order of the two
    addresses: after [equiv a b], the calls [equiv a b] and [equiv b a]
    leave the table of representatives as it is. *)
Theorem equiv_again_unchanged (ps : list (address * address)) (a b : address) :
  Forall (fun p => truthy p.1 = true) ps -> truthy a = true ->
  exists m m1,
    equiv_seq [] ps = Ok m /\
    equiv_reps m a b = Ok m1 /\
    equiv_reps m1 a b = Ok m1 /\
    equiv_reps m1 b a = Ok m1.
Proof.
  intros Hps Ha.
  destruct (inv_seq [] [] ps inv_empty Hps) as (m & Hseq & Hwf & _).
  destruct (equiv_reps_pointers m a b Hwf Ha)
    as (m1 & ar & Heq & Hwf1 & Hga & Hgb & Hgr).
  exists m, m1. split; [done|]. split; [done|].
  pose proof (follow_direct m1 a ar Hwf1 Hga Hgr) as Hfa.
  pose proof (follow_direct m1 b ar Hwf1 Hgb Hgr) as Hfb.
  split; unfold equiv_reps.
  - rewrite Hfa. cbv beta iota. rewrite Hfb. cbv beta iota zeta.
    by rewrite (Dict.set_same m1 a ar), (Dict.set_same m1 b ar),
      (Dict.set_same m1 ar ar).
  - rewrite Hfb. cbv beta iota. rewrite Hfa. cbv beta iota zeta.
    by rewrite (Dict.set_same m1 b ar), (Dict.set_same m1 a ar),
      (Dict.set_same m1 ar ar).
Qed.

Lemma equiv_again_unchanged_witness :
  exists m m1,
    equiv_seq [] [([1], [2]); ([3], [4])] = Ok m /\
    equiv_reps m [2] [3] = Ok m1 /\
    equiv_reps m1 [2] [3] = Ok m1 /\
    equiv_reps m1 [3] [2] = Ok m1.
Proof.
  apply (equiv_again_unchanged [([1], [2]); ([3], [4])] [2] [3]).
  - repeat constructor.
  - reflexivity.
Defined.

(** X12. [equiv_all] records the label and the class for each id it is given,
    over what an earlier call recorded for that id, and for no other id. *)
Theorem equiv_all_registers (calls : list (list address * kind * label))
    (ids : list address) (cls : kind) (under : label) :
  Forall (fun c => Forall (fun x => truthy x = true) c.1.1) calls ->
  Forall (fun x => truthy x = true) ids ->
  exists eg eg',
    equiv_all_seq init calls = Ok eg /\
    equiv_all eg ids (Some cls) under = Ok eg' /\
    forall x,
      (x ∈ ids ->
         Dict.get (names eg') x = Some under /\
         Dict.get (classes eg') x = Some (Some cls)) /\
      (x ∉ ids ->
         Dict.get (names eg') x = Dict.get (names eg) x /\
         Dict.get (classes eg') x = Dict.get (classes eg) x).
Proof.
  intros Hcalls Hids.
  destruct (equiv_all_seq_inv init calls wf_init Hcalls) as (eg & Hseq & Hinv).
  destruct (equiv_all_inv eg ids cls under Hinv Hids) as (eg' & Heq & _).
  exists eg, eg'. split; [done|]. split; [done|].
  destruct ids as [|a rest].
  - injection Heq as <-. intros x.
    split; [intros Hx; by apply elem_of_nil in Hx|done].
  - unfold equiv_all in Heq.
    destruct (equiv_loop (representatives eg) a rest) as [reps|]; [|done].
    destruct (register (names eg) (classes eg) (a :: rest) (Some cls) under)
      as [nm cl] eqn:Hr.
    injection Heq as <-. cbn [names classes].
    apply (register_spec _ _ _ _ _ _ _ Hr).
Qed.

Lemma equiv_all_registers_witness :
  exists eg eg',
    equiv_all_seq init [([[1]; [2]], "Author", Some "a")] = Ok eg /\
    equiv_all eg [[2]; [3]] (Some "Paper") None = Ok eg' /\
    Dict.get (names eg') [2] = Some None /\
    Dict.get (names eg') [1] = Dict.get (names eg) [1].
Proof.
  destruct (equiv_all_registers [([[1]; [2]], "Author", Some "a")]
              [[2]; [3]] "Paper" None) as (eg & eg' & H1 & H2 & H3).
  - repeat constructor.
  - repeat constructor.
  - exists eg, eg'. split; [exact H1|]. split; [exact H2|]. split.
    + apply (H3 [2]). apply elem_of_cons. by left.
    + apply (H3 [1]). intros Hin.
      apply elem_of_cons in Hin as [Hin|Hin]; [discriminate Hin|].
      apply elem_of_cons in Hin as [Hin|Hin]; [discriminate Hin|].
      by apply elem_of_nil in Hin.
Defined.


End MoreEquivalenceGroups.

(** ** Further properties of the [Database] object *)

Section MoreDatabaseProperties.
Import Database.

Context {K : Type} `{Countable K}.
Variable pk : row -> K.
Variable hashid : entity -> hid.

Abbreviation state := (@Database.state K _ _).
Abbreviation M := (@Database.M K _ _).
Abbreviation acquire_with := (Database.acquire_with (K:=K) hashid).
Abbreviation _acquire := (Database._acquire pk hashid).
Abbreviation acquire_fuel := (Database.acquire_fuel pk hashid).
Abbreviation acquire := (Database.acquire pk hashid).

(** *** The depth of the recursion of [acquire] *)

(** Two computations that run alike from every state. *)
Definition eqM {A} (m m' : M A) : Prop := forall st, m st = m' st.

Lemma eqM_refl {A} (m : M A) : eqM m m.
Proof. by intros st. Qed.

Lemma eqM_bind {A B} (m m' : M A) (k k' : A -> M B) :
  eqM m m' -> (forall a, eqM (k a) (k' a)) -> eqM (bind m k) (bind m' k').
Proof.
  intros Hm Hk st. unfold bind. rewrite Hm.
  destruct (m' st) as [[a|e] st1]; [apply Hk|done].
Qed.

Lemma eqM_for_each {A} (f g : A -> M unit) l :
  (forall x, eqM (f x) (g x)) -> eqM (for_each f l) (for_each g l).
Proof.
  intros Hfg. induction l as [|x l IH]; simpl; [apply eqM_refl|].
  apply eqM_bind; [apply Hfg|]. intros _. apply IH.
Qed.

Lemma eqM_for_enumerate {A} (f g : nat -> A -> M unit) i l :
  (forall j x, eqM (f j x) (g j x)) ->
  eqM (for_enumerate f i l) (for_enumerate g i l).
Proof.
  intros Hfg. revert i. induction l as [|x l IH]; intros i; simpl;
    [apply eqM_refl|].
  apply eqM_bind; [apply Hfg|]. intros _. apply IH.
Qed.

(** How deep the calls of [acquire] nest below an entity: a paper acquires
    authors, an author its query, a query and a release an institution and a
    venue. *)
Definition depth (x : entity) : nat :=
  match x with
  | EPaper _ => 3
  | EAuthor _ => 2
  | EAuthorQuery _ _ => 1
  | ERelease _ => 1
  | EInstitution _ | ETopic _ | EVenue _ | EOther _ => 0
  end.

(** [_acquire] calls [self.acquire] on entities of a smaller depth only. *)
Lemma eqM__acquire (f g : entity -> M (option row)) x :
  (forall y, (depth y < depth x)%nat -> eqM (f y) (g y)) ->
  eqM (_acquire f x) (_acquire g x).
Proof.
  intros Hfg. destruct x; unfold Database._acquire;
    repeat first
      [ apply Hfg; simpl; lia
      | apply eqM_bind
      | apply eqM_for_each
      | apply eqM_for_enumerate
      | match goal with |- forall _, _ => intro end
      | apply eqM_refl ].
Qed.

Lemma eqM_acquire_with (body body' : entity -> M (option row)) x :
  eqM (body x) (body' x) -> eqM (acquire_with body x) (acquire_with body' x).
Proof.
  intros Hb. unfold Database.acquire_with.
  apply eqM_bind; [apply eqM_refl|]. intros c.
  apply eqM_bind; [|intros; apply eqM_refl].
  destruct (falsy (hashid x) || negb (bool_decide (is_Some c)));
    [|apply eqM_refl].
  apply eqM_bind; [done|]. intros; apply eqM_refl.
Qed.

(** The mutual recursion with anything at all in place of the call at which
    the counter of [acquire_fuel] runs out. *)
Fixpoint acquire_nest (bottom : entity -> M (option row)) (n : nat)
  (x : entity) : M (option row) :=
  match n with
  | O => bottom x
  | S n' => acquire_with (_acquire (acquire_nest bottom n')) x
  end.

Lemma acquire_nest_fuel bottom n m x :
  (depth x < n)%nat -> (depth x < m)%nat ->
  eqM (acquire_nest bottom n x) (acquire_fuel m x).
Proof.
  revert m x. induction n as [|n IH]; intros m x Hn Hm; [lia|].
  destruct m as [|m]; [lia|].
  cbn [acquire_nest Database.acquire_fuel].
  apply eqM_acquire_with, eqM__acquire. intros y Hy. apply IH; lia.
Qed.

Lemma acquire_fuel_depth n m x (st : state) :
  (depth x < n)%nat -> (depth x < m)%nat ->
  acquire_fuel n x st = acquire_fuel m x st.
Proof.
  intros Hn Hm.
  rewrite <- (acquire_nest_fuel (fun _ => ret None) (S (depth x)) n x) by lia.
  apply acquire_nest_fuel; lia.
Qed.

Lemma depth_bound x : (depth x < 4)%nat.
Proof. destruct x; simpl; lia. Qed.

(** X13. [acquire] never nests more than four calls deep: a paper, its author,
    the query of the author, the institution of a role. Whatever stands in
    place of a fifth nested call, and whatever bound of at least four is
    put on the recursion, the outcome and the state are those of
    [acquire]; the [RecursionError] that bounds the recursion here is never
    reached. *)
Theorem acquire_depth_bounded (x : entity) (st : state) :
  (forall bottom n, (4 <= n)%nat -> acquire_nest bottom n x st = acquire x st) /\
  (forall n, (4 <= n)%nat -> acquire_fuel n x st = acquire x st).
Proof.
  pose proof (depth_bound x) as Hd. split.
  - intros bottom n Hn. unfold Database.acquire.
    apply acquire_nest_fuel; lia.
  - intros n Hn. unfold Database.acquire. apply acquire_fuel_depth; lia.
Qed.

(** *** Failures of [acquire] before anything is written *)

(** The entities whose row is merged before anything else is done. *)
Definition merged_first (x : entity) : bool :=
  match x with
  | EPaper _ | EAuthor _ | EInstitution _ | ETopic _ | EVenue _ => true
  | _ => false
  end.

(** X14. Outside of a unit of work (no session is open), when the cache has
    no answer, [acquire] on a paper, an author, an institution, a topic or
    a venue raises [AttributeError] at its first merge, and the database
    object is left as it was; in particular nothing is cached. *)
Theorem acquire_fails_early (x : entity) (st : state) :
  falsy (hashid x) = true \/ cache st !! hashid x = None ->
  session st = None -> merged_first x = true ->
  acquire x st = (Raise AttributeError, st).
Proof.
  intros Hmiss Hs Hx. unfold Database.acquire. cbn [Database.acquire_fuel].
  rewrite acquire_with_miss by done.
  destruct x; try done; unfold Database._acquire, bind, session_merge;
    by rewrite Hs.
Qed.

(** *** What [acquire] leaves alone *)

(** X15. [acquire] works on the open session only: the committed rows and the
    log files are as before, a session is neither opened nor closed, an
    entry of the cache under an address is never replaced, and when
    [acquire] returns a row the cache holds that row for the address of the
    entity. *)
Theorem acquire_session_only (x : entity) (st : state) :
  store (acquire x st).2 = store st /\
  files (acquire x st).2 = files st /\
  (is_Some (session (acquire x st).2) <-> is_Some (session st)) /\
  (forall h v, falsy h = false -> cache st !! h = Some v ->
     cache (acquire x st).2 !! h = Some v) /\
  (forall r, (acquire x st).1 = Ok r ->
     cache (acquire x st).2 !! hashid x = Some r).
Proof.
  destruct (work_acquire pk hashid x st) as [Hstore Hfiles Hsess _ Hcache].
  split; [done|]. split; [done|]. split; [done|]. split; [done|].
  intros r Hr. destruct (acquire x st) as [r' st'] eqn:Hrun. simpl in *.
  subst r'. rewrite acquire_unfold in Hrun. by eapply acquire_with_cached.
Qed.

(** *** The row that [acquire] returns *)

(** X16. When the cache has no answer and [acquire] returns, it returns the row
    of the entity itself, under the address of the entity; for a release the
    row carries the address read from the row of its venue; for the query
    of an author it returns [None]. *)
Theorem acquire_returns_own_row (x : entity) (st : state) r st' :
  falsy (hashid x) = true \/ cache st !! hashid x = None ->
  acquire x st = (Ok r, st') ->
  match x with
  | EPaper p =>
      r = Some (Paper_row (hashid x) (paper_title p) (paper_abstract p)
                  (paper_citation_count p))
  | EAuthor a => r = Some (Author_row (hashid x) (author_name a))
  | EInstitution i =>
      r = Some (Institution_row (hashid x) (institution_name i)
                  (institution_category i))
  | ERelease rl =>
      exists vv v st1,
        acquire (EVenue (release_venue rl)) st = (Ok vv, st1) /\
        attr_venue_id vv = Ok v /\
        r = Some (Release_row (hashid x) (release_date rl)
                    (release_date_precision rl) (release_volume rl)
                    (release_publisher rl) v)
  | ETopic t => r = Some (Topic_row (hashid x) (topic_name t))
  | EVenue v => r = Some (Venue_row (hashid x) (venue_type v) (venue_name v))
  | EAuthorQuery _ _ => r = None
  | EOther _ => False
  end.
Proof.
  intros Hmiss Hrun. rewrite acquire_unfold, acquire_with_miss in Hrun by done.
  destruct (_acquire (acquire_fuel 3) x st) as [[r0|e] st0] eqn:Hbody; [|done].
  injection Hrun as <- <-.
  destruct x; unfold Database._acquire in Hbody.
  - repeat (apply bind_inv_Ok in Hbody as (? & ? & _ & Hbody)).
    by injection Hbody as <- _.
  - repeat (apply bind_inv_Ok in Hbody as (? & ? & _ & Hbody)).
    by injection Hbody as <- _.
  - repeat (apply bind_inv_Ok in Hbody as (? & ? & _ & Hbody)).
    by injection Hbody as <- _.
  - apply bind_inv_Ok in Hbody as (vv & st1 & Hvv & Hbody).
    apply bind_inv_Ok in Hbody as (v & st2 & Hv & Hbody).
    unfold lift in Hv. injection Hv as Hv <-.
    apply bind_inv_Ok in Hbody as (? & ? & _ & Hbody).
    injection Hbody as <- _. exists vv, v, st1. split; [|done].
    unfold Database.acquire. rewrite <- Hvv.
    apply acquire_fuel_depth; simpl; lia.
  - repeat (apply bind_inv_Ok in Hbody as (? & ? & _ & Hbody)).
    by injection Hbody as <- _.
  - repeat (apply bind_inv_Ok in Hbody as (? & ? & _ & Hbody)).
    by injection Hbody as <- _.
  - repeat (apply bind_inv_Ok in Hbody as (? & ? & _ & Hbody)).
    by injection Hbody as <- _.
  - done.
Qed.


(** *** [import_all] and the session of the caller *)

Variable tagged_json : entity -> string.
Variable config_history_file : string.

Abbreviation import_all :=
  (Database.import_all pk hashid tagged_json config_history_file).

Lemma import_all_session (xs : list entity) history_file (st : state) :
  xs <> [] -> session (import_all xs history_file st).2 = None.
Proof.
  intros Hxs. destruct xs as [|x xs]; [done|]. clear Hxs.
  unfold Database.import_all.
  set (body := for_each (fun x => bind (acquire x) (fun _ => ret tt)) (x :: xs)).
  destruct (with_self_work body st (work_acquire_all pk hashid (x :: xs)))
    as (r0 & st2 & s & _ & _ & _ & Hw).
  unfold bind. rewrite Hw. by destruct r0 as [[]|e].
Qed.

(** X17. [import_all] runs its own unit of work and leaves no session behind:
    after a call on a non-empty list [self.session] is [None], whether the
    call returned or raised and whatever session was open before. Called
    inside [with db:], it therefore makes the [__exit__] of the caller
    raise [AttributeError]. *)
Theorem import_all_closes_session (xs : list entity)
    (history_file : option string) (st : state) :
  xs <> [] ->
  session (import_all xs history_file st).2 = None /\
  (with_self (import_all xs history_file) st).1 = Raise AttributeError.
Proof.
  intros Hxs. split; [by apply import_all_session|].
  unfold with_self. cbn [__enter__].
  pose proof (import_all_session xs history_file (__enter__ st).2 Hxs) as Hs.
  cbn [__enter__ snd] in Hs.
  destruct (import_all xs history_file _) as [r st2]. simpl in Hs.
  unfold __exit__. by rewrite Hs.
Qed.

(** *** The walk and [replay] at their edges *)

Variable parse_entity : string -> result entity.
Variable config_history_root : hist_arg.
Variable Path_of_str : string -> Path.

Abbreviation _accumulate_history_files :=
  (Database._accumulate_history_files Path_of_str).
Abbreviation _accumulate_history_files_fuel :=
  (Database._accumulate_history_files_fuel Path_of_str).
Abbreviation replay :=
  (Database.replay pk hashid parse_entity config_history_root Path_of_str).

(** X18. On a [Path], [_accumulate_history_files] returns: it appends the
    files it finds to the list it is given and keeps what the list held,
    and which files it appends does not depend on that list. A path given
    as a [str] is walked as the [Path] of that string. *)
Theorem accumulate_entry_points (before after : option string) :
  (forall root, path_wf root ->
     exists files, forall results,
       _accumulate_history_files (HPath root) before after results =
         Ok (results ++ files)) /\
  (forall s, path_wf (Path_of_str s) ->
     forall results,
       _accumulate_history_files (HStr s) before after results =
       _accumulate_history_files (HPath (Path_of_str s)) before after results).
Proof.
  split.
  - intros root Hwf.
    destruct (accumulate_path Path_of_str before after (path_height root) root)
      as (l & _ & Hrun); [done|done|].
    exists l. intros results. unfold Database._accumulate_history_files.
    apply Hrun. simpl. lia.
  - intros s Hwf results.
    destruct (accumulate_path Path_of_str before after
                (path_height (Path_of_str s)) (Path_of_str s))
      as (l & _ & Hrun); [done|done|].
    unfold Database._accumulate_history_files.
    cbn [walk_fuel].
    replace (2 * path_height (Path_of_str s) + 3)%nat
      with (S (2 * path_height (Path_of_str s) + 2))%nat by lia.
    cbn [Database._accumulate_history_files_fuel].
    by rewrite !Hrun by lia.
Qed.

(** X19. [replay] on a path that does not exist, and on an empty directory. A
    missing path is not a directory, so the walk returns it as a file to
    replay: [replay] announces it, opens a session, fails to read the file,
    commits and closes the session, and raises the error of [open]. An empty
    directory gives no file, and [replay] returns with nothing done. *)
Theorem replay_missing_or_empty_root (root : Path)
    (before after : option string) (st : state) :
  (entry root = None ->
   replay (Some (HPath root)) before after st =
     (Raise OSError,
      State (store st) None (cache st) (files st)
        (trace st ++ [EvReplaying (parts root); EvEnter; EvCommit; EvClose]))) /\
  (forall n, entry root = Some (Dir n []) ->
   replay (Some (HPath root)) before after st = (Ok tt, st)).
Proof.
  split.
  - intros Hroot. unfold Database.replay. cbn [hist_truthy default from_option id].
    unfold Database._accumulate_history_files, walk_fuel, path_height.
    rewrite Hroot. cbn [Nat.mul Nat.add Database._accumulate_history_files_fuel].
    unfold is_dir. rewrite Hroot.
    unfold bind, lift, for_each, log, with_self, __enter__, __exit__, readlines,
      ret. simpl. rewrite Hroot. simpl.
    unfold bind. by rewrite <- !app_assoc.
  - intros n Hroot. unfold Database.replay. cbn [hist_truthy default from_option id].
    unfold Database._accumulate_history_files, walk_fuel, path_height.
    rewrite Hroot. cbn [height Nat.mul Nat.add Database._accumulate_history_files_fuel].
    unfold is_dir, iterdir. rewrite Hroot. cbn [map sorted foldr].
    assert (filter_after after (filter_before before []) = []) as ->.
    { unfold filter_after, filter_before.
      destruct before as [b|], after as [a|]; simpl;
        repeat (match goal with |- context [if ?c then _ else _] => destruct c end);
        done. }
    done.
Qed.

Lemma for_each_raise {A} (f : A -> M unit) l1 x l2 (st : state) st1 e st2 :
  for_each f l1 st = (Ok tt, st1) -> f x st1 = (Raise e, st2) ->
  for_each f (l1 ++ x :: l2) st = (Raise e, st2).
Proof.
  revert st. induction l1 as [|y l1 IH]; intros st Hl1 Hx; simpl in *.
  - injection Hl1 as <-. unfold bind. by rewrite Hx.
  - apply bind_inv_Ok in Hl1 as ([] & sta & Hy & Hl1).
    unfold bind. rewrite Hy. by apply IH.
Qed.

(** X20. [replay] stops at the first file that fails. When the files before it
    were replayed and the unit of work of a file raises (a line that does
    not parse, an entity that cannot be acquired), [replay] raises that
    exception in the state in which that unit of work ended, after its
    commit: no session is open, and the files that come later in the order
    are not looked at. *)
Theorem replay_stops_at_failure (root : Path) (before after : option string)
    (st : state) fs1 f fs2 st1 e st2 :
  _accumulate_history_files (HPath root) before after [] = Ok (fs1 ++ f :: fs2) ->
  for_each (file_body pk hashid parse_entity) fs1 st = (Ok tt, st1) ->
  file_body pk hashid parse_entity f st1 = (Raise e, st2) ->
  replay (Some (HPath root)) before after st = (Raise e, st2) /\
  session st2 = None /\
  exists w, trace st2 = trace st1 ++ [EvReplaying (parts f); EvEnter] ++ w
                          ++ [EvCommit; EvClose] /\
            Forall work_event w.
Proof.
  intros Hwalk Hfs1 Hf. split.
  - rewrite replay_unfold. cbn [hist_truthy default from_option id].
    unfold bind at 1, lift. rewrite Hwalk. by eapply for_each_raise.
  - unfold file_body, bind at 1, log in Hf.
    match type of Hf with
    | with_self _ ?sta = _ =>
        destruct (with_self_work (lines_body pk hashid parse_entity f) sta
                    (work_lines_body pk hashid parse_entity f))
          as (r0 & stb & s & _ & _ & Hwork & Hw)
    end.
    rewrite Hw in Hf. destruct r0 as [[]|e0]; [done|].
    injection Hf as -> <-. split; [done|].
    destruct Hwork as [_ _ _ (w & Ht & Hwe) _]. exists w. split; [|done].
    simpl in *. rewrite Ht. by rewrite <- !app_assoc.
Qed.

(** *** Entities without children *)

(** The row that [_acquire] builds for an institution or a topic. *)
Definition leaf_row (x : entity) : option row :=
  match x with
  | EInstitution i =>
      Some (Institution_row (hashid x) (institution_name i)
              (institution_category i))
  | ETopic t => Some (Topic_row (hashid x) (topic_name t))
  | _ => None
  end.

(** X21. Insert or update. In a unit of work, when the cache has no answer,
    [acquire] on an institution or a topic makes one merge: the session then
    holds the row of the entity under its primary key, in place of whatever
    row was there, every other row is as before, and the row is returned
    and cached under the address. *)
Theorem acquire_leaf_upsert (x : entity) (st : state) s r :
  falsy (hashid x) = true \/ cache st !! hashid x = None ->
  session st = Some s ->
  leaf_row x = Some r ->
  acquire x st =
    (Ok (Some r),
     State (store st) (Some (<[key_of pk r := r]> s))
       (<[hashid x := Some r]> (cache st)) (files st)
       (trace st ++ [EvMerge r; EvAcquired x (Some r)])).
Proof.
  intros Hmiss Hs Hr. rewrite acquire_unfold, acquire_with_miss by done.
  destruct x; try done; injection Hr as <-;
    unfold Database._acquire, bind, session_merge, ret; rewrite Hs; simpl;
    by rewrite <- app_assoc.
Qed.

(** *** A directory of files *)

Lemma StronglySorted_impl_in {A} (R R' : A -> A -> Prop) l :
  StronglySorted R l ->
  (forall x y, x ∈ l -> y ∈ l -> R x y -> R' x y) ->
  StronglySorted R' l.
Proof.
  induction 1 as [|x l Hl IH Hx]; intros Himpl; [constructor|].
  constructor.
  - apply IH. intros y z Hy Hz. apply Himpl; apply elem_of_cons; by right.
  - rewrite Forall_forall in Hx. apply Forall_forall. intros y Hy.
    apply Himpl; [apply elem_of_cons; by left|apply elem_of_cons; by right|].
    by apply Hx.
Qed.

(** X22. When the root is a directory that holds files only, the files that
    [replay] applies are exactly the files of the directory whose name
    passes the two filters, in the order of their names. *)
Theorem accumulate_flat_directory (root : Path) (before after : option string) :
  path_wf root -> is_dir root = true ->
  (forall c, c ∈ iterdir root -> is_dir c = false) ->
  exists files,
    _accumulate_history_files (HPath root) before after [] = Ok files /\
    (forall f, f ∈ files <-> f ∈ iterdir root /\ keep before after f = true) /\
    StronglySorted (fun f g => String.ltb (name f) (name g) = true) files.
Proof.
  intros Hwf Hdir Hflat.
  destruct (accumulate_root Path_of_str before after root Hwf)
    as (files & (Hsel & _ & Hsorted) & Hrun).
  assert (forall f, f ∈ files <-> f ∈ iterdir root /\ keep before after f = true)
    as Hfiles.
  { intros f. rewrite Hsel. split.
    - inversion 1 as [|? c ? _ Hc Hkeep Hcf]; subst; [congruence|].
      inversion Hcf as [|? c' ? Hcdir _ _ _]; subst; [done|].
      rewrite (Hflat c Hc) in Hcdir. done.
    - intros [Hf Hkeep]. eapply selected_child; [done|exact Hf|done|].
      apply selected_file. by apply Hflat. }
  exists files. split; [done|]. split; [done|].
  eapply StronglySorted_impl_in; [exact Hsorted|].
  intros f g Hf Hg Hfg. simpl in *.
  apply Hfiles in Hf as [Hf _]. apply Hfiles in Hg as [Hg _].
  apply iterdir_child in Hf as (_ & _ & Hf).
  apply iterdir_child in Hg as (_ & _ & Hg).
  unfold Path_ltb in Hfg. by rewrite Hf, Hg, parts_ltb_siblings in Hfg.
Qed.


(** *** The positions of the authors of a paper *)

#[local] Existing Instance work_preorder.

(** A loop whose rounds only work on the session: what a round that
    returned left in the trace is still there when the loop returns. *)
Lemma for_enumerate_trace {A} (f : nat -> A -> M unit)
    (Q : nat -> A -> list event -> Prop) i l (st : state) st' :
  (forall j x t t', Q j x t -> Q j x (t ++ t')) ->
  (forall j x, kept work (f j x)) ->
  (forall j x sta stb, f j x sta = (Ok tt, stb) -> Q j x (trace stb)) ->
  for_enumerate f i l st = (Ok tt, st') ->
  forall k x, l !! k = Some x -> Q (i + k)%nat x (trace st').
Proof.
  intros Hmono Hwork Hstep. revert i st.
  induction l as [|y l IH]; intros i st Hrun k x Hk; [done|].
  simpl in Hrun. apply bind_inv_Ok in Hrun as ([] & sta & Hy & Hrest).
  destruct k as [|k]; simpl in Hk.
  - injection Hk as <-. rewrite Nat.add_0_r.
    pose proof (kept_for_enumerate work f (S i) l Hwork sta) as Hw.
    rewrite Hrest in Hw. cbn [snd] in Hw.
    destruct Hw as [_ _ _ (t & -> & _) _].
    apply Hmono. by eapply Hstep.
  - replace (i + S k)%nat with (S i + k)%nat by lia. by eapply IH.
Qed.

(** X23. When [acquire] on a paper returns, each author of the paper was
    acquired and a paper-author row was merged for it that carries the
    address of the paper, the address read from the row of the author, and
    the index of the author in the list of authors as its position. *)
Theorem paper_author_positions (p : Paper) (st : state) r st' :
  falsy (hashid (EPaper p)) = true \/ cache st !! hashid (EPaper p) = None ->
  acquire (EPaper p) st = (Ok r, st') ->
  forall k a, paper_authors p !! k = Some a ->
    exists aa aid,
      EvAcquired (EAuthor a) aa ∈ trace st' /\
      attr_author_id aa = Ok aid /\
      EvMerge (PaperAuthor_row (hashid (EPaper p)) aid k) ∈ trace st'.
Proof.
  intros Hmiss Hrun k a Hk.
  rewrite acquire_unfold, acquire_with_miss in Hrun by done.
  destruct (_acquire (acquire_fuel 3) (EPaper p) st) as [[r0|e] st0] eqn:Hbody;
    [|done].
  injection Hrun as <- <-. cbn [trace].
  set (Q := fun (j : nat) (a : Author) (t : list event) =>
              exists aa aid,
                EvAcquired (EAuthor a) aa ∈ t /\
                attr_author_id aa = Ok aid /\
                EvMerge (PaperAuthor_row (hashid (EPaper p)) aid j) ∈ t).
  assert (forall j x t t', Q j x t -> Q j x (t ++ t')) as Hmono.
  { intros j x t t' (aa & aid & H1 & H2 & H3). exists aa, aid.
    rewrite !elem_of_app. auto. }
  apply (Hmono k a (trace st0) [EvAcquired (EPaper p) r0]).
  unfold Database._acquire in Hbody.
  apply bind_inv_Ok in Hbody as ([] & st1 & _ & Hbody).
  apply bind_inv_Ok in Hbody as ([] & st2 & Hloop & Hrest).
  match type of Hrest with
  | ?rest st2 = _ =>
      assert (kept work rest) as Hw
  end.
  { repeat first
      [ apply kept_ret; apply _ | apply kept_lift; apply _
      | apply work_merge | apply work_insert_ignore | apply work_acquire_fuel
      | apply kept_bind; [apply _| |] | apply kept_for_each; [apply _|]
      | intro ]. }
  specialize (Hw st2). rewrite Hrest in Hw. cbn [snd] in Hw.
  destruct Hw as [_ _ _ (t & -> & _) _]. apply Hmono.
  change k with (0 + k)%nat.
  eapply (for_enumerate_trace _ Q 0 (paper_authors p) st1 st2 Hmono);
    [| |exact Hloop|exact Hk].
  - intros j x.
    repeat first
      [ apply kept_ret; apply _ | apply kept_lift; apply _
      | apply work_merge | apply work_insert_ignore | apply work_acquire_fuel
      | apply kept_bind; [apply _| |] | apply kept_for_each; [apply _|]
      | intro ].
  - intros j x sta stb Hstep.
    apply bind_inv_Ok in Hstep as (aa & s1 & Hacq & Hstep).
    apply bind_inv_Ok in Hstep as (aid & s1' & Hattr & Hstep).
    unfold lift in Hattr. injection Hattr as Hattr <-.
    apply bind_inv_Ok in Hstep as ([] & s2 & Hmerge & Hstep).
    rewrite (acquire_fuel_depth 3 4) in Hacq by (simpl; lia).
    destruct (acquire_trace pk hashid _ _ _ _ Hacq) as (t1 & Ht1 & _).
    unfold session_merge in Hmerge.
    destruct (session s1) as [s|]; [|done]. injection Hmerge as <-.
    match type of Hstep with
    | ?rest _ = _ => assert (kept work rest) as Hw
    end.
    { apply kept_for_each; [apply _|]. intros y.
      repeat first
        [ apply kept_ret; apply _ | apply kept_lift; apply _
        | apply work_merge | apply work_insert_ignore | apply work_acquire_fuel
        | apply kept_bind; [apply _| |] | intro ]. }
    match type of Hstep with
    | _ ?s2 = _ => specialize (Hw s2)
    end.
    rewrite Hstep in Hw. cbn [snd] in Hw.
    destruct Hw as [_ _ _ (t2 & Ht2 & _) _].
    cbn [trace] in Ht2. exists aa, aid. rewrite Ht2, Ht1, !elem_of_app.
    split; [|split; [done|]].
    + left. left. right. right. by apply list_elem_of_singleton.
    + left. right. by apply list_elem_of_singleton.
Qed.

End MoreDatabaseProperties.

(** ** The further properties on the sample schema *)

Module MoreRuns.
Import Sample.

Definition first_file : fsentry := File "2023-01.jsonl" ["Tgraphs"].
Definition bad_file : fsentry :=
  File "2023-02.jsonl" ["Tsets"; "garbage"; "Tlogic"].
Definition last_file : fsentry := File "2023-03.jsonl" ["Ttrees"].

(** A history of three files, the second with a line that does not
    parse. *)
Definition root : Path :=
  mkPath ["history"] (Some (Dir "history" [last_file; bad_file; first_file])).

Definition first_path : Path := child root first_file.
Definition bad_path : Path := child root bad_file.
Definition last_path : Path := child root last_file.

Definition body : Path -> Database.M (K:=Runs.K) unit :=
  file_body pk hashid parse_entity.

End MoreRuns.

Lemma acquire_fails_early_witness :
  Sample.acquire Runs.graphs Sample.st0 = (Raise AttributeError, Sample.st0).
Proof.
  apply (acquire_fails_early Sample.pk Sample.hashid Runs.graphs Sample.st0).
  - right. apply lookup_empty.
  - reflexivity.
  - reflexivity.
Defined.

Lemma acquire_returns_own_row_witness :
  exists r st',
    Sample.acquire Runs.graphs Sample.st1 = (Ok r, st') /\
    r = Some (Topic_row (Sample.hashid Runs.graphs) "graphs").
Proof.
  set (res := Sample.acquire Runs.graphs Sample.st1).
  assert (res.1 = Ok (Some (Topic_row (Sample.hashid Runs.graphs) "graphs")))
    as Hfst by (vm_compute; reflexivity).
  assert (Sample.acquire Runs.graphs Sample.st1 =
          (Ok (Some (Topic_row (Sample.hashid Runs.graphs) "graphs")), res.2))
    as Hrun.
  { rewrite <- Hfst. apply surjective_pairing. }
  eexists _, res.2. split; [exact Hrun|].
  apply (acquire_returns_own_row Sample.pk Sample.hashid Runs.graphs Sample.st1
           _ res.2 (or_intror (lookup_empty _)) Hrun).
Defined.

Lemma import_all_closes_session_witness :
  Database.session (Sample.import_all [Runs.graphs] None Sample.st0).2 = None /\
  (Database.with_self (Sample.import_all [Runs.graphs] None) Sample.st0).1
    = Raise AttributeError.
Proof.
  apply (import_all_closes_session Sample.pk Sample.hashid Sample.tagged_json
           "history.jsonl" [Runs.graphs] None Sample.st0).
  discriminate.
Defined.

Lemma replay_stops_at_failure_witness :
  exists st2,
    Database.replay Sample.pk Sample.hashid Sample.parse_entity (HStr "history")
      Runs.no_str (Some (HPath MoreRuns.root)) None None Sample.st0
      = (Raise ParseError, st2) /\
    Database.session st2 = None.
Proof.
  set (r1 := Database.for_each MoreRuns.body [MoreRuns.first_path] Sample.st0).
  assert (r1.1 = Ok tt) as Hfst1 by (vm_compute; reflexivity).
  assert (Database.for_each MoreRuns.body [MoreRuns.first_path] Sample.st0
          = (Ok tt, r1.2)) as Hrun1.
  { rewrite <- Hfst1. apply surjective_pairing. }
  set (r2 := MoreRuns.body MoreRuns.bad_path r1.2).
  assert (r2.1 = Raise ParseError) as Hfst2 by (vm_compute; reflexivity).
  assert (MoreRuns.body MoreRuns.bad_path r1.2 = (Raise ParseError, r2.2))
    as Hrun2.
  { rewrite <- Hfst2. apply surjective_pairing. }
  assert (Database._accumulate_history_files Runs.no_str (HPath MoreRuns.root)
            None None []
          = Ok ([MoreRuns.first_path] ++ MoreRuns.bad_path :: [MoreRuns.last_path]))
    as Hwalk by (vm_compute; reflexivity).
  destruct (replay_stops_at_failure Sample.pk Sample.hashid Sample.parse_entity
              (HStr "history") Runs.no_str MoreRuns.root None None Sample.st0
              [MoreRuns.first_path] MoreRuns.bad_path [MoreRuns.last_path]
              r1.2 ParseError r2.2 Hwalk Hrun1 Hrun2) as (Hreplay & Hsession & _).
  exists r2.2. split; [exact Hreplay|exact Hsession].
Defined.

Lemma acquire_leaf_upsert_witness :
  (Sample.acquire Runs.graphs Sample.st1).1
    = Ok (Some (Topic_row (Sample.hashid Runs.graphs) "graphs")).
Proof.
  unfold Sample.acquire.
  rewrite (acquire_leaf_upsert Sample.pk Sample.hashid Runs.graphs Sample.st1 ∅
             (Topic_row (Sample.hashid Runs.graphs) "graphs")).
  - reflexivity.
  - right. apply lookup_empty.
  - reflexivity.
  - reflexivity.
Defined.

Lemma accumulate_flat_directory_witness :
  exists files,
    Database._accumulate_history_files Runs.no_str (HPath MoreRuns.root)
      (Some "2023-03") None [] = Ok files /\
    (forall f, f ∈ files <->
       f ∈ iterdir MoreRuns.root /\ keep (Some "2023-03") None f = true).
Proof.
  destruct (accumulate_flat_directory Runs.no_str MoreRuns.root
              (Some "2023-03") None) as (files & H1 & H2 & _).
  - unfold path_wf. simpl. split; [|done].
    apply (bool_decide_unpack _). vm_compute. exact I.
  - reflexivity.
  - intros c Hc. unfold iterdir in Hc. simpl in Hc.
    repeat (apply elem_of_cons in Hc as [->|Hc]; [reflexivity|]).
    by apply elem_of_nil in Hc.
  - exists files. split; [exact H1|exact H2].
Defined.

Lemma paper_author_positions_witness :
  exists aa aid,
    EvAcquired (EAuthor Sample.smith) aa
      ∈ Database.trace (Sample.acquire (EPaper Sample.graph_theory) Sample.st1).2 /\
    attr_author_id aa = Ok aid /\
    EvMerge (PaperAuthor_row (Sample.hashid (EPaper Sample.graph_theory)) aid 0)
      ∈ Database.trace (Sample.acquire (EPaper Sample.graph_theory) Sample.st1).2.
Proof.
  set (res := Sample.acquire (EPaper Sample.graph_theory) Sample.st1).
  assert (res.1 = Ok (Some (Paper_row (Sample.hashid (EPaper Sample.graph_theory))
                              "Graph Theory" None (Some 3))))
    as Hfst by (vm_compute; reflexivity).
  assert (Sample.acquire (EPaper Sample.graph_theory) Sample.st1 =
          (Ok (Some (Paper_row (Sample.hashid (EPaper Sample.graph_theory))
                       "Graph Theory" None (Some 3))), res.2)) as Hrun.
  { rewrite <- Hfst. apply surjective_pairing. }
  apply (paper_author_positions Sample.pk Sample.hashid Sample.graph_theory
           Sample.st1 _ res.2 (or_intror (lookup_empty _)) Hrun 0%nat
           Sample.smith eq_refl).
Defined.
